(** * Beluga challenge solver: search and constraint propagation

  A shallow embedding of the search-and-propagation core of the Beluga
  solver (beluga_csp.py, beluga_astar.py, beluga_hybrid_solver.py,
  beluga_local_search.py, beluga_heuristic.py) together with the
  properties its specification states about it.

  Conventions.
  - Python dictionaries keyed by hashable values are [gmap]s, Python sets
    are [gset]s, Python lists are [list]s.
  - A Python exception is a value of [exn]; code that can raise returns a
    [result].
  - A [while] loop without a bound of its own runs on fuel: [None] means
    that the fuel ran out before the loop ended.
  - Python numbers that may be floats (priorities, time budgets) are exact
    rationals [Q]; rounding is not modelled. *)

From stdpp Require Import gmap strings list fin_maps pretty sorting.
From Stdlib Require Import QArith Lqa.

Local Open Scope nat_scope.

(** ** Exceptions and results *)

Inductive exn := KeyError | ValueError | ZeroDivisionError | IndexError.

Inductive result (A : Type) :=
| Ok (a : A)
| Raise (e : exn).
Arguments Ok {A} a.
Arguments Raise {A} e.

(** ** Comparing rationals *)

(** [a < b] on Python numbers. *)
Definition Qltb (a b : Q) : bool :=
  match (a ?= b)%Q with
  | Lt => true
  | _ => false
  end.

(** * The data the solver reads

  [BelugaState] and the instance dictionary, with the fields the modules
  below read. The class itself (beluga_state.py) and the goal test
  (beluga_goal.py) are collaborators of the search and are not part of
  this development. *)

Module Beluga.

(** [state.rack_jigs] is a dictionary from rack id to the tuple of jigs in
    the rack, kept as the list of its items; [state.jig_status] maps a jig
    to (loaded, part_id). *)
Record BelugaState := {
  rack_jigs : list (string * list string);
  jig_status : gmap string (bool * string);
  factory_jigs : gset string;
  beluga_jigs : gset string;
  current_flight_idx : nat;
  produced_parts : gset string
}.

Record flight := {
  incoming : list string;
  outgoing : list string
}.

(** [instance_data]: 'jigs' (id and type), 'racks' (name and size),
    'flights' and the 'schedule' of every entry of 'production_lines'. *)
Record instance_data := {
  jigs : list (string * string);
  racks : list (string * Z);
  flights : list flight;
  production_lines : list (list string)
}.

(** [production_schedule]: the schedules of all lines, one after another. *)
Definition production_schedule (inst : instance_data) : list string :=
  concat (production_lines inst).

(** [state.jig_status.get(jig_id, (False, ""))] *)
Definition status_of (st : BelugaState) (jig_id : string) : bool * string :=
  default (false, EmptyString) (jig_status st !! jig_id).

End Beluga.

(** * beluga_csp.py: domain reduction *)

Module CSP.
Section Propagation.
(** Domain values are compared with [==] by [list.remove]. *)
Context {V : Type} `{EqDecision V}.

(** A constraint is a triple (var1, var2, constraint_func). *)
Definition constraint : Type := string * string * (V → V → bool).

Definition cvar1 (c : constraint) : string := c.1.1.
Definition cvar2 (c : constraint) : string := c.1.2.
Definition cfunc (c : constraint) : V → V → bool := c.2.

(** [l.remove(x)]: drops the first element equal to [x]; ValueError when
    there is none. *)
Fixpoint list_remove (x : V) (l : list V) : option (list V) :=
  match l with
  | [] => None
  | y :: l' => if decide (x = y) then Some l' else cons y <$> list_remove x l'
  end.

(** [for val in to_remove: domain.remove(val)] *)
Fixpoint remove_all (to_remove : list V) (l : list V) : option (list V) :=
  match to_remove with
  | [] => Some l
  | x :: rest =>
      match list_remove x l with
      | Some l' => remove_all rest l'
      | None => None
      end
  end.

(** The inner loop of [_revise_domain]: some value of [d2] satisfies the
    constraint together with [val1]. *)
Definition satisfies (c : V → V → bool) (d2 : list V) (val1 : V) : bool :=
  existsb (c val1) d2.

Definition unsupported (c : V → V → bool) (d2 d1 : list V) : list V :=
  filter (λ v, satisfies c d2 v = false) d1.

(** [_revise_domain(var1, var2, constraint)]: the flag [revised] and the
    domains afterwards. [self.domains[var2]] is only read inside the loop
    over the values of [var1]. *)
Definition revise_domain (doms : gmap string (list V))
    (var1 var2 : string) (c : V → V → bool)
    : result (bool * gmap string (list V)) :=
  match doms !! var1 with
  | None => Raise KeyError
  | Some domain1 =>
      match doms !! var2 with
      | None =>
          match domain1 with
          | [] => Ok (false, doms)
          | _ :: _ => Raise KeyError
          end
      | Some domain2 =>
          let to_remove := unsupported c domain2 domain1 in
          let revised := bool_decide (to_remove ≠ []) in
          if decide (length to_remove < length domain1) then
            match remove_all to_remove domain1 with
            | Some d => Ok (revised, <[var1 := d]> doms)
            | None => Raise ValueError
            end
          else Ok (revised, doms)
      end
  end.

(** The worklist of [reduce_domains]: both directions of every constraint. *)
Definition initial_arcs (cs : list constraint) : list (string * string) :=
  flat_map (λ c, [(cvar1 c, cvar2 c); (cvar2 c, cvar1 c)]) cs.

(** "Find the relevant constraint": the first one on the two variables, in
    either direction. *)
Definition relevant (var1 var2 : string) (c : constraint) : bool :=
  bool_decide ((cvar1 c = var1 ∧ cvar2 c = var2) ∨ (cvar1 c = var2 ∧ cvar2 c = var1)).

Definition find_constraint (cs : list constraint) (var1 var2 : string)
    : option (V → V → bool) :=
  cfunc <$> find (relevant var1 var2) cs.

(** "Add affected arcs back to the queue". *)
Definition affected_arcs (cs : list constraint) (var1 var2 : string)
    : list (string * string) :=
  (λ c, (cvar1 c, var1)) <$> filter (λ c, cvar2 c = var1 ∧ cvar1 c ≠ var2) cs.

(** One turn of the [while arcs] loop. *)
Inductive step_result :=
| Continue (arcs : list (string * string)) (doms : gmap string (list V))
| Return (b : bool) (doms : gmap string (list V))
| Fault (e : exn).

Definition reduce_step (cs : list constraint)
    (arcs : list (string * string)) (doms : gmap string (list V)) : step_result :=
  match arcs with
  | [] => Return true doms
  | (var1, var2) :: arcs' =>
      if decide (var1 ∉ dom doms ∨ var2 ∉ dom doms) then Continue arcs' doms
      else
        match find_constraint cs var1 var2 with
        | None => Continue arcs' doms
        | Some c =>
            match revise_domain doms var1 var2 c with
            | Raise e => Fault e
            | Ok (false, doms') => Continue arcs' doms'
            | Ok (true, doms') =>
                match doms' !! var1 with
                | None => Fault KeyError
                | Some [] => Return false doms'
                | Some (_ :: _) => Continue (arcs' ++ affected_arcs cs var1 var2) doms'
                end
            end
        end
  end.

(** What a finished run reports: the returned boolean, the domains it
    leaves in [self.domains], and the number of arcs popped. *)
Record report := Report {
  rep_result : bool;
  rep_domains : gmap string (list V);
  rep_pops : nat
}.

Fixpoint reduce_loop (fuel : nat) (cs : list constraint)
    (arcs : list (string * string)) (doms : gmap string (list V)) (pops : nat)
    : option (result report) :=
  match fuel with
  | 0 => None
  | S fuel' =>
      match reduce_step cs arcs doms with
      | Return b doms' => Some (Ok (Report b doms' pops))
      | Fault e => Some (Raise e)
      | Continue arcs' doms' => reduce_loop fuel' cs arcs' doms' (S pops)
      end
  end.

Definition reduce_domains (fuel : nat) (cs : list constraint)
    (doms : gmap string (list V)) : option (result report) :=
  reduce_loop fuel cs (initial_arcs cs) doms 0.

(** The domains after [n] turns of the loop, when it is still running. *)
Fixpoint domains_after (n : nat) (cs : list constraint)
    (arcs : list (string * string)) (doms : gmap string (list V))
    : option (gmap string (list V)) :=
  match n with
  | 0 => Some doms
  | S n' =>
      match reduce_step cs arcs doms with
      | Continue arcs' doms' => domains_after n' cs arcs' doms'
      | Return _ doms' => Some doms'
      | Fault _ => None
      end
  end.

Definition all_nonempty (doms : gmap string (list V)) : Prop :=
  map_Forall (λ _ d, d ≠ []) doms.

(** The values of [d1] with a support in [d2], and the domain a revision
    leaves to [var1]: nothing is removed unless something stays. *)
Definition supported_values (c : V → V → bool) (d2 d1 : list V) : list V :=
  filter (λ v, ¬ (satisfies c d2 v = false)) d1.

Definition revised_domain (c : V → V → bool) (d2 d1 : list V) : list V :=
  if decide (length (unsupported c d2 d1) < length d1)
  then supported_values c d2 d1 else d1.

(** A ranking of the variables along which every constraint points upwards:
    the constraints have no cycle. *)
Definition ranked (rk : string → nat) (cs : list constraint) : Prop :=
  Forall (λ c, rk (cvar1 c) < rk (cvar2 c)) cs.

(** The weight of a worklist: an arc that revises a variable of rank [r]
    counts [b ^ r]. *)
Definition arcs_weight (b : nat) (rk : string → nat) (arcs : list (string * string)) : nat :=
  sum_list_with (λ a, b ^ rk a.1) arcs.

(** The bound on the arcs popped that the ranking gives. *)
Definition work_bound (rk : string → nat) (cs : list constraint) : nat :=
  arcs_weight (S (length cs)) rk (initial_arcs cs).

End Propagation.

(** ** Two small instances *)

(** Three variables constrained in a cycle, no pair of values compatible. *)
Definition never (_ _ : nat) : bool := false.

Definition cyc_cs : list (@constraint nat) :=
  [("a", "b", never); ("b", "c", never); ("c", "a", never)].

Definition cyc_doms : gmap string (list nat) :=
  {[ "a" := [0]; "b" := [0]; "c" := [0] ]}.

(** A chain u - x - y where revising x against y removes a value. *)
Definition chain_cs : list (@constraint nat) :=
  [("x", "y", Nat.eqb); ("u", "x", λ _ _, true)].

Definition chain_doms : gmap string (list nat) :=
  {[ "x" := [0; 1]; "y" := [0]; "u" := [0] ]}.

Definition chain_rank (v : string) : nat :=
  if decide (v = "u") then 0 else if decide (v = "x") then 1 else 2.

Definition pops_of (r : option (result (@report nat))) : option nat :=
  match r with
  | Some (Ok rep) => Some (rep_pops rep)
  | _ => None
  end.

(** ** The domains [BelugaCSP] builds *)

(** Domain values: rack names, "beluga" and "factory" for a jig; positions
  for flights and parts. *)
Inductive value := VStr (s : string) | VInt (n : Z).

#[global] Instance value_eq_dec : EqDecision value.
Proof. solve_decision. Defined.

Section Extraction.
Import Beluga.
Variable st : BelugaState.
Variable inst : instance_data.

(** [_get_jig_domain]: every rack, then "beluga" and "factory". *)
Definition get_jig_domain (jig_id : string) : list value :=
  (VStr <$> (fst <$> rack_jigs st)) ++ [VStr "beluga"; VStr "factory"].

(** [list(range(lo, hi))] *)
Definition range (lo hi : nat) : list nat := seq lo (hi - lo).

Definition int_range (lo hi : nat) : list value :=
  (λ i, VInt (Z.of_nat i)) <$> range lo hi.

Definition jig_var (jig_id : string) : string := "jig_" +:+ jig_id.
Definition flight_var (i : nat) : string := "flight_" +:+ pretty i.
Definition prod_var (jig_id : string) : string := "prod_" +:+ jig_id.

(** [_extract_domains]: the three loops, each assigning [domains[name]]. *)
Definition extract_domains : gmap string (list value) :=
  let total_flights := length (flights inst) in
  let cur := current_flight_idx st in
  let schedule := production_schedule inst in
  let d1 := foldl (λ d j, <[jig_var j.1 := get_jig_domain j.1]> d) ∅ (jigs inst) in
  let d2 := foldl (λ d i, <[flight_var i := int_range cur total_flights]> d)
              d1 (range cur total_flights) in
  foldl (λ d jig_id,
           if decide (jig_id ∉ produced_parts st)
           then <[prod_var jig_id := int_range 0 (length schedule)]> d
           else d)
    d2 schedule.
End Extraction.

End CSP.

(** * The frontier: class PriorityQueue (beluga_astar.py, beluga_hybrid_solver.py)

    Both modules define the same class over [heapq]. [heapq] keeps
    [self.elements] as a binary heap of tuples (priority, entry_count, item);
    its contract is that [heappop] removes and returns the least tuple. The
    layout of the heap cannot be observed through [put], [get] and
    [is_empty], so [elements] lists the entries in the order they were put. *)

Module PQ.
Section Queue.
Context {A : Type}.

(** [item.__lt__], which Python calls only when priority and entry count
    are both equal. *)
Variable item_lt : A → A → bool.

Definition entry : Type := Q * nat * A.

Definition priority (e : entry) : Q := e.1.1.
Definition count (e : entry) : nat := e.1.2.
Definition item (e : entry) : A := e.2.

Record PriorityQueue := {
  elements : list entry;
  entry_count : nat
}.

(** [__init__] *)
Definition new_queue : PriorityQueue :=
  {| elements := []; entry_count := 0 |}.

(** [is_empty] *)
Definition is_empty (q : PriorityQueue) : bool :=
  bool_decide (length (elements q) = 0).

(** [put]: push (priority, entry_count, item), then count the entry. *)
Definition put (x : A) (p : Q) (q : PriorityQueue) : PriorityQueue :=
  {| elements := elements q ++ [(p, entry_count q, x)];
     entry_count := S (entry_count q) |}.

(** Python's [<] on the tuples: the first component that differs decides. *)
Definition entry_lt (e1 e2 : entry) : bool :=
  match (priority e1 ?= priority e2)%Q with
  | Lt => true
  | Gt => false
  | Eq =>
      match Nat.compare (count e1) (count e2) with
      | Lt => true
      | Gt => false
      | Eq => item_lt (item e1) (item e2)
      end
  end.

(** [heappop]: the least entry and the entries that stay. *)
Fixpoint pop_min (l : list entry) : option (entry * list entry) :=
  match l with
  | [] => None
  | e :: l' =>
      match pop_min l' with
      | None => Some (e, [])
      | Some (m, rest) =>
          if entry_lt m e then Some (m, e :: rest) else Some (e, l')
      end
  end.

(** [get]: the item of the popped entry; [heappop] raises IndexError on an
    empty heap. *)
Definition get (q : PriorityQueue) : result (A * PriorityQueue) :=
  match pop_min (elements q) with
  | None => Raise IndexError
  | Some (e, rest) =>
      Ok (item e, {| elements := rest; entry_count := entry_count q |})
  end.

(** The queues a client can build: any sequence of [put] and [get] on a new
    queue. *)
Inductive reachable : PriorityQueue → Prop :=
| reach_new : reachable new_queue
| reach_put q x p : reachable q → reachable (put x p q)
| reach_get q x q' : reachable q → get q = Ok (x, q') → reachable q'.

(** The key of an entry orders before the key of another: lower priority,
    or the same priority and put earlier. *)
Definition key_le (e1 e2 : entry) : Prop :=
  (priority e1 < priority e2)%Q ∨
  ((priority e1 == priority e2)%Q ∧ count e1 ≤ count e2).

(** Entries stand in [elements] in the order of their counts, all below
    the counter. *)
Definition by_count (e1 e2 : entry) : Prop := count e1 < count e2.

Definition well_formed (q : PriorityQueue) : Prop :=
  StronglySorted by_count (elements q) ∧
  Forall (λ e, count e < entry_count q) (elements q).

End Queue.

(** A queue with a tie: 7 and 8 wait at priority 1, 9 at priority 2. *)
Definition demo_queue : @PriorityQueue nat :=
  put 8 1%Q (put 7 1%Q (put 9 2%Q new_queue)).

End PQ.

(** * The searches (beluga_astar.py, beluga_hybrid_solver.py,
      beluga_local_search.py) *)

Module Search.
Import PQ.

(** [check_goal_progress(state, instance_data)]: the numbers before the
    slash of 'flights_progress' and 'parts_progress', and the four counts. *)
Record progress := {
  flights_progress : Z;
  parts_progress : Z;
  flights_processed : Z;
  total_flights : Z;
  parts_produced : Z;
  total_parts : Z
}.

Section Searches.
Context {State Action : Type} `{Countable State}.

(** What the searches call and do not define: the transition and the order
    of [BelugaState], the goal test and progress report of beluga_goal.py,
    the heuristic by variant, the action generators (for A* by the
    prioritize flag; for the hybrid search by the prioritize flag and by
    whether a forward checker is passed), and forward checking of a state:
    the success flag and the domain sizes, [None] when propagation does not
    end. The properties below hold for all of them. *)
Record world := {
  get_next_state : State → Action → option State;
  state_lt : State → State → bool;
  is_goal_state : State → bool;
  check_goal_progress : State → progress;
  heuristic : string → State → Q;
  get_all_possible_actions : bool → State → list Action;
  hybrid_possible_actions : bool → bool → State → list Action;
  check_forward : State → option (bool * gmap string nat)
}.

(** What a run observes from outside: the seconds elapsed at the time check
    of each iteration of a search, the index drawn by [random.choice] at an
    iteration, and for Local Search its own clock and the actions sampled by
    [_get_random_actions] at an iteration. *)
Record oracle := {
  elapsed : nat → Q;
  choice : nat → nat;
  ls_elapsed : nat → Q;
  ls_random_actions : nat → State → list Action
}.

(** How a search ends: a plan, [None], an exception, or a walk along
    [came_from] that never ends. *)
Inductive outcome :=
| Found (plan : list Action)
| NotFound
| Crashed (e : exn)
| Diverges.

Variable W : world.
Variable O : oracle.

(** Replaying a plan with the transition function. *)
Fixpoint replay (s : State) (plan : list Action) : option State :=
  match plan with
  | [] => Some s
  | a :: plan' =>
      match get_next_state W s a with
      | None => None
      | Some s' => replay s' plan'
      end
  end.

(** ** reconstruct_plan *)

(** The [while current_state in came_from] loop. *)
Fixpoint walk_back (fuel : nat) (came_from : gmap State (State * Action))
    (current_state : State) (actions : list Action) : option (list Action) :=
  match fuel with
  | 0 => None
  | S fuel' =>
      match came_from !! current_state with
      | None => Some actions
      | Some (previous_state, action) =>
          walk_back fuel' came_from previous_state (actions ++ [action])
      end
  end.

(** A walk that has taken more steps than [came_from] has keys has met a
    key twice and goes on for ever: this fuel loses no walk that ends. *)
Definition reconstruct_plan (came_from : gmap State (State * Action))
    (goal_state : State) : option (list Action) :=
  reverse <$> walk_back (S (size came_from)) came_from goal_state [].

Definition plan_outcome (came_from : gmap State (State * Action))
    (goal_state : State) : outcome :=
  match reconstruct_plan came_from goal_state with
  | Some plan => Found plan
  | None => Diverges
  end.

(** ** astar_search *)

Record store := {
  open_set : @PriorityQueue State;
  came_from : gmap State (State * Action);
  cost_so_far : gmap State nat
}.

Definition Qnat (n : nat) : Q := inject_Z (Z.of_nat n).

(** "If state is new or we found a better path" *)
Definition improves (cost_so_far : gmap State nat) (next_state : State) (new_cost : nat) : bool :=
  match cost_so_far !! next_state with
  | None => true
  | Some old => bool_decide (new_cost < old)
  end.

(** A step of a loop body: go on with a new store, or leave the search. *)
Inductive step (S : Type) :=
| Next (s : S)
| Stop (o : outcome).
Arguments Next {S} s.
Arguments Stop {S} o.

Fixpoint for_each {S X : Type} (body : S → X → step S) (st : S) (l : list X) : step S :=
  match l with
  | [] => Next st
  | x :: l' =>
      match body st x with
      | Next st' => for_each body st' l'
      | Stop o => Stop o
      end
  end.

(** The body of [for action in ...] in [astar_search]. *)
Definition relax (variant : string) (current_state : State)
    (st : store) (action : Action) : step store :=
  match get_next_state W current_state action with
  | None => Next st
  | Some next_state =>
      match cost_so_far st !! current_state with
      | None => Stop (Crashed KeyError)
      | Some c =>
          let new_cost := c + 1 in
          if improves (cost_so_far st) next_state new_cost then
            let priority := (Qnat new_cost + heuristic W variant next_state)%Q in
            Next {| cost_so_far := <[next_state := new_cost]> (cost_so_far st);
                    open_set := put next_state priority (open_set st);
                    came_from := <[next_state := (current_state, action)]> (came_from st) |}
          else Next st
      end
  end.

(** [time.time() - start_time > time_limit] at the given iteration. *)
Definition timed_out (time_limit : Q) (iterations : nat) : bool :=
  Qltb time_limit (elapsed O iterations).

Definition popped (st : store) (open' : @PriorityQueue State) : store :=
  {| open_set := open'; came_from := came_from st; cost_so_far := cost_so_far st |}.

(** The main loop; [fuel] is [max_iterations - iterations]. *)
Fixpoint astar_loop (variant : string) (prioritize : bool) (time_limit : Q)
    (fuel : nat) (iterations : nat) (st : store) : outcome :=
  match fuel with
  | 0 => NotFound
  | S fuel' =>
      if is_empty (open_set st) then NotFound
      else
        let iterations := S iterations in
        if timed_out time_limit iterations then NotFound
        else
          match get (state_lt W) (open_set st) with
          | Raise e => Crashed e
          | Ok (current_state, open') =>
              if is_goal_state W current_state
              then plan_outcome (came_from st) current_state
              else
                match for_each (relax variant current_state) (popped st open')
                        (get_all_possible_actions W prioritize current_state) with
                | Stop o => o
                | Next st' => astar_loop variant prioritize time_limit fuel' iterations st'
                end
          end
  end.

Definition initial_store (initial_state : State) : store :=
  {| open_set := put initial_state 0%Q new_queue;
     came_from := ∅;
     cost_so_far := {[ initial_state := 0 ]} |}.

Definition astar_search (initial_state : State) (max_iterations : Z) (time_limit : Q)
    (variant : string) (prioritize : bool) : outcome :=
  astar_loop variant prioritize time_limit (Z.to_nat max_iterations) 0
    (initial_store initial_state).

(** ** BelugaLocalSearch.solve *)

(** [x / y if y > 0 else 0] *)
Definition fraction (x y : Z) : Q :=
  if (0 <? y)%Z then (inject_Z x / inject_Z y)%Q else 0%Q.

(** [_evaluate_state] *)
Definition evaluate_state (s : State) : Q :=
  let p := check_goal_progress W s in
  let flight_score := (100 * fraction (flights_processed p) (total_flights p))%Q in
  let parts_score := (200 * fraction (parts_produced p) (total_parts p))%Q in
  (flight_score + parts_score
   + (50 * inject_Z (flights_processed p) + 100 * inject_Z (parts_produced p)))%Q.

(** The variables of [solve], and two counters that are not in the code:
    the calls of [_get_random_actions] and of [get_next_state] made so far. *)
Record ls_state := {
  best_state : State;
  best_score : Q;
  best_path : list Action;
  states_to_explore : list (State * list Action);
  visited_states : gset State;
  generated : nat;
  applied : nat
}.

(** What [solve] returns ([None] is Python's None) and the two counters. *)
Record ls_report := {
  ls_plan : option (list Action);
  ls_generated : nat;
  ls_applied : nat
}.

(** After the loop: [if best_path: return best_path], else None. *)
Definition ls_finish (st : ls_state) : ls_report :=
  {| ls_plan := match best_path st with [] => None | _ :: _ => Some (best_path st) end;
     ls_generated := generated st;
     ls_applied := applied st |}.

(** "Add promising states to explore" *)
Definition ls_enqueue (current_state : State) (path_so_far : list Action)
    (visited : gset State) (queue : list (State * list Action)) (action : Action)
    : list (State * list Action) :=
  match get_next_state W current_state action with
  | Some next_state =>
      if decide (next_state ∉ visited)
      then queue ++ [(next_state, path_so_far ++ [action])]
      else queue
  | None => queue
  end.

Definition ls_timed_out (time_limit : Q) (iterations : nat) : bool :=
  Qltb time_limit (ls_elapsed O iterations).

Fixpoint ls_loop (time_limit : Q) (fuel : nat) (iterations : nat) (st : ls_state)
    : ls_report :=
  match fuel with
  | 0 => ls_finish st
  | S fuel' =>
      match states_to_explore st with
      | [] => ls_finish st
      | (current_state, path_so_far) :: rest =>
          let iterations := S iterations in
          if ls_timed_out time_limit iterations then ls_finish st
          else if decide (current_state ∈ visited_states st) then
            ls_loop time_limit fuel' iterations
              {| best_state := best_state st; best_score := best_score st;
                 best_path := best_path st; states_to_explore := rest;
                 visited_states := visited_states st;
                 generated := generated st; applied := applied st |}
          else
            let visited := {[ current_state ]} ∪ visited_states st in
            if is_goal_state W current_state then
              {| ls_plan := Some path_so_far;
                 ls_generated := generated st; ls_applied := applied st |}
            else
              let current_score := evaluate_state current_state in
              let better := Qltb (best_score st) current_score in
              let possible_actions := ls_random_actions O iterations current_state in
              ls_loop time_limit fuel' iterations
                {| best_state := if better then current_state else best_state st;
                   best_score := if better then current_score else best_score st;
                   best_path := if better then path_so_far else best_path st;
                   states_to_explore :=
                     foldl (ls_enqueue current_state path_so_far visited) rest possible_actions;
                   visited_states := visited;
                   generated := S (generated st);
                   applied := applied st + length possible_actions |}
      end
  end.

Definition ls_initial (initial_state : State) : ls_state :=
  {| best_state := initial_state;
     best_score := evaluate_state initial_state;
     best_path := [];
     states_to_explore := [(initial_state, [])];
     visited_states := ∅;
     generated := 0;
     applied := 0 |}.

(** [solve(initial_state, best_progress, instance_data, time_limit,
    max_iterations)]; [best_progress] is not read. *)
Definition solve (initial_state : State) (time_limit : Q) (max_iterations : Z) : ls_report :=
  ls_loop time_limit (Z.to_nat max_iterations) 0 (ls_initial initial_state).

(** ** hybrid_astar_search *)

(** [min(d.values())]; None for an empty dictionary. *)
Definition list_min (l : list nat) : option nat :=
  match l with
  | [] => None
  | x :: l' => Some (foldl Nat.min x l')
  end.

Definition min_size (domain_sizes : gmap string nat) : option nat :=
  list_min ((map_to_list domain_sizes).*2).

(** [0.1 * (1.0 / m)] *)
Definition bonus (m : nat) : Q := ((1 # 10) * (1 / Qnat m))%Q.

(** "Incorporate forward checking insights": the penalty for a failed
    check, then the two blocks that both start with "Adjust heuristic based
    on domain sizes". The first divides by the smallest size unguarded. *)
Definition adjust_heuristic (h_value : Q) (success : bool)
    (domain_sizes : gmap string nat) : result Q :=
  let h1 := if success then h_value else (h_value + 10)%Q in
  match min_size domain_sizes with
  | None => Ok h1
  | Some m =>
      if decide (m = 0) then Raise ZeroDivisionError
      else
        let h2 := (h1 + bonus m)%Q in
        if decide (0 < m) then Ok (h2 + bonus m)%Q else Ok (h2 + 10)%Q
  end.

(** [heuristic(...)] and, with forward checking, its adjustment. *)
Definition hybrid_h_value (variant : string) (use_forward_checking : bool)
    (next_state : State) : step Q :=
  let h_value := heuristic W variant next_state in
  if use_forward_checking then
    match check_forward W next_state with
    | None => Stop Diverges
    | Some (success, domain_sizes) =>
        match adjust_heuristic h_value success domain_sizes with
        | Ok h => Next h
        | Raise e => Stop (Crashed e)
        end
    end
  else Next h_value.

(** The body of [for action in actions] in [hybrid_astar_search]. *)
Definition hybrid_relax (variant : string) (use_forward_checking : bool)
    (current_state : State) (st : store) (action : Action) : step store :=
  match get_next_state W current_state action with
  | None => Next st
  | Some next_state =>
      match cost_so_far st !! current_state with
      | None => Stop (Crashed KeyError)
      | Some c =>
          let new_cost := c + 1 in
          if improves (cost_so_far st) next_state new_cost then
            match hybrid_h_value variant use_forward_checking next_state with
            | Stop o => Stop o
            | Next h_value =>
                let priority := (Qnat new_cost + h_value)%Q in
                Next {| cost_so_far := <[next_state := new_cost]> (cost_so_far st);
                        open_set := put next_state priority (open_set st);
                        came_from := <[next_state := (current_state, action)]> (came_from st) |}
            end
          else Next st
      end
  end.

(** [best_progress], [stagnation_counter] and [restart_states]. *)
Record tracking := {
  best_flights : Z;
  best_parts : Z;
  stagnation_counter : Z;
  restart_states : list State
}.

Definition initial_tracking : tracking :=
  {| best_flights := 0; best_parts := 0; stagnation_counter := 0; restart_states := [] |}.

(** "Check if we're making progress" *)
Definition note_progress (use_random_restarts : bool) (current_state : State)
    (t : tracking) : tracking :=
  let p := check_goal_progress W current_state in
  if ((best_flights t <? flights_progress p)%Z || (best_parts t <? parts_progress p)%Z)%bool
  then
    {| best_flights := Z.max (best_flights t) (flights_progress p);
       best_parts := Z.max (best_parts t) (parts_progress p);
       stagnation_counter := 0;
       restart_states :=
         if (use_random_restarts && bool_decide (current_state ∉ restart_states t))%bool
         then restart_states t ++ [current_state]
         else restart_states t |}
  else
    {| best_flights := best_flights t;
       best_parts := best_parts t;
       stagnation_counter := (stagnation_counter t + 1)%Z;
       restart_states := restart_states t |}.

(** [random.choice(seq)]: the element at a drawn index below [len(seq)]. *)
Definition random_choice (iterations : nat) (l : list State) : option State :=
  l !! (choice O iterations `mod` length l).

(** "Check if we should do a random restart": the state to restart from. *)
Definition restart_seed (use_random_restarts : bool) (random_restart_threshold : Z)
    (iterations : nat) (t : tracking) : option State :=
  if (use_random_restarts
      && (random_restart_threshold `div` 100 <=? stagnation_counter t)%Z)%bool
  then
    match restart_states t with
    | [] => None
    | _ :: _ => random_choice iterations (restart_states t)
    end
  else None.

(** The block under [if iterations % 100 == 0]: the tracking and frontier
    afterwards, and whether the iteration ends there ([continue]). *)
Definition stagnation_block (use_random_restarts : bool) (random_restart_threshold : Z)
    (iterations : nat) (current_state : State)
    (t : tracking) (frontier : @PriorityQueue State)
    : tracking * @PriorityQueue State * bool :=
  if decide (iterations `mod` 100 = 0) then
    let t1 := note_progress use_random_restarts current_state t in
    match restart_seed use_random_restarts random_restart_threshold iterations t1 with
    | Some restart_state =>
        ({| best_flights := best_flights t1; best_parts := best_parts t1;
            stagnation_counter := 0; restart_states := restart_states t1 |},
         put restart_state 0%Q new_queue, true)
    | None => (t1, frontier, false)
    end
  else (t, frontier, false).

(** How the main loop of the hybrid search is left. *)
Inductive loop_exit :=
| ReturnedInLoop (o : outcome) (timeout : bool)
| LoopEnded.

Fixpoint hybrid_loop (variant : string) (prioritize use_forward_checking
    use_random_restarts : bool) (random_restart_threshold : Z) (time_limit : Q)
    (fuel : nat) (iterations : nat) (st : store) (t : tracking) : loop_exit :=
  match fuel with
  | 0 => LoopEnded
  | S fuel' =>
      if is_empty (open_set st) then LoopEnded
      else
        let iterations := S iterations in
        if timed_out time_limit iterations then ReturnedInLoop NotFound true
        else
          match get (state_lt W) (open_set st) with
          | Raise e => ReturnedInLoop (Crashed e) false
          | Ok (current_state, open') =>
              if is_goal_state W current_state
              then ReturnedInLoop (plan_outcome (came_from st) current_state) false
              else
                match stagnation_block use_random_restarts random_restart_threshold
                        iterations current_state t open' with
                | (t', frontier, true) =>
                    hybrid_loop variant prioritize use_forward_checking
                      use_random_restarts random_restart_threshold time_limit
                      fuel' iterations (popped st frontier) t'
                | (t', frontier, false) =>
                    match for_each (hybrid_relax variant use_forward_checking current_state)
                            (popped st frontier)
                            (hybrid_possible_actions W prioritize use_forward_checking
                               current_state) with
                    | Stop o => ReturnedInLoop o false
                    | Next st' =>
                        hybrid_loop variant prioritize use_forward_checking
                          use_random_restarts random_restart_threshold time_limit
                          fuel' iterations st' t'
                    end
                end
          end
  end.

(** [max(5, time_limit / 10)] *)
Definition fallback_budget (time_limit : Q) : Q :=
  if Qltb 5 (time_limit / 10)%Q then (time_limit / 10)%Q else 5%Q.

(** What a call of the hybrid search returns, and the calls of
    [local_search.solve] it made: the state and the time limit passed. *)
Record hybrid_report := {
  hy_outcome : outcome;
  hy_local_calls : list (State * Q)
}.

Definition hybrid_astar_search (initial_state : State) (max_iterations : Z)
    (time_limit : Q) (variant : string) (prioritize use_forward_checking
    use_random_restarts : bool) (random_restart_threshold : Z) : hybrid_report :=
  match hybrid_loop variant prioritize use_forward_checking use_random_restarts
          random_restart_threshold time_limit (Z.to_nat max_iterations) 0
          (initial_store initial_state) initial_tracking with
  | ReturnedInLoop o _ => {| hy_outcome := o; hy_local_calls := [] |}
  | LoopEnded =>
      if use_random_restarts then
        let budget := fallback_budget time_limit in
        {| hy_outcome :=
             match ls_plan (solve initial_state budget 5000) with
             | Some (a :: plan) => Found (a :: plan)
             | _ => NotFound
             end;
           hy_local_calls := [(initial_state, budget)] |}
      else {| hy_outcome := NotFound; hy_local_calls := [] |}
  end.

(** ** What the searches maintain *)

(** The start has cost 0 and no predecessor; every entry of [came_from] is
    a valid transition from a state of strictly lower recorded cost; every
    state with a cost is the start or has a predecessor; every state on the
    frontier has a cost. *)
Definition inv (init : State) (st : store) : Prop :=
  cost_so_far st !! init = Some 0 ∧
  came_from st !! init = None ∧
  (∀ s p a, came_from st !! s = Some (p, a) →
     get_next_state W p a = Some s ∧
     ∃ cs cp, cost_so_far st !! s = Some cs ∧ cost_so_far st !! p = Some cp ∧ cp < cs) ∧
  (∀ s, is_Some (cost_so_far st !! s) → s = init ∨ is_Some (came_from st !! s)) ∧
  (∀ e, e ∈ elements (open_set st) → is_Some (cost_so_far st !! item e)).

(** What both loop bodies keep: the invariant, and every recorded cost. *)
Definition keeps (init : State) (known : State → Prop) (st : store) : Prop :=
  inv init st ∧ ∀ s, known s → is_Some (cost_so_far st !! s).

(** The outcomes of a search that is sound: no plan, or a plan that replays
    from the start to a goal state. *)
Definition sound (init : State) (o : outcome) : Prop :=
  o = NotFound ∨
  ∃ plan g, o = Found plan ∧ replay init plan = Some g ∧ is_goal_state W g = true.

(** The ways out of the main loop that raise no KeyError. *)
Definition no_key_error (x : loop_exit) : Prop :=
  match x with
  | ReturnedInLoop o _ => o ≠ Crashed KeyError
  | LoopEnded => True
  end.

End Searches.

Arguments Next {Action S} s.
Arguments Stop {Action S} o.

(** ** A small world

    States are numbers, the action [true] moves from [s] to [s + 1] and the
    action [false] is invalid; the goal is any state from 2 on. *)

Definition demo_progress (s : nat) : progress :=
  {| flights_progress := Z.of_nat s; parts_progress := 0;
     flights_processed := Z.of_nat s; total_flights := 2;
     parts_produced := 0; total_parts := 0 |}.

Definition demo_world : @world nat bool :=
  {| get_next_state := λ (s : nat) (a : bool), if a then Some (S s) else None;
     state_lt := Nat.ltb;
     is_goal_state := λ s : nat, (2 <=? s)%nat;
     check_goal_progress := demo_progress;
     heuristic := λ (_ : string) (s : nat), Qnat (2 - s);
     get_all_possible_actions := λ _ _, [false; true];
     hybrid_possible_actions := λ _ _ _, [false; true];
     check_forward := λ _, Some (true, {[ "jig_a" := 2 ]}) |}.

(** A clock that always shows the same elapsed time. *)
Definition demo_oracle (clock : Q) : @oracle nat bool :=
  {| elapsed := λ _, clock;
     choice := λ n, n;
     ls_elapsed := λ _, clock;
     ls_random_actions := λ _ _, [true] |}.

Definition demo_tracking : @tracking nat :=
  {| best_flights := 5; best_parts := 0; stagnation_counter := 2; restart_states := [1] |}.

(** The tracking after state 1 was popped at a multiple of 100. *)
Definition demo_noted : @tracking nat :=
  note_progress demo_world true 1 demo_tracking.

End Search.

(** * beluga_heuristic.py: the standard heuristic *)

Module Heuristic.
Import Beluga.

(** [len(l)] as a Python integer. *)
Definition len {A : Type} (l : list A) : Z := Z.of_nat (length l).

(** [enumerate(l)] *)
Definition enumerate {A : Type} (l : list A) : list (nat * A) :=
  zip (seq 0 (length l)) l.

(** [loaded and part_id and part_id not in state.produced_parts] for the
    status of a jig. *)
Definition pending (st : BelugaState) (jig_id : string) : bool :=
  let '(loaded, part_id) := status_of st jig_id in
  loaded && bool_decide (part_id ≠ EmptyString)
  && bool_decide (part_id ∉ produced_parts st).

(** The loop that fills [parts_to_produce]. *)
Definition parts_to_produce (st : BelugaState) (schedule : list string) : list string :=
  foldl (λ parts jig_id,
           if pending st jig_id then parts ++ [(status_of st jig_id).2] else parts)
    [] schedule.

(** The loop that sums [len(flights[i].get('outgoing', []))] for [i] in
    [range(current_flight_idx, len(flights))]. *)
Definition total_outgoing_jigs (st : BelugaState) (fl : list flight) : Z :=
  foldl (λ total i,
           match fl !! i with
           | Some f => (total + len (outgoing f))%Z
           | None => total
           end)
    0%Z (seq (current_flight_idx st) (length fl - current_flight_idx st)).

(** The inner loop over [enumerate(jigs)] of one rack. *)
Definition blocked_in_rack (schedule : list string) (estimate : Z) (jigs : list string) : Z :=
  foldl (λ acc '(i, jig_id),
           if ((0 <? Z.of_nat i)%Z && (Z.of_nat i <? len jigs - 1)%Z
               && bool_decide (jig_id ∈ schedule))%bool
           then (acc + 2)%Z else acc)
    estimate (enumerate jigs).

Definition blocked_jigs_estimate (st : BelugaState) (schedule : list string) : Z :=
  foldl (λ acc rack, blocked_in_rack schedule acc rack.2) 0%Z (rack_jigs st).

(** [standard_heuristic(state, instance_data)] *)
Definition standard_heuristic (st : BelugaState) (inst : instance_data) : Z :=
  let cost := 0%Z in
  let fl := flights inst in
  let flights_remaining := Z.max 0 (len fl - Z.of_nat (current_flight_idx st) - 1) in
  let schedule := production_schedule inst in
  let cost :=
    match fl !! current_flight_idx st with
    | Some current_flight => (cost + len (incoming current_flight))%Z
    | None => cost
    end in
  let cost := (cost + len (parts_to_produce st schedule))%Z in
  let cost := (cost + total_outgoing_jigs st fl)%Z in
  let cost := (cost + flights_remaining)%Z in
  (cost + blocked_jigs_estimate st schedule)%Z.

(** ** The five counts, in the words of the specification *)

(** (a) as the specification words it: the incoming jigs of the current
    flight that are still in the aircraft. *)
Definition incoming_not_unloaded (st : BelugaState) (inst : instance_data) : nat :=
  match flights inst !! current_flight_idx st with
  | Some f => length (filter (λ j, j ∈ beluga_jigs st) (incoming f))
  | None => 0
  end.

(** (a) as the code has it: all incoming jigs listed for the current flight. *)
Definition incoming_listed (st : BelugaState) (inst : instance_data) : nat :=
  match flights inst !! current_flight_idx st with
  | Some f => length (incoming f)
  | None => 0
  end.

(** (b) the entries of the production schedule whose jig carries a part
    that is not produced yet. *)
Definition parts_pending (st : BelugaState) (inst : instance_data) : nat :=
  length (filter (λ j, pending st j = true) (production_schedule inst)).

(** (c) the outgoing jigs of the current flight and of all later ones. *)
Definition outgoing_required (st : BelugaState) (inst : instance_data) : nat :=
  sum_list_with (λ f, length (outgoing f)) (drop (current_flight_idx st) (flights inst)).

(** (d) the flights after the current one. *)
Definition flights_after_current (st : BelugaState) (inst : instance_data) : nat :=
  length (drop (S (current_flight_idx st)) (flights inst)).

(** (e) the jigs of a rack that are neither its first nor its last. *)
Definition interior {A : Type} (l : list A) : list A :=
  match l with
  | [] => []
  | _ :: m => removelast m
  end.

Definition interior_schedule_jigs (st : BelugaState) (inst : instance_data) : nat :=
  sum_list_with
    (λ rack, length (filter (λ j, j ∈ production_schedule inst) (interior rack.2)))
    (rack_jigs st).

(** The sum the specification states, and the sum the code computes. *)
Definition standard_as_specified (st : BelugaState) (inst : instance_data) : Z :=
  Z.of_nat (incoming_not_unloaded st inst + parts_pending st inst
            + outgoing_required st inst + flights_after_current st inst
            + 2 * interior_schedule_jigs st inst).

Definition standard_as_computed (st : BelugaState) (inst : instance_data) : Z :=
  Z.of_nat (incoming_listed st inst + parts_pending st inst
            + outgoing_required st inst + flights_after_current st inst
            + 2 * interior_schedule_jigs st inst).

(** ** A state whose incoming jigs have all left the aircraft *)

(** The three incoming jigs of the first flight stand in a rack, the middle
    one carrying a part that is scheduled for production; the second flight
    takes one jig out. *)
Definition unloaded_state : BelugaState :=
  {| rack_jigs := [("rack0", ["j1"; "j2"; "j3"])];
     jig_status := {[ "j2" := (true, "p2") ]};
     factory_jigs := ∅;
     beluga_jigs := ∅;
     current_flight_idx := 0;
     produced_parts := ∅ |}.

Definition two_flights : instance_data :=
  {| jigs := [("j1", "typeA"); ("j2", "typeA"); ("j3", "typeA")];
     racks := [("rack0", 30%Z)];
     flights := [ {| incoming := ["j1"; "j2"; "j3"]; outgoing := [] |};
                  {| incoming := []; outgoing := ["typeA"] |} ];
     production_lines := [["j2"]] |}.

End Heuristic.

(** * beluga_csp.py: what a run of the propagation leaves *)

Module CSP_Run.
Import CSP.
Section Notions.
Context {V : Type} `{EqDecision V}.

(** The domains [after] have the variables of [before], each with a
    sub-sequence of its values. *)
Definition shrinks (before after : gmap string (list V)) : Prop :=
  dom after = dom before ∧
  ∀ v d', after !! v = Some d' → ∃ d, before !! v = Some d ∧ d' `sublist_of` d.

(** A variable that no constraint mentions. *)
Definition unconstrained (cs : list (@constraint V)) (v : string) : Prop :=
  Forall (λ k, cvar1 k ≠ v ∧ cvar2 k ≠ v) cs.

(** Every value of the first variable of the arc has a support in the
    domain of the second, under the constraint the loop would pick. *)
Definition arc_supported (cs : list (@constraint V)) (doms : gmap string (list V))
    (arc : string * string) : Prop :=
  match find_constraint cs arc.1 arc.2, doms !! arc.1, doms !! arc.2 with
  | Some c, Some d1, Some d2 => unsupported c d2 d1 = []
  | _, _, _ => True
  end.

End Notions.

(** The chain instance once x has lost its unsupported value. *)
Definition settled_doms : gmap string (list nat) :=
  {[ "x" := [0]; "y" := [0]; "u" := [0] ]}.

End CSP_Run.

(** * The searches: what their loops maintain beyond the maps *)

Module Search_Run.
Import PQ Search.
Section Notions.
Context {State Action : Type} `{Countable State}.
Variable W : @world State Action.

(** No recorded cost exceeds [n]. *)
Definition costs_within (n : nat) (st : @store State Action _ _) : Prop :=
  ∀ s c, cost_so_far st !! s = Some c → c ≤ n.

(** The outcomes of the main loop of the hybrid search: a sound outcome, an
    arithmetic fault of the heuristic adjustment, or forward checking that
    does not end. *)
Definition hybrid_sound (init : State) (x : @loop_exit Action) : Prop :=
  match x with
  | ReturnedInLoop o _ =>
      sound W init o ∨ o = Crashed ZeroDivisionError ∨ o = Diverges
  | LoopEnded => True
  end.

(** Local Search: every queued path and the best path replay from the start
    to their state, and a best path that is not empty leads to a state that
    scores strictly higher than the start. *)
Definition ls_inv (init : State) (st : @ls_state State Action _ _) : Prop :=
  (∀ s path, (s, path) ∈ states_to_explore st → replay W init path = Some s) ∧
  replay W init (best_path st) = Some (best_state st) ∧
  best_score st = evaluate_state W (best_state st) ∧
  (best_path st ≠ [] → (evaluate_state W init < best_score st)%Q).

(** What a returned path of Local Search leads to. *)
Definition ls_reaches (init : State) (plan : list Action) : Prop :=
  ∃ s, replay W init plan = Some s ∧
       (is_goal_state W s = true ∨
        (plan ≠ [] ∧ (evaluate_state W init < evaluate_state W s)%Q)).

End Notions.

(** A world in which the score grows with the state and the goal is out of
    reach of a short search. *)
Definition climb_world : @world nat bool :=
  {| get_next_state := λ (s : nat) (a : bool), if a then Some (S s) else None;
     state_lt := Nat.ltb;
     is_goal_state := λ s : nat, (100 <=? s)%nat;
     check_goal_progress := demo_progress;
     heuristic := λ (_ : string) (s : nat), Qnat (100 - s);
     get_all_possible_actions := λ _ _, [false; true];
     hybrid_possible_actions := λ _ _ _, [false; true];
     check_forward := λ _, Some (true, {[ "jig_a" := 2 ]}) |}.

End Search_Run.

(** * beluga_heuristic.py: the other variants and the dispatcher *)

Module Heuristic_Variants.
Import Beluga Heuristic.

(** The loop that counts [blocked_jigs] in [weighted_heuristic]: one per
    position. *)
Definition blocked_count_in_rack (schedule : list string) (count : Z) (jigs : list string) : Z :=
  foldl (λ acc '(i, jig_id),
           if ((0 <? Z.of_nat i)%Z && (Z.of_nat i <? len jigs - 1)%Z
               && bool_decide (jig_id ∈ schedule))%bool
           then (acc + 1)%Z else acc)
    count (enumerate jigs).

Definition blocked_jigs (st : BelugaState) (schedule : list string) : Z :=
  foldl (λ acc rack, blocked_count_in_rack schedule acc rack.2) 0%Z (rack_jigs st).

(** [weighted_heuristic(state, instance_data)]; the weights are floats. *)
Definition weighted_heuristic (st : BelugaState) (inst : instance_data) : Q :=
  let fl := flights inst in
  let flights_remaining := Z.max 0 (len fl - Z.of_nat (current_flight_idx st) - 1) in
  let schedule := production_schedule inst in
  let parts := parts_to_produce st schedule in
  let total_outgoing := total_outgoing_jigs st fl in
  let blocked := blocked_jigs st schedule in
  (inject_Z (len parts) * 2 + inject_Z total_outgoing * 1
   + inject_Z flights_remaining * (1 # 2) + inject_Z blocked * 2)%Q.

(** [l.index(x)] when [x in l]. *)
Definition index_of (x : string) (l : list string) : option nat :=
  fst <$> list_find (λ y, y = x) l.

(** [state.rack_jigs.get(rack_id, ())] *)
Definition rack_get (st : BelugaState) (rack_id : string) : list string :=
  match list_find (λ r, r.1 = rack_id) (rack_jigs st) with
  | Some (_, r) => r.2
  | None => []
  end.

Section ProductionFocus.
(** [state.get_jig_location(jig_id)] of the class BelugaState: a rack id,
    "beluga", "factory" or None. *)
Variable get_jig_location : BelugaState → string → option string.

(** The cost of one unproduced part at position [idx] of its schedule. *)
Definition part_cost (st : BelugaState) (schedule : list string)
    (idx : nat) (jig_id : string) : Z :=
  let part_cost := 1%Z in
  let part_cost :=
    foldl (λ pc prev_jig_id, if pending st prev_jig_id then (pc + 3)%Z else pc)
      part_cost (take idx schedule) in
  match get_jig_location st jig_id with
  | None => part_cost
  | Some jig_location =>
      if decide (jig_location = "beluga" ∨ jig_location = "factory") then part_cost
      else
        let rack := rack_get st jig_location in
        match index_of jig_id rack with
        | Some jig_index =>
            let distance_from_edge :=
              Z.min (Z.of_nat jig_index) (len rack - 1 - Z.of_nat jig_index) in
            (part_cost + distance_from_edge * 2)%Z
        | None => part_cost
        end
  end.

(** The loop over one production line. *)
Definition line_cost (st : BelugaState) (cost : Z) (schedule : list string) : Z :=
  foldl (λ acc '(idx, jig_id),
           if pending st jig_id then (acc + part_cost st schedule idx jig_id)%Z else acc)
    cost (enumerate schedule).

(** [production_focus_heuristic(state, instance_data)] *)
Definition production_focus_heuristic (st : BelugaState) (inst : instance_data) : Z :=
  let fl := flights inst in
  let flights_remaining := Z.max 0 (len fl - Z.of_nat (current_flight_idx st) - 1) in
  let cost := foldl (line_cost st) 0%Z (production_lines inst) in
  let cost := (cost + flights_remaining)%Z in
  let cost :=
    match fl !! current_flight_idx st with
    | Some current_flight => (cost + len (incoming current_flight))%Z
    | None => cost
    end in
  (cost + total_outgoing_jigs st fl)%Z.

(** [heuristic(state, instance_data, variant)] *)
Definition heuristic (st : BelugaState) (inst : instance_data) (variant : string) : Q :=
  if decide (variant = "weighted") then weighted_heuristic st inst
  else if decide (variant = "production_focus")
       then inject_Z (production_focus_heuristic st inst)
       else inject_Z (standard_heuristic st inst).

End ProductionFocus.

(** Where the jigs of [unloaded_state] are: all in rack0. *)
Definition rack0_location (_ : BelugaState) (_ : string) : option string := Some "rack0".

End Heuristic_Variants.

(** * beluga_csp.py and beluga_forward_checking.py: the queries *)

Module CSP_Queries.
Import CSP.
Section Queries.
Context {V : Type} `{EqDecision V}.

(** Some value of [domain1] and some value of [domain2] satisfy the
    constraint, the value of [domain1] passed first. *)
Definition consistent_pair (c : V → V → bool) (domain1 domain2 : list V) : bool :=
  existsb (λ val1, existsb (c val1) domain2) domain1.

(** [arc_consistent]: the loops over [self.domains.items()] run over the
    items of the map; the function returns False at the first pair that
    fails and True when none does, so their order does not matter. *)
Definition arc_consistent (cs : list (@constraint V)) (doms : gmap string (list V)) : bool :=
  forallb
    (λ '(var1, domain1),
       forallb
         (λ '(var2, domain2),
            if decide (var1 = var2) then true
            else
              forallb
                (λ k, if relevant var1 var2 k
                      then consistent_pair (cfunc k) domain1 domain2
                      else true)
                cs)
         (map_to_list doms))
    (map_to_list doms).

(** The entry 'domain_sizes' of [get_domain_reduction_heuristics], the one
    the hybrid search reads. *)
Definition domain_sizes (doms : gmap string (list V)) : gmap string nat :=
  length <$> doms.

(** [BelugaForwardChecker.check_forward]: the result of [reduce_domains]
    and the domain sizes it leaves. *)
Definition check_forward (fuel : nat) (cs : list (@constraint V))
    (doms : gmap string (list V)) : option (result (bool * gmap string nat)) :=
  match reduce_domains fuel cs doms with
  | None => None
  | Some (Raise e) => Some (Raise e)
  | Some (Ok r) => Some (Ok (rep_result r, domain_sizes (rep_domains r)))
  end.

End Queries.

(** An order constraint on two variables with the same two values. *)
Definition order_cs : list (@constraint nat) := [("a", "b", Nat.ltb)].

Definition order_doms : gmap string (list nat) := {[ "a" := [0; 1]; "b" := [0; 1] ]}.

End CSP_Queries.

(** * get_all_possible_actions (beluga_astar.py, beluga_hybrid_solver.py) *)

Module Actions.
Import Beluga.

(** The actions that the generators construct (beluga_actions.py). *)
Inductive action :=
| MoveJigBetweenRacks (jig_id from_rack to_rack : string)
| SendJigToProduction (jig_id rack_id : string)
| ReturnEmptyJigFromFactory (jig_id rack_id : string)
| ProcessNextFlight.

(** [l.sort(key=...)]: Python's sort is stable; the sorted list is the one
    that insertion from the right builds. *)
Fixpoint insert_by {A : Type} (key : A → nat) (x : A) (l : list A) : list A :=
  match l with
  | [] => [x]
  | y :: l' => if decide (key x ≤ key y) then x :: l else y :: insert_by key x l'
  end.

Definition sort_by {A : Type} (key : A → nat) (l : list A) : list A :=
  foldr (insert_by key) [] l.

(** [[jigs[0], jigs[-1]] if len(jigs) > 0 else []] *)
Definition edge_jigs (jigs : list string) : list string :=
  match jigs, last jigs with
  | first_jig :: _, Some last_jig => [first_jig; last_jig]
  | _, _ => []
  end.

Section Generation.
(** [state.is_valid_action(action, instance_data)] of the class BelugaState. *)
Variable is_valid_action : BelugaState → action → bool.
Variable inst : instance_data.

(** [if state.is_valid_action(action, instance_data):
       all_actions.append((action, tag))] *)
Definition keep_valid (st : BelugaState) (a : action) (tag : string) : list (action * string) :=
  if is_valid_action st a then [(a, tag)] else [].

(** 1. MoveJigBetweenRacks, with the tag chosen by [tag_of_move]. *)
Definition move_candidates (tag_of_move : string → string → string) (st : BelugaState)
    : list (action * string) :=
  rack ← rack_jigs st;
  jig_id ← edge_jigs rack.2;
  if decide (jig_id ∈ rack.2) then
    to_rack_id ← (rack_jigs st).*1;
    if decide (rack.1 ≠ to_rack_id)
    then keep_valid st (MoveJigBetweenRacks jig_id rack.1 to_rack_id)
           (tag_of_move jig_id to_rack_id)
    else []
  else [].

(** 2. SendJigToProduction, from the first jig of every rack. *)
Definition produce_candidates (st : BelugaState) : list (action * string) :=
  rack ← rack_jigs st;
  match rack.2 with
  | [] => []
  | jig_id :: _ =>
      if (bool_decide (jig_id ∈ production_schedule inst) && (status_of st jig_id).1)%bool
      then keep_valid st (SendJigToProduction jig_id rack.1) "produce"
      else []
  end.

(** 3. ReturnEmptyJigFromFactory; a set is iterated in no specified order. *)
Definition return_candidates (tag_of_return : string → string) (st : BelugaState)
    : list (action * string) :=
  jig_id ← elements (factory_jigs st);
  if (status_of st jig_id).1 then []
  else
    rack_id ← (rack_jigs st).*1;
    keep_valid st (ReturnEmptyJigFromFactory jig_id rack_id) (tag_of_return rack_id).

(** 4. ProcessNextFlight, if not at the last flight. *)
Definition flight_candidates (st : BelugaState) : list (action * string) :=
  if (Z.of_nat (current_flight_idx st) <? Z.of_nat (length (flights inst)) - 1)%Z
  then keep_valid st ProcessNextFlight "flight"
  else [].

Definition all_actions (tag_of_move : string → string → string)
    (tag_of_return : string → string) (st : BelugaState) : list (action * string) :=
  move_candidates tag_of_move st ++ produce_candidates st
  ++ return_candidates tag_of_return st ++ flight_candidates st.

(** ** beluga_astar.py *)

(** [action_priority[tag]]; the four tags are the keys of the dictionary. *)
Definition action_priority (tag : string) : nat :=
  if decide (tag = "produce") then 0
  else if decide (tag = "return") then 1
  else if decide (tag = "flight") then 2
  else 3.

Definition get_all_possible_actions (st : BelugaState) (prioritize_goals : bool)
    : list action :=
  let all := all_actions (λ _ _, "move") (λ _, "return") st in
  if prioritize_goals
  then (sort_by (λ x, action_priority x.2) all).*1
  else all.*1.

(** ** beluga_hybrid_solver.py *)

(** The tags that the forward checker's findings give: [bottleneck_jigs]
    and [constrained_rack] are [[]] and None without a forward checker. *)
Definition hybrid_move_tag (bottleneck_jigs : list string) (constrained_rack : option string)
    (jig_id to_rack_id : string) : string :=
  let priority := if decide (jig_id ∈ bottleneck_jigs) then "urgent" else "move" in
  if decide (Some to_rack_id = constrained_rack) then "low" else priority.

Definition hybrid_return_tag (constrained_rack : option string) (rack_id : string) : string :=
  if decide (Some rack_id = constrained_rack) then "low" else "return".

Definition hybrid_action_priority (tag : string) : nat :=
  if decide (tag = "produce") then 0
  else if decide (tag = "urgent") then 1
  else if decide (tag = "flight") then 2
  else if decide (tag = "return") then 3
  else if decide (tag = "move") then 4
  else 5.

Definition hybrid_get_all_possible_actions (bottleneck_jigs : list string)
    (constrained_rack : option string) (st : BelugaState) (prioritize_goals : bool)
    : list action :=
  let all := all_actions (hybrid_move_tag bottleneck_jigs constrained_rack)
               (hybrid_return_tag constrained_rack) st in
  if prioritize_goals
  then (sort_by (λ x, hybrid_action_priority x.2) all).*1
  else all.*1.

(** ** What the generators offer *)

(** The shape of an action that a generator may offer in a state. *)
Definition offered (st : BelugaState) (a : action) : Prop :=
  match a with
  | MoveJigBetweenRacks jig_id from_rack to_rack =>
      from_rack ≠ to_rack ∧ to_rack ∈ (rack_jigs st).*1 ∧
      ∃ jigs, (from_rack, jigs) ∈ rack_jigs st ∧
              (head jigs = Some jig_id ∨ last jigs = Some jig_id)
  | SendJigToProduction jig_id rack_id =>
      jig_id ∈ production_schedule inst ∧ (status_of st jig_id).1 = true ∧
      ∃ jigs, (rack_id, jigs) ∈ rack_jigs st ∧ head jigs = Some jig_id
  | ReturnEmptyJigFromFactory jig_id rack_id =>
      jig_id ∈ factory_jigs st ∧ (status_of st jig_id).1 = false ∧
      rack_id ∈ (rack_jigs st).*1
  | ProcessNextFlight => S (current_flight_idx st) < length (flights inst)
  end.

(** The rank of an action in the order of the A* generator. *)
Definition astar_rank (a : action) : nat :=
  match a with
  | SendJigToProduction _ _ => 0
  | ReturnEmptyJigFromFactory _ _ => 1
  | ProcessNextFlight => 2
  | MoveJigBetweenRacks _ _ _ => 3
  end.

(** The rank of an action in the order of the hybrid generator. *)
Definition hybrid_rank (bottleneck_jigs : list string) (constrained_rack : option string)
    (a : action) : nat :=
  match a with
  | SendJigToProduction _ _ => 0
  | ProcessNextFlight => 2
  | ReturnEmptyJigFromFactory _ rack_id =>
      if decide (Some rack_id = constrained_rack) then 5 else 3
  | MoveJigBetweenRacks jig_id _ to_rack =>
      if decide (Some to_rack = constrained_rack) then 5
      else if decide (jig_id ∈ bottleneck_jigs) then 1 else 4
  end.

End Generation.

(** Two racks, a loaded schedule jig in front of the first, an empty jig in
    the factory, a second flight to come; every action is taken as valid. *)
Definition yard : BelugaState :=
  {| rack_jigs := [("r1", ["j1"; "j2"]); ("r2", [])];
     jig_status := {[ "j1" := (true, "p1") ]};
     factory_jigs := {[ "j9" ]};
     beluga_jigs := ∅;
     current_flight_idx := 0;
     produced_parts := ∅ |}.

Definition yard_instance : instance_data :=
  {| jigs := [("j1", "typeA"); ("j2", "typeA"); ("j9", "typeA")];
     racks := [("r1", 30%Z); ("r2", 30%Z)];
     flights := [ {| incoming := []; outgoing := [] |};
                  {| incoming := []; outgoing := [] |} ];
     production_lines := [["j1"]] |}.

Definition always_valid (_ : BelugaState) (_ : action) : bool := true.

End Actions.

(** * The constraints of BelugaCSP (beluga_csp.py) *)

Module CSP_Build.
Import Beluga CSP Heuristic_Variants.

(** [for i, var1 in enumerate(l): for var2 in l[i+1:]], and
    [for i, var1 in enumerate(l): for j, var2 in enumerate(l): if i < j]. *)
Fixpoint pairs {A : Type} (l : list A) : list (A * A) :=
  match l with
  | [] => []
  | x :: l' => (pair x <$> l') ++ pairs l'
  end.

(** [lambda v1, v2: v1 < v2], on the positions that the domains of the
    flight and production variables hold. *)
Definition lt_constraint (v1 v2 : value) : bool :=
  match v1, v2 with
  | VInt a, VInt b => (a <? b)%Z
  | _, _ => false
  end.

Section Build.
(** [instance_data['jig_types']]: a type with its 'size_empty' and
    'size_loaded'. *)
Variable jig_types : gmap string (Z * Z).
Variable st : BelugaState.
Variable inst : instance_data.

(** "Find rack size": the size of the first rack of that name, else 0. *)
Definition rack_size_of (rack_id : string) : Z :=
  match list_find (λ r, r.1 = rack_id) (racks inst) with
  | Some (_, r) => r.2
  | None => 0
  end.

(** The size of a jig as it stands: [instance_data['jigs'][jig_id]['type']],
    then the entry of the type in 'jig_types'. *)
Definition jig_size (jig_id : string) : result Z :=
  match list_find (λ j, j.1 = jig_id) (jigs inst) with
  | None => Raise KeyError
  | Some (_, j) =>
      match jig_types !! j.2 with
      | None => Raise KeyError
      | Some (size_empty, size_loaded) =>
          Ok (if (status_of st jig_id).1 then size_loaded else size_empty)
      end
  end.

(** [for jig_id in ...: current_occupancy += jig_size] *)
Fixpoint occupancy (js : list string) (current_occupancy : Z) : result Z :=
  match js with
  | [] => Ok current_occupancy
  | jig_id :: rest =>
      match jig_size jig_id with
      | Raise e => Raise e
      | Ok s => occupancy rest (current_occupancy + s)
      end
  end.

(** [_check_rack_capacity] *)
Definition check_rack_capacity (rack_id : string) (rack_size : Z) : result bool :=
  match occupancy (rack_get st rack_id) 0 with
  | Raise e => Raise e
  | Ok current_occupancy => Ok (current_occupancy <? rack_size)%Z
  end.

(** [lambda v1, v2, r=rack_id, rs=rack_size:
       not (v1 == r and v2 == r) or self._check_rack_capacity(r, rs)].
    The check raises KeyError when a jig of the rack has no size; the
    function below then answers False, and the properties of these
    constraints are stated for instances where every jig in a rack has one. *)
Definition capacity_constraint (rack_id : string) (rack_size : Z) (v1 v2 : value) : bool :=
  negb (bool_decide (v1 = VStr rack_id) && bool_decide (v2 = VStr rack_id))
  || match check_rack_capacity rack_id rack_size with
     | Ok b => b
     | Raise _ => false
     end.

Definition sizes_known : Prop :=
  ∀ rack jig_id, rack ∈ rack_jigs st → jig_id ∈ rack.2 → ∃ s, jig_size jig_id = Ok s.

Definition jig_vars : list string := jig_var <$> (jigs inst).*1.

Definition flight_vars : list string :=
  flight_var <$> range (current_flight_idx st) (length (flights inst)).

(** 1. Rack capacity constraints. *)
Definition capacity_constraints : list (@constraint value) :=
  rack ← rack_jigs st;
  (λ p, (p.1, p.2, capacity_constraint rack.1 (rack_size_of rack.1))) <$> pairs jig_vars.

(** 2. Flight precedence constraints. *)
Definition flight_constraints : list (@constraint value) :=
  (λ p, (p.1, p.2, lt_constraint)) <$> pairs flight_vars.

(** 3. Production precedence constraints: [schedule[i]] and
    [schedule[i+1]] of every line, when both variables have a domain. *)
Definition production_constraints : list (@constraint value) :=
  line ← production_lines inst;
  p ← zip line (tail line);
  if decide (prod_var p.1 ∈ dom (extract_domains st inst)
             ∧ prod_var p.2 ∈ dom (extract_domains st inst))
  then [(prod_var p.1, prod_var p.2, lt_constraint)]
  else [].

(** [_extract_constraints] *)
Definition extract_constraints : list (@constraint value) :=
  capacity_constraints ++ flight_constraints ++ production_constraints.

(** The position of the first [x] in [l], or the length of [l]. *)
Fixpoint position (x : string) (l : list string) : nat :=
  match l with
  | [] => 0
  | y :: l' => if decide (x = y) then 0 else S (position x l')
  end.

(** A ranking of the variables: the position among the variables of its
    kind, the kinds being told apart by the prefix of the name. *)
Definition var_rank (v : string) : nat :=
  position v jig_vars + position v flight_vars
  + position v (prod_var <$> production_schedule inst).

End Build.

(** Sizes for the jigs of the yard. *)
Definition yard_types : gmap string (Z * Z) := {[ "typeA" := (4%Z, 10%Z) ]}.

End CSP_Build.

(** * BelugaForwardChecker (beluga_forward_checking.py) *)

Module Forward_Checker.
Import Beluga CSP_Build Heuristic_Variants.

(** [min(items, key=lambda x: x[1])]: the first item of least value. *)
Definition min_by_snd (l : list (string * Z)) : option (string * Z) :=
  match l with
  | [] => None
  | x :: l' => Some (foldl (λ best y, if (y.2 <? best.2)%Z then y else best) x l')
  end.

Section Checker.
Variable get_jig_location : BelugaState → string → option string.
Variable jig_types : gmap string (Z * Z).
Variable st : BelugaState.
Variable inst : instance_data.

(** The loop of [get_most_constrained_rack]: the available space of every
    rack, in the order of [state.rack_jigs]. *)
Fixpoint rack_constraints (rs : list (string * list string)) : result (list (string * Z)) :=
  match rs with
  | [] => Ok []
  | rack :: rest =>
      match occupancy jig_types st inst rack.2 0 with
      | Raise e => Raise e
      | Ok current_occupancy =>
          match rack_constraints rest with
          | Raise e => Raise e
          | Ok l => Ok ((rack.1, rack_size_of inst rack.1 - current_occupancy)%Z :: l)
          end
      end
  end.

Definition get_most_constrained_rack : result (option string) :=
  match rack_jigs st with
  | [] => Ok None
  | _ :: _ =>
      match rack_constraints (rack_jigs st) with
      | Raise e => Raise e
      | Ok l => Ok (fst <$> min_by_snd l)
      end
  end.

(** [get_production_bottlenecks]: the scheduled jigs, not yet produced,
    that stand strictly inside the rack at their location. *)
Definition get_production_bottlenecks : list string :=
  jig_id ← production_schedule inst;
  if decide (jig_id ∈ produced_parts st) then []
  else
    match get_jig_location st jig_id with
    | None => []
    | Some location =>
        if decide (location ≠ "beluga" ∧ location ≠ "factory"
                   ∧ location ∈ (rack_jigs st).*1)
        then
          let rack := rack_get st location in
          match index_of jig_id rack with
          | None => []
          | Some jig_index =>
              if decide (0 < jig_index ∧ (Z.of_nat jig_index < Z.of_nat (length rack) - 1)%Z)
              then [jig_id]
              else []
          end
        else []
    end.

End Checker.

(** A rack of three jigs with a scheduled jig in the middle. *)
Definition depot : BelugaState :=
  {| rack_jigs := [("r1", ["j1"; "j2"; "j3"]); ("r2", ["j4"])];
     jig_status := {[ "j2" := (true, "p2") ]};
     factory_jigs := ∅;
     beluga_jigs := ∅;
     current_flight_idx := 0;
     produced_parts := ∅ |}.

Definition depot_instance : instance_data :=
  {| jigs := [("j1", "typeA"); ("j2", "typeA"); ("j3", "typeA"); ("j4", "typeA")];
     racks := [("r1", 30%Z); ("r2", 12%Z)];
     flights := [ {| incoming := []; outgoing := [] |} ];
     production_lines := [["j2"; "j4"]] |}.

(** Every jig of the depot stands in the rack that holds it. *)
Definition depot_location (st : BelugaState) (jig_id : string) : option string :=
  fst <$> find (λ r, bool_decide (jig_id ∈ r.2)) (rack_jigs st).

End Forward_Checker.

(** * BelugaLocalSearch._get_random_actions (beluga_local_search.py) *)

Module Random_Actions.
Import Beluga Actions.

#[global] Instance action_eq_dec : EqDecision action.
Proof. solve_decision. Defined.

(** [isinstance(a, ...)] for the four classes of actions. *)
Definition is_move (a : action) : bool :=
  match a with MoveJigBetweenRacks _ _ _ => true | _ => false end.

Definition is_produce (a : action) : bool :=
  match a with SendJigToProduction _ _ => true | _ => false end.

Definition is_return (a : action) : bool :=
  match a with ReturnEmptyJigFromFactory _ _ => true | _ => false end.

Definition is_flight (a : action) : bool :=
  match a with ProcessNextFlight => true | _ => false end.

(** The keys of [actions_by_type], in the order of the dictionary. *)
Definition action_types : list (action → bool) :=
  [is_move; is_produce; is_return; is_flight].

Section Sampling.
Variable is_valid_action : BelugaState → action → bool.
Variable inst : instance_data.

(** [a in selected_actions]: Python's membership test compares by
    identity, then by the [==] of the action classes (beluga_actions.py).
    An entry of the list of all actions is known here by its position and
    its value, and the test is left open. *)
Variable held : list (nat * action) → nat * action → bool.

(** [random.choice]: the index drawn for each type of action;
    [random.sample(population, k)]: the first [k] of a drawn order. *)
Variable choice : nat → nat.
Variable shuffle : list (nat * action) → list (nat * action).

(** [if actions_by_type[t]: selected_actions.append(random.choice(...))] *)
Definition choose (t : nat) (l : list (nat * action)) : list (nat * action) :=
  match l with
  | [] => []
  | _ :: _ => option_list (l !! (choice t `mod` length l))
  end.

(** The list [all_actions] is built by the loops of the A* generator,
    without the priority tags. *)
Definition get_random_actions (st : BelugaState) (num_actions : Z) : list action :=
  let all_actions := imap pair (get_all_possible_actions is_valid_action inst st false) in
  let selected_actions :=
    choose 0 (filter (λ e, is_move e.2 = true) all_actions)
    ++ choose 1 (filter (λ e, is_produce e.2 = true) all_actions)
    ++ choose 2 (filter (λ e, is_return e.2 = true) all_actions)
    ++ choose 3 (filter (λ e, is_flight e.2 = true) all_actions) in
  let remaining_actions := filter (λ e, held selected_actions e = false) all_actions in
  let remaining_slots := (num_actions - Z.of_nat (length selected_actions))%Z in
  if decide (remaining_actions ≠ [] ∧ (0 < remaining_slots)%Z)
  then (selected_actions
        ++ take (Z.to_nat (Z.min remaining_slots (Z.of_nat (length remaining_actions))))
             (shuffle remaining_actions)).*2
  else selected_actions.*2.

End Sampling.

(** Draws for the examples: always the first entry, the given order, and
    membership by value. *)
Definition first_choice (_ : nat) : nat := 0.

Definition given_order (l : list (nat * action)) : list (nat * action) := l.

Definition held_by_value (selected : list (nat * action)) (e : nat * action) : bool :=
  bool_decide (e.2 ∈ selected.*2).

End Random_Actions.

(** * The calls of a search on its queue *)

Module PQ_Ops.
Import PQ.
Section Ops.
Context {A : Type}.

(** A call of [put(item, priority)] or of [get()]. *)
Inductive op :=
| Put (x : A) (p : Q)
| Get.

Variable item_lt : A → A → bool.

(** The calls made in order on a queue: the items that the calls of [get]
    return and the queue afterwards; the first [get] that raises ends the
    run. *)
Fixpoint run (ops : list op) (q : @PriorityQueue A)
    : result (list A * @PriorityQueue A) :=
  match ops with
  | [] => Ok ([], q)
  | Put x p :: ops' => run ops' (put x p q)
  | Get :: ops' =>
      match get item_lt q with
      | Raise e => Raise e
      | Ok (x, q') =>
          match run ops' q' with
          | Raise e => Raise e
          | Ok (xs, q'') => Ok (x :: xs, q'')
          end
      end
  end.

(** What waits in a queue: the priority and the item of every entry, in
    the order of [elements]. *)
Definition waiting (q : @PriorityQueue A) : list (Q * A) :=
  (λ e, (priority e, item e)) <$> elements q.

(** ** The order of service as it is specified

    The items wait in the order in which they were put, each with the
    priority passed to [put]. A [get] serves an item of least priority,
    and of those with this priority the one put first: every item put
    before it has a strictly higher priority, no item put after it has a
    lower one. *)
Definition oldest_least (w : list (Q * A)) (p : Q) (x : A) (rest : list (Q * A)) : Prop :=
  ∃ l1 l2, w = l1 ++ (p, x) :: l2 ∧ rest = l1 ++ l2 ∧
           Forall (λ e, (p < e.1)%Q) l1 ∧ Forall (λ e, (p <= e.1)%Q) l2.

(** [serves ops w xs w']: from the items [w] waiting, the calls [ops]
    return the items [xs] and leave [w'] waiting. *)
Inductive serves : list op → list (Q * A) → list A → list (Q * A) → Prop :=
| serves_nil w : serves [] w [] w
| serves_put x p ops w xs w' :
    serves ops (w ++ [(p, x)]) xs w' → serves (Put x p :: ops) w xs w'
| serves_get ops w p x rest xs w' :
    oldest_least w p x rest → serves ops rest xs w' → serves (Get :: ops) w (x :: xs) w'.

(** Some [get] among the calls finds nothing waiting, [n] items waiting at
    the start. *)
Fixpoint underflows (ops : list op) (n : nat) : bool :=
  match ops with
  | [] => false
  | Put _ _ :: ops' => underflows ops' (S n)
  | Get :: ops' =>
      match n with
      | 0 => true
      | S n' => underflows ops' n'
      end
  end.

End Ops.

(** The same item put twice, at priorities 1 and 3, around an item at
    priority 2. *)
Definition twice_put : list (@op nat) := [Put 5 1%Q; Put 6 2%Q; Put 5 3%Q].

(** Two items put at priority 1 after an item at priority 2, then three
    calls of [get]. *)
Definition tie_calls : list (@op nat) :=
  [Put 9 2%Q; Put 7 1%Q; Put 8 1%Q; Get; Get; Get].

End PQ_Ops.

(** * The main loop of hybrid_astar_search, turn by turn *)

Module Hybrid_Run.
Import PQ Search.
Section Run.
Context {State Action : Type} `{Countable State}.
Variable W : @world State Action.
Variable O : @oracle State Action.
Variable variant : string.
Variables prioritize use_forward_checking use_random_restarts : bool.
Variable random_restart_threshold : Z.
Variable time_limit : Q.

(** The variables of the loop between two turns: [iterations], the three
    maps, and the tracking of progress. *)
Record config := {
  cf_iterations : nat;
  cf_store : @store State Action _ _;
  cf_tracking : @tracking State
}.

(** A turn leaves the loop or goes on with new values. *)
Inductive turn :=
| Leaves (x : @loop_exit Action)
| Goes (c : config).

(** One turn of [while not open_set.is_empty() and iterations <
    max_iterations], the test of the cap apart: the body of the loop as it
    stands in [hybrid_loop]. *)
Definition hybrid_turn (c : config) : turn :=
  let st := cf_store c in
  if is_empty (open_set st) then Leaves LoopEnded
  else
    let iterations := S (cf_iterations c) in
    if timed_out O time_limit iterations then Leaves (ReturnedInLoop NotFound true)
    else
      match get (state_lt W) (open_set st) with
      | Raise e => Leaves (ReturnedInLoop (Crashed e) false)
      | Ok (current_state, open') =>
          if is_goal_state W current_state
          then Leaves (ReturnedInLoop (plan_outcome (came_from st) current_state) false)
          else
            match stagnation_block W O use_random_restarts random_restart_threshold
                    iterations current_state (cf_tracking c) open' with
            | (t', frontier, true) =>
                Goes {| cf_iterations := iterations;
                        cf_store := popped st frontier;
                        cf_tracking := t' |}
            | (t', frontier, false) =>
                match for_each (hybrid_relax W variant use_forward_checking current_state)
                        (popped st frontier)
                        (hybrid_possible_actions W prioritize use_forward_checking
                           current_state) with
                | Stop o => Leaves (ReturnedInLoop o false)
                | Next st' =>
                    Goes {| cf_iterations := iterations;
                            cf_store := st';
                            cf_tracking := t' |}
                end
            end
      end.

(** The values after [n] turns, when no turn has left the loop. *)
Fixpoint hybrid_config_after (n : nat) (c : config) : option config :=
  match n with
  | 0 => Some c
  | S n' =>
      match hybrid_turn c with
      | Leaves _ => None
      | Goes c' => hybrid_config_after n' c'
      end
  end.

(** [random.choice(seq)] is [seq[i]] for an index [i] drawn uniformly below
    [len(seq)]: the chance that it returns [s] is the share of the indices
    at which [s] stands. *)
Definition chance_of_choice (l : list State) (s : State) : Q :=
  (inject_Z (Z.of_nat (length (filter (λ i, l !! i = Some s) (seq 0 (length l)))))
   / inject_Z (Z.of_nat (length l)))%Q.

(** The values with which the search enters its loop. *)
Definition initial_config (initial_state : State) : config :=
  {| cf_iterations := 0;
     cf_store := initial_store initial_state;
     cf_tracking := initial_tracking |}.

End Run.

(** ** A line of states with a plateau

    States are numbers and the one valid action leads from [s] to [s + 1];
    no state is a goal; the progress in flights grows with the state up to
    150 and stays there. *)
Definition plateau_progress (s : nat) : progress :=
  {| flights_progress := Z.of_nat (s `min` 150); parts_progress := 0;
     flights_processed := Z.of_nat (s `min` 150); total_flights := 150;
     parts_produced := 0; total_parts := 0 |}.

Definition plateau_world : @world nat bool :=
  {| get_next_state := λ (s : nat) (a : bool), if a then Some (S s) else None;
     state_lt := Nat.ltb;
     is_goal_state := λ _ : nat, false;
     check_goal_progress := plateau_progress;
     heuristic := λ (_ : string) (_ : nat), 0%Q;
     get_all_possible_actions := λ _ _, [false; true];
     hybrid_possible_actions := λ _ _ _, [false; true];
     check_forward := λ _, Some (true, ∅) |}.

(** A clock that shows one second more at every check, and draws that
    follow the iteration. *)
Definition ticking_oracle : @oracle nat bool :=
  {| elapsed := λ n, Qnat n;
     choice := λ n, S n;
     ls_elapsed := λ n, Qnat n;
     ls_random_actions := λ _ _, [true] |}.

(** The plateau search, with restarts and a threshold of 100, before and
    after its 300th turn. *)
Definition plateau_before : @config nat bool _ _ :=
  default (initial_config 0)
    (hybrid_config_after plateau_world ticking_oracle "standard" false false true 100 1000
       299 (initial_config 0)).

Definition plateau_after : @config nat bool _ _ :=
  default (initial_config 0)
    (hybrid_config_after plateau_world ticking_oracle "standard" false false true 100 1000
       300 (initial_config 0)).

(** The search of the small world after its first turn. *)
Definition demo_first : @config nat bool _ _ :=
  default (initial_config 0)
    (hybrid_config_after demo_world ticking_oracle "standard" false false true 3000 (3 # 2)
       1 (initial_config 0)).

End Hybrid_Run.

(** * Properties *)

(** ** Domain reduction (beluga_csp.py) *)

Module CSP_Theory.
Import CSP.

Section Revision.
Context {V : Type} `{EqDecision V}.
Implicit Types (doms : gmap string (list V)) (c : V → V → bool).
Implicit Types (cs : list (@constraint V)) (arcs : list (string * string)).

Lemma list_remove_middle (x : V) (pre post : list V) :
  x ∉ pre → list_remove x (pre ++ x :: post) = Some (pre ++ post).
Proof.
  induction pre as [|y pre IH]; simpl; intros Hx.
  - by rewrite decide_True.
  - rewrite decide_False by set_solver.
    rewrite IH by set_solver. done.
Qed.

(** Removing, one by one, the values that fail [P] leaves those that pass
    it, in their order: no [remove] raises. *)
Lemma remove_all_filter (P : V → Prop) `{∀ v, Decision (P v)} (pre l : list V) :
  Forall (λ v, ¬ P v) pre →
  remove_all (filter P l) (pre ++ l) = Some (pre ++ filter (λ v, ¬ P v) l).
Proof.
  revert pre. induction l as [|y l IH]; intros pre Hpre; simpl.
  - done.
  - rewrite !filter_cons. destruct (decide (P y)) as [Hy|Hy].
    + rewrite decide_False by tauto. simpl.
      rewrite list_remove_middle.
      * by apply IH.
      * intros Hin. rewrite Forall_forall in Hpre. by apply (Hpre y).
    + rewrite decide_True by done.
      replace (pre ++ y :: l) with ((pre ++ [y]) ++ l) by (by rewrite <- app_assoc).
      rewrite IH.
      * by rewrite <- app_assoc.
      * apply Forall_app; split; [done | by constructor].
Qed.

Lemma remove_unsupported c (d2 d1 : list V) :
  remove_all (unsupported c d2 d1) d1 = Some (supported_values c d2 d1).
Proof.
  unfold unsupported, supported_values.
  apply (remove_all_filter (λ v, satisfies c d2 v = false) [] d1). constructor.
Qed.

Lemma length_unsupported c (d2 d1 : list V) :
  length (unsupported c d2 d1) + length (supported_values c d2 d1) = length d1.
Proof.
  unfold unsupported, supported_values.
  induction d1 as [|y d1 IH]; [done|].
  rewrite !filter_cons. destruct (decide (satisfies c d2 y = false)).
  - rewrite decide_False by tauto. simpl. lia.
  - rewrite decide_True by done. simpl. lia.
Qed.

(** What [_revise_domain] computes when both variables have a domain. *)
Lemma revise_domain_eq doms var1 var2 c d1 d2 :
  doms !! var1 = Some d1 → doms !! var2 = Some d2 →
  revise_domain doms var1 var2 c =
    Ok (bool_decide (unsupported c d2 d1 ≠ []),
        if decide (length (unsupported c d2 d1) < length d1)
        then <[var1 := supported_values c d2 d1]> doms else doms).
Proof.
  intros H1 H2. unfold revise_domain. rewrite H1, H2.
  destruct (decide _); [|done]. by rewrite remove_unsupported.
Qed.

Lemma revise_domain_lookup doms var1 var2 c d1 d2 :
  doms !! var1 = Some d1 → doms !! var2 = Some d2 →
  ∃ revised doms',
    revise_domain doms var1 var2 c = Ok (revised, doms') ∧
    doms' = <[var1 := revised_domain c d2 d1]> doms ∧
    (revised = true → d1 ≠ []).
Proof.
  intros H1 H2. rewrite (revise_domain_eq _ _ _ _ d1 d2) by done.
  eexists _, _. split; [done|]. split.
  - unfold revised_domain. destruct (decide _); [done|]. by rewrite insert_id.
  - intros Hrev%bool_decide_eq_true Hnil. subst d1. by apply Hrev.
Qed.

Lemma revised_domain_nonempty c (d2 d1 : list V) :
  d1 ≠ [] → revised_domain c d2 d1 ≠ [].
Proof.
  unfold revised_domain. intros Hne. destruct (decide _) as [Hlt|]; [|done].
  pose proof (length_unsupported c d2 d1) as Hlen.
  intros Hnil. rewrite Hnil in Hlen. simpl in Hlen. lia.
Qed.

Lemma revised_domain_keeps c (d2 d1 : list V) v :
  v ∈ d1 → v ∉ revised_domain c d2 d1 → satisfies c d2 v = false.
Proof.
  unfold revised_domain. intros Hin Hout. destruct (decide _); [|done].
  unfold supported_values in Hout. rewrite list_elem_of_filter in Hout.
  destruct (satisfies c d2 v) eqn:E; [|done]. exfalso. apply Hout. split; [congruence|done].
Qed.

Lemma revised_domain_sub c (d2 d1 : list V) v :
  v ∈ revised_domain c d2 d1 → v ∈ d1.
Proof.
  unfold revised_domain. destruct (decide _); [|done].
  unfold supported_values. rewrite list_elem_of_filter. tauto.
Qed.

Lemma revised_domain_refuses c (d2 d1 : list V) :
  Forall (λ v, satisfies c d2 v = false) d1 → revised_domain c d2 d1 = d1.
Proof.
  intros Hall. unfold revised_domain. destruct (decide _) as [Hlt|]; [|done].
  exfalso. unfold unsupported in Hlt.
  assert (filter (λ v, satisfies c d2 v = false) d1 = d1) as Heq.
  { clear Hlt. induction Hall as [|y l Hy Hl IH]; [done|].
    rewrite filter_cons, decide_True by done. by rewrite IH. }
  rewrite Heq in Hlt. lia.
Qed.

(** ** One turn of the loop *)

(** A turn never raises and never reports an inconsistency. *)
Lemma reduce_step_cases cs arcs doms :
  (arcs = [] ∧ reduce_step cs arcs doms = Return true doms) ∨
  (∃ var1 var2 arcs', arcs = (var1, var2) :: arcs' ∧
     ((reduce_step cs arcs doms = Continue arcs' doms) ∨
      (∃ c d1 d2, doms !! var1 = Some d1 ∧ doms !! var2 = Some d2 ∧
         find_constraint cs var1 var2 = Some c ∧
         let doms' := <[var1 := revised_domain c d2 d1]> doms in
         (reduce_step cs arcs doms = Continue arcs' doms' ∨
          reduce_step cs arcs doms = Continue (arcs' ++ affected_arcs cs var1 var2) doms')))).
Proof.
  destruct arcs as [|[var1 var2] arcs']; [by left|right].
  exists var1, var2, arcs'. split; [done|]. simpl.
  destruct (decide _) as [Hout|Hin]; [by left|].
  destruct (find_constraint cs var1 var2) as [c|] eqn:Hc; [|by left].
  right.
  assert (is_Some (doms !! var1)) as [d1 H1].
  { apply elem_of_dom. destruct (decide (var1 ∈ dom doms)); [done|]. exfalso; apply Hin; by left. }
  assert (is_Some (doms !! var2)) as [d2 H2].
  { apply elem_of_dom. destruct (decide (var2 ∈ dom doms)); [done|]. exfalso; apply Hin; by right. }
  exists c, d1, d2. do 3 (split; [done|]).
  destruct (revise_domain_lookup doms var1 var2 c d1 d2 H1 H2) as (rev & doms' & -> & -> & Hne).
  destruct rev; [|by left].
  rewrite lookup_insert_eq.
  pose proof (revised_domain_nonempty c d2 d1 (Hne eq_refl)) as Hne'.
  destruct (revised_domain c d2 d1); [done|]. by right.
Qed.

Lemma reduce_step_nonempty cs arcs doms arcs' doms' :
  all_nonempty doms → reduce_step cs arcs doms = Continue arcs' doms' →
  all_nonempty doms'.
Proof.
  intros Hne Hstep.
  destruct (reduce_step_cases cs arcs doms) as [[_ E]|(v1 & v2 & a & -> & [E|(c & d1 & d2 & H1 & H2 & _ & E)])].
  - congruence.
  - rewrite E in Hstep. by injection Hstep as <- <-.
  - assert (all_nonempty (<[v1 := revised_domain c d2 d1]> doms)) as Hne'.
    { apply map_Forall_insert_2; [|done].
      apply revised_domain_nonempty. by apply (Hne v1). }
    destruct E as [E|E]; rewrite E in Hstep; by injection Hstep as <- <-.
Qed.

Lemma reduce_step_return cs arcs doms b doms' :
  reduce_step cs arcs doms = Return b doms' → b = true ∧ doms' = doms ∧ arcs = [].
Proof.
  intros Hstep.
  destruct (reduce_step_cases cs arcs doms) as [[-> E]|(v1 & v2 & a & -> & [E|(c & d1 & d2 & _ & _ & _ & [E|E])])];
    rewrite E in Hstep; try discriminate.
  by injection Hstep as <- <-.
Qed.

Lemma reduce_step_no_fault cs arcs doms e :
  reduce_step cs arcs doms ≠ Fault e.
Proof.
  intros Hstep.
  destruct (reduce_step_cases cs arcs doms) as [[-> E]|(v1 & v2 & a & -> & [E|(c & d1 & d2 & _ & _ & _ & [E|E])])];
    rewrite E in Hstep; discriminate.
Qed.

Lemma reduce_loop_S fuel cs arcs doms pops :
  reduce_loop (S fuel) cs arcs doms pops =
    match reduce_step cs arcs doms with
    | Return b doms' => Some (Ok (Report b doms' pops))
    | Fault e => Some (Raise e)
    | Continue arcs' doms' => reduce_loop fuel cs arcs' doms' (S pops)
    end.
Proof. reflexivity. Qed.

(** ** Termination along a ranking *)

Lemma length_initial_arcs cs : length (initial_arcs cs) = 2 * length cs.
Proof. unfold initial_arcs. induction cs as [|c cs IH]; simpl; lia. Qed.

Lemma arcs_weight_app b rk arcs1 arcs2 :
  arcs_weight b rk (arcs1 ++ arcs2) = arcs_weight b rk arcs1 + arcs_weight b rk arcs2.
Proof. unfold arcs_weight. by rewrite sum_list_with_app. Qed.

Lemma pow_succ_le (b k r : nat) : 0 < b → k < r → b ^ k * b ≤ b ^ r.
Proof.
  intros Hb Hk. replace (b ^ k * b) with (b ^ S k) by (simpl; lia).
  apply Nat.pow_le_mono_r; lia.
Qed.

Lemma weight_below b rk r (l : list (@constraint V)) (x : string) :
  0 < b → Forall (λ k, rk (cvar1 k) < r) l →
  arcs_weight b rk ((λ k, (cvar1 k, x)) <$> l) * b ≤ length l * b ^ r.
Proof.
  intros Hb Hl. unfold arcs_weight.
  induction Hl as [|k l Hk Hl IH]; simpl; [lia|].
  pose proof (pow_succ_le b (rk (cvar1 k)) r Hb Hk).
  unfold fmap in *; simpl in *. lia.
Qed.

Lemma affected_arcs_weight rk cs var1 var2 :
  ranked rk cs →
  arcs_weight (S (length cs)) rk (affected_arcs cs var1 var2) < S (length cs) ^ rk var1.
Proof.
  intros Hrk. unfold affected_arcs.
  set (l := filter _ cs).
  assert (Forall (λ k, rk (cvar1 k) < rk var1) l) as Hl.
  { apply Forall_forall. intros k [[Hc _] Hin]%list_elem_of_filter.
    unfold ranked in Hrk. rewrite Forall_forall in Hrk.
    specialize (Hrk k Hin). by rewrite Hc in Hrk. }
  pose proof (weight_below (S (length cs)) rk (rk var1) l var1 ltac:(lia) Hl) as Hw.
  assert (length l ≤ length cs) as Hlen by apply length_filter.
  assert (0 < S (length cs) ^ rk var1) as Hpos.
  { apply Nat.neq_0_lt_0, Nat.pow_nonzero. lia. }
  nia.
Qed.

Lemma reduce_step_weight rk cs arcs doms arcs' doms' :
  ranked rk cs → reduce_step cs arcs doms = Continue arcs' doms' →
  arcs_weight (S (length cs)) rk arcs' < arcs_weight (S (length cs)) rk arcs.
Proof.
  intros Hrk Hstep.
  destruct (reduce_step_cases cs arcs doms)
    as [[_ E]|(v1 & v2 & a & -> & [E|(c & d1 & d2 & _ & _ & _ & [E|E])])];
    rewrite E in Hstep; try discriminate; injection Hstep as <- <-.
  all: assert (0 < S (length cs) ^ rk v1) as Hpos
    by (apply Nat.neq_0_lt_0, Nat.pow_nonzero; lia).
  all: change (arcs_weight _ rk ((v1, v2) :: a))
    with (S (length cs) ^ rk v1 + arcs_weight (S (length cs)) rk a).
  1, 2: lia.
  rewrite arcs_weight_app.
  pose proof (affected_arcs_weight rk cs v1 v2 Hrk). lia.
Qed.

Lemma reduce_loop_terminates rk cs fuel arcs doms pops :
  ranked rk cs → arcs_weight (S (length cs)) rk arcs < fuel →
  ∃ d n, reduce_loop fuel cs arcs doms pops = Some (Ok (Report true d n)) ∧
         n ≤ pops + arcs_weight (S (length cs)) rk arcs.
Proof.
  intros Hrk. revert arcs doms pops.
  induction fuel as [|fuel IH]; intros arcs doms pops Hw; [lia|].
  simpl. destruct (reduce_step cs arcs doms) as [arcs' doms'|b doms'|e] eqn:Hstep.
  - pose proof (reduce_step_weight rk cs arcs doms arcs' doms' Hrk Hstep) as Hlt.
    destruct (IH arcs' doms' (S pops) ltac:(lia)) as (d & n & -> & Hn).
    exists d, n. split; [done|lia].
  - apply reduce_step_return in Hstep as (-> & -> & ->).
    exists doms, pops. split; [done|lia].
  - by apply reduce_step_no_fault in Hstep.
Qed.

(** ** Domains stay non-empty *)

Lemma domains_after_nonempty cs n arcs doms :
  all_nonempty doms →
  ∃ d, domains_after n cs arcs doms = Some d ∧ all_nonempty d.
Proof.
  revert arcs doms. induction n as [|n IH]; intros arcs doms Hne; simpl.
  - by exists doms.
  - destruct (reduce_step cs arcs doms) as [arcs' doms'|b doms'|e] eqn:Hstep.
    + apply IH. by eapply reduce_step_nonempty.
    + apply reduce_step_return in Hstep as (-> & -> & ->). by exists doms.
    + by apply reduce_step_no_fault in Hstep.
Qed.

Lemma reduce_loop_result cs fuel arcs doms pops r :
  all_nonempty doms → reduce_loop fuel cs arcs doms pops = Some r →
  ∃ d n, r = Ok (Report true d n) ∧ all_nonempty d.
Proof.
  revert arcs doms pops. induction fuel as [|fuel IH]; intros arcs doms pops Hne; simpl; [done|].
  destruct (reduce_step cs arcs doms) as [arcs' doms'|b doms'|e] eqn:Hstep.
  - apply IH. by eapply reduce_step_nonempty.
  - apply reduce_step_return in Hstep as (-> & -> & ->).
    intros [= <-]. by exists doms, pops.
  - by apply reduce_step_no_fault in Hstep.
Qed.

End Revision.

(** ** The domains of [BelugaCSP] are never empty *)

Lemma all_nonempty_foldl {A} (f : gmap string (list value) → A → gmap string (list value))
    (l : list A) (d : gmap string (list value)) :
  (∀ d a, a ∈ l → all_nonempty d → all_nonempty (f d a)) →
  all_nonempty d → all_nonempty (foldl f d l).
Proof.
  revert d. induction l as [|a l IH]; intros d Hf Hd; simpl; [done|].
  apply IH.
  - intros d' a' Ha'. apply Hf. by right.
  - apply Hf; [by left|done].
Qed.

Lemma int_range_nonempty lo hi : lo < hi → int_range lo hi ≠ [].
Proof.
  unfold int_range, range. intros Hlt.
  destruct (hi - lo) as [|n] eqn:E; [lia|]. simpl. done.
Qed.

Lemma extract_domains_nonempty st inst : all_nonempty (extract_domains st inst).
Proof.
  unfold extract_domains. cbv zeta.
  apply all_nonempty_foldl; [| apply all_nonempty_foldl; [| apply all_nonempty_foldl]].
  - intros d jig_id Hin Hd. destruct (decide _); [|done].
    apply map_Forall_insert_2; [|done].
    apply int_range_nonempty. destruct (Beluga.production_schedule inst); [by inversion Hin|simpl; lia].
  - intros d i Hin Hd. apply map_Forall_insert_2; [|done].
    apply int_range_nonempty. unfold range in Hin. apply elem_of_seq in Hin. lia.
  - intros d j _ Hd. apply map_Forall_insert_2; [|done].
    unfold get_jig_domain. by destruct (VStr <$> _).
  - apply map_Forall_empty.
Qed.

(** ** The cyclic instance never stops *)

Lemma cyc_forward_step rest x :
  x ∈ [("a", "b"); ("b", "c"); ("c", "a")] →
  ∃ y, y ∈ [("a", "b"); ("b", "c"); ("c", "a")] ∧
       reduce_step cyc_cs (x :: rest) cyc_doms = Continue (rest ++ [y]) cyc_doms.
Proof.
  rewrite !elem_of_cons. intros [->|[->|[->|Hx]]]; [| | |by inversion Hx].
  - exists ("c", "a"). split; [set_solver|]. vm_compute. reflexivity.
  - exists ("a", "b"). split; [set_solver|]. vm_compute. reflexivity.
  - exists ("b", "c"). split; [set_solver|]. vm_compute. reflexivity.
Qed.

Lemma cyc_backward_step rest x :
  x ∈ [("b", "a"); ("c", "b"); ("a", "c")] →
  reduce_step cyc_cs (x :: rest) cyc_doms = Continue (rest ++ []) cyc_doms.
Proof.
  rewrite !elem_of_cons. intros [->|[->|[->|Hx]]]; [| | |by inversion Hx];
    vm_compute; reflexivity.
Qed.

Lemma cyc_loop_runs fuel arcs pops :
  Exists (λ x, x ∈ [("a", "b"); ("b", "c"); ("c", "a")]) arcs →
  Forall (λ x, x ∈ [("a", "b"); ("b", "c"); ("c", "a")] ∨
               x ∈ [("b", "a"); ("c", "b"); ("a", "c")]) arcs →
  reduce_loop fuel cyc_cs arcs cyc_doms pops = None.
Proof.
  revert arcs pops. induction fuel as [|fuel IH]; intros arcs pops Hex Hall; [done|].
  destruct arcs as [|x rest]; [by inversion Hex|].
  apply Forall_cons in Hall as [Hx Hrest]. rewrite reduce_loop_S.
  destruct Hx as [Hx|Hx].
  - destruct (cyc_forward_step rest x Hx) as (y & Hy & ->).
    apply IH.
    + apply Exists_app. right. by constructor.
    + apply Forall_app. split; [done|]. constructor; [by left|constructor].
  - rewrite (cyc_backward_step rest x Hx), app_nil_r.
    apply IH; [|done].
    apply Exists_cons in Hex as [Hex|Hex]; [|done].
    exfalso. revert Hx Hex. rewrite !elem_of_cons, !elem_of_nil.
    intros [->|[->|[->|[]]]] [?|[?|[?|[]]]]; discriminate.
Qed.

(** ** The claims about domain reduction *)

Ltac solve_nonempty :=
  unfold all_nonempty;
  repeat (apply map_Forall_insert_2; [done|]);
  apply map_Forall_empty.

(** C2 (as stated, it fails). [reduce_domains] does not stop on every
    instance, and where it stops the arcs it pops are not bounded by twice
    the number of constraints: on three variables constrained in a cycle
    with no compatible pair of values (all domains non-empty) the loop runs
    for ever, whatever the fuel; on the chain u - x - y with two constraints
    it stops after five arcs. *)
Lemma reduce_domains_not_bounded_by_worklist :
  (all_nonempty cyc_doms ∧ ∀ fuel, reduce_domains fuel cyc_cs cyc_doms = None) ∧
  (all_nonempty chain_doms ∧
   pops_of (reduce_domains 6 chain_cs chain_doms) = Some 5 ∧
   2 * length chain_cs < 5).
Proof.
  split; [split|split; [|split]].
  - solve_nonempty.
  - intros fuel. unfold reduce_domains. apply cyc_loop_runs.
    + constructor. by left.
    + vm_compute initial_arcs. repeat constructor; set_solver.
  - solve_nonempty.
  - vm_compute. reflexivity.
  - simpl. lia.
Qed.

(** C2 (amended). The worklist of [reduce_domains] starts with two arcs per
    constraint. When the constraints have no cycle (a ranking of the
    variables puts the first variable of every constraint strictly below
    the second) the loop stops, for any domains, and reports success; the
    arcs it pops are bounded by the weight of the initial worklist, where an
    arc revising a variable of rank r weighs (c + 1) ^ r for c constraints. *)
Theorem reduce_domains_terminates_ranked {V : Type} `{EqDecision V}
    (cs : list (@constraint V)) (doms : gmap string (list V))
    (rk : string → nat) (fuel : nat) :
  ranked rk cs → work_bound rk cs < fuel →
  length (initial_arcs cs) = 2 * length cs ∧
  ∃ d n, reduce_domains fuel cs doms = Some (Ok (Report true d n)) ∧
         n ≤ work_bound rk cs.
Proof.
  intros Hrk Hfuel. split; [apply length_initial_arcs|].
  destruct (reduce_loop_terminates rk cs fuel (initial_arcs cs) doms 0 Hrk Hfuel)
    as (d & n & Hrun & Hn).
  exists d, n. split; [done|]. unfold work_bound. lia.
Qed.

Lemma reduce_domains_terminates_ranked_witness :
  ranked chain_rank chain_cs ∧ work_bound chain_rank chain_cs < 17 ∧
  (length (initial_arcs chain_cs) = 2 * length chain_cs ∧
   ∃ d n, reduce_domains 17 chain_cs chain_doms = Some (Ok (Report true d n)) ∧
          n ≤ work_bound chain_rank chain_cs).
Proof.
  assert (ranked chain_rank chain_cs) as Hrk.
  { repeat constructor; vm_compute; lia. }
  assert (work_bound chain_rank chain_cs < 17) as Hfuel.
  { vm_compute. lia. }
  split; [exact Hrk|]. split; [exact Hfuel|].
  exact (reduce_domains_terminates_ranked chain_cs chain_doms chain_rank 17 Hrk Hfuel).
Defined.

(** C3. A revision of the domain of var1 against var2 removes only values
    without support, removes nothing when no value has support, and leaves a
    non-empty domain non-empty. Hence, from domains that are all non-empty,
    the domains are non-empty after any number of turns of the loop of
    [reduce_domains], and a run that ends reports success (never the
    inconsistency result) with all domains non-empty. The domains that
    [BelugaCSP._extract_domains] builds are all non-empty. *)
Theorem revision_never_empties_a_domain :
  (∀ (V : Type) (Heq : EqDecision V) (cs : list (@constraint V))
     (doms : gmap string (list V)),
     all_nonempty doms →
     (∀ var1 var2 c d1 d2,
        doms !! var1 = Some d1 → doms !! var2 = Some d2 →
        ∃ revised d1',
          revise_domain doms var1 var2 c = Ok (revised, <[var1 := d1']> doms) ∧
          d1' ≠ [] ∧
          (∀ v, v ∈ d1' → v ∈ d1) ∧
          (∀ v, v ∈ d1 → v ∉ d1' → satisfies c d2 v = false) ∧
          (Forall (λ v, satisfies c d2 v = false) d1 → d1' = d1)) ∧
     (∀ n, ∃ d, domains_after n cs (initial_arcs cs) doms = Some d ∧ all_nonempty d) ∧
     (∀ fuel r, reduce_domains fuel cs doms = Some r →
        ∃ d n, r = Ok (Report true d n) ∧ all_nonempty d)) ∧
  (∀ st inst, all_nonempty (extract_domains st inst)).
Proof.
  split; [|apply extract_domains_nonempty].
  intros V Heq cs doms Hne. split; [|split].
  - intros var1 var2 c d1 d2 H1 H2.
    destruct (revise_domain_lookup doms var1 var2 c d1 d2 H1 H2) as (rev & doms' & Hrev & -> & _).
    exists rev, (revised_domain c d2 d1). split; [done|].
    split; [apply revised_domain_nonempty; by apply (Hne var1)|].
    split; [apply revised_domain_sub|].
    split; [apply revised_domain_keeps|apply revised_domain_refuses].
  - intros n. by apply domains_after_nonempty.
  - intros fuel r. by apply reduce_loop_result.
Qed.

Lemma revision_never_empties_a_domain_witness :
  all_nonempty chain_doms ∧
  (∃ d, domains_after 3 chain_cs (initial_arcs chain_cs) chain_doms = Some d ∧ all_nonempty d) ∧
  (∃ d n, reduce_domains 6 chain_cs chain_doms = Some (Ok (Report true d n)) ∧ all_nonempty d).
Proof.
  assert (all_nonempty chain_doms) as Hne.
  { solve_nonempty. }
  destruct (proj1 revision_never_empties_a_domain nat _ chain_cs chain_doms Hne)
    as (_ & Hafter & Hrun).
  split; [exact Hne|]. split; [exact (Hafter 3)|].
  destruct (reduce_domains 6 chain_cs chain_doms) as [r|] eqn:E.
  - destruct (Hrun 6 r E) as (d & n & -> & Hd). by exists d, n.
  - vm_compute in E. discriminate E.
Defined.

End CSP_Theory.

(** ** The frontier (class PriorityQueue) *)

Module PQ_Theory.
Import PQ.

Section Queue.
Context {A : Type}.
Implicit Types (lt : A → A → bool) (e m : @entry A) (l rest : list (@entry A)).
Implicit Types (q : @PriorityQueue A).

Lemma key_le_refl e : key_le e e.
Proof. right. split; [reflexivity|lia]. Qed.

Lemma key_le_trans e1 e2 e3 : key_le e1 e2 → key_le e2 e3 → key_le e1 e3.
Proof.
  unfold key_le. intros [H12|[H12 C12]] [H23|[H23 C23]].
  - left. lra.
  - left. lra.
  - left. lra.
  - right. split; [lra|lia].
Qed.

(** With different counts, the tuple order never looks at the items. *)
Lemma entry_lt_count lt e1 e2 :
  count e1 < count e2 →
  entry_lt lt e2 e1 = true ↔ (priority e2 < priority e1)%Q.
Proof.
  intros Hc. unfold entry_lt.
  destruct (Qcompare_spec (priority e2) (priority e1)) as [Heq|Hlt|Hgt].
  - destruct (Nat.compare_spec (count e2) (count e1)); try lia.
    split; [done|]. intros Hlt. exfalso. lra.
  - done.
  - split; [done|]. intros Hlt. exfalso. lra.
Qed.

Lemma entry_lt_ext lt lt' e1 e2 :
  count e1 < count e2 → entry_lt lt e2 e1 = entry_lt lt' e2 e1.
Proof.
  intros Hc. unfold entry_lt.
  destruct (priority e2 ?= priority e1)%Q; [|done|done].
  destruct (Nat.compare_spec (count e2) (count e1)); [lia|done|done].
Qed.

Lemma pop_min_nil lt l : pop_min lt l = None ↔ l = [].
Proof.
  destruct l as [|e l]; [done|]. simpl.
  destruct (pop_min lt l) as [[m rest]|]; [|done].
  by destruct (entry_lt lt m e).
Qed.

(** What [heappop] returns, on any list: one of the entries, the others
    staying as they stood. *)
Lemma pop_min_elem lt l e rest :
  pop_min lt l = Some (e, rest) →
  e ∈ l ∧ l ≡ₚ e :: rest ∧ (∀ x, x ∈ rest → x ∈ l).
Proof.
  revert e rest. induction l as [|e0 l IH]; intros e rest; simpl; [done|].
  destruct (pop_min lt l) as [[m rest']|] eqn:Hpop.
  - destruct (IH m rest' eq_refl) as (Hm & Hperm & Hsub).
    destruct (entry_lt lt m e0); intros [= <- <-].
    + split; [by right|]. split.
      * rewrite Hperm. apply Permutation_swap.
      * intros x [->|Hx]%elem_of_cons; [by left|right; by apply Hsub].
    + split; [by left|]. split; [done|]. intros x Hx. by right.
  - intros [= <- <-]. apply pop_min_nil in Hpop as ->.
    split; [by left|]. split; [done|]. intros x Hx. by inversion Hx.
Qed.

(** On a list in the order of its counts, it returns the entry of least
    key, and what stays is still in that order. *)
Lemma pop_min_least lt l e rest :
  StronglySorted by_count l → pop_min lt l = Some (e, rest) →
  StronglySorted by_count rest ∧
  (∀ e', e' ∈ l → key_le e e') ∧
  (∀ e', e' ∈ l → e' ≠ e → count e' ≠ count e).
Proof.
  revert e rest. induction l as [|e0 l IH]; intros e rest Hsorted; simpl; [done|].
  apply StronglySorted_cons in Hsorted as [Hall Hsorted].
  rewrite Forall_forall in Hall.
  destruct (pop_min lt l) as [[m rest']|] eqn:Hpop.
  - destruct (IH m rest' Hsorted eq_refl) as (Hrest & Hleast & Hdiff).
    destruct (pop_min_elem lt l m rest' Hpop) as (Hm & _ & Hsub).
    pose proof (Hall m Hm) as Hc. unfold by_count in Hc.
    pose proof (entry_lt_count lt e0 m Hc) as Hlt.
    destruct (entry_lt lt m e0); intros [= <- <-].
    + split.
      { apply StronglySorted_cons. split; [|done].
        apply Forall_forall. intros x Hx. apply Hall. by apply Hsub. }
      split.
      * intros e' [->|He']%elem_of_cons; [|by apply Hleast].
        left. by apply Hlt.
      * intros e' [->|He']%elem_of_cons Hne; [lia|by apply Hdiff].
    + split; [done|]. split.
      * assert (key_le e0 m) as H0m.
        { destruct (Qcompare_spec (priority e0) (priority m)) as [Heq|Hl|Hg].
          - right. split; [done|lia].
          - by left.
          - assert (false = true) by (by apply Hlt). done. }
        intros e' [->|He']%elem_of_cons; [apply key_le_refl|].
        eapply key_le_trans; [exact H0m|by apply Hleast].
      * intros e' [->|He']%elem_of_cons Hne; [done|].
        specialize (Hall e' He'). unfold by_count in Hall. lia.
  - intros [= <- <-]. apply pop_min_nil in Hpop as ->.
    split; [constructor|]. split.
    + intros e' [->|He']%elem_of_cons; [apply key_le_refl|by inversion He'].
    + intros e' [->|He']%elem_of_cons Hne; [done|by inversion He'].
Qed.

(** The order of the items plays no part. *)
Lemma pop_min_ext lt lt' l :
  StronglySorted by_count l → pop_min lt l = pop_min lt' l.
Proof.
  induction l as [|e0 l IH]; intros Hsorted; simpl; [done|].
  apply StronglySorted_cons in Hsorted as [Hall Hsorted].
  rewrite <- (IH Hsorted).
  destruct (pop_min lt l) as [[m rest']|] eqn:Hpop; [|done].
  destruct (pop_min_elem lt l m rest' Hpop) as (Hm & _ & _).
  rewrite Forall_forall in Hall.
  by rewrite (entry_lt_ext lt lt' e0 m (Hall m Hm)).
Qed.

Lemma get_elem lt q x q' :
  get lt q = Ok (x, q') →
  entry_count q' = entry_count q ∧
  (∃ e, e ∈ elements q ∧ item e = x) ∧
  (∀ e, e ∈ elements q' → e ∈ elements q).
Proof.
  unfold get. destruct (pop_min lt (elements q)) as [[e rest]|] eqn:Hpop; [|done].
  intros [= <- <-]. simpl.
  destruct (pop_min_elem lt _ e rest Hpop) as (He & _ & Hsub).
  split; [done|]. split; [by exists e|done].
Qed.

Lemma get_nonempty lt q : is_empty q = false → ∃ x q', get lt q = Ok (x, q').
Proof.
  unfold is_empty, get. intros Hne%bool_decide_eq_false.
  destruct (pop_min lt (elements q)) as [[e rest]|] eqn:Hpop; [by eexists _, _|].
  apply pop_min_nil in Hpop. by rewrite Hpop in Hne.
Qed.

Lemma put_elem (x : A) (p : Q) q e :
  e ∈ elements (put x p q) ↔ e ∈ elements q ∨ e = (p, entry_count q, x).
Proof. unfold put. simpl. rewrite elem_of_app, list_elem_of_singleton. done. Qed.

Lemma reachable_well_formed lt q : reachable lt q → well_formed q.
Proof.
  induction 1 as [|q x p Hq [Hs Hc]|q x q' Hq [Hs Hc] Hget].
  - split; constructor.
  - split; simpl.
    + apply StronglySorted_app. split; [|split; [done|repeat constructor]].
      intros e1 e2 H1 ->%list_elem_of_singleton.
      rewrite Forall_forall in Hc. by apply Hc.
    + apply Forall_app. split.
      * eapply Forall_impl; [exact Hc|]. simpl. intros; lia.
      * constructor; [unfold count; simpl; lia|constructor].
  - unfold get in Hget.
    destruct (pop_min lt (elements q)) as [[e rest]|] eqn:Hpop; [|done].
    injection Hget as <- <-.
    destruct (pop_min_least lt _ e rest Hs Hpop) as (Hrest & _ & _).
    destruct (pop_min_elem lt _ e rest Hpop) as (_ & _ & Hsub).
    split; simpl; [done|].
    rewrite Forall_forall in Hc. apply Forall_forall. intros y Hy. by apply Hc, Hsub.
Qed.

End Queue.


End PQ_Theory.

(** ** The searches *)

Module Search_Theory.
Import PQ Search PQ_Theory.

Section Searches.
Context {State Action : Type} `{Countable State}.
Variable W : @world State Action.
Variable O : @oracle State Action.
Implicit Types (st : @store State Action _ _) (s p g cur : State) (a : Action).
Implicit Types (o : @outcome Action).

(** *** Loops over the actions *)

Lemma for_each_invariant {S X : Type} (body : S → X → step S)
    (P : S → Prop) (R : @outcome Action → Prop) (l : list X) (x0 : S) :
  (∀ x y, P x → match body x y with Next x' => P x' | Stop o => R o end) →
  P x0 →
  match for_each body x0 l with Next x' => P x' | Stop o => R o end.
Proof.
  intros Hbody. revert x0. induction l as [|y l IH]; intros x0 Hx; simpl; [done|].
  specialize (Hbody x0 y Hx). destruct (body x0 y) as [x'|o]; [by apply IH|done].
Qed.

(** *** The invariant of the maps *)

Lemma inv_initial init : inv W init (initial_store init).
Proof.
  unfold inv, initial_store. simpl. split; [apply lookup_singleton_eq|].
  split; [done|]. split; [intros s p a; by rewrite lookup_empty|].
  split.
  - intros s [c Hc]. apply lookup_singleton_Some in Hc as [-> _]. by left.
  - intros e ->%list_elem_of_singleton. simpl. rewrite lookup_singleton_eq. by eexists.
Qed.

Lemma inv_popped init st open' :
  inv W init st → (∀ e, e ∈ elements open' → is_Some (cost_so_far st !! item e)) →
  inv W init (popped st open').
Proof.
  intros (H0 & H1 & H2 & H3 & H4) Hopen. unfold inv, popped. simpl.
  split; [done|]. split; [done|]. split; [done|]. split; done.
Qed.

(** Recording a cheaper way to [next] keeps the invariant. *)
Lemma inv_update init st cur a next c (prio : Q) :
  inv W init st →
  cost_so_far st !! cur = Some c →
  get_next_state W cur a = Some next →
  improves (cost_so_far st) next (c + 1) = true →
  inv W init {| cost_so_far := <[next := c + 1]> (cost_so_far st);
              open_set := put next prio (open_set st);
              came_from := <[next := (cur, a)]> (came_from st) |}.
Proof.
  intros (H0 & H1 & H2 & H3 & H4) Hcur Hstep Himp. unfold improves in Himp.
  assert (next ≠ init) as Hni.
  { intros ->. rewrite H0 in Himp. apply bool_decide_eq_true in Himp. lia. }
  assert (next ≠ cur) as Hnc.
  { intros ->. rewrite Hcur in Himp. apply bool_decide_eq_true in Himp. lia. }
  unfold inv. simpl. split; [by rewrite lookup_insert_ne|].
  split; [by rewrite lookup_insert_ne|]. split; [|split].
  - intros s p a'. destruct (decide (s = next)) as [->|Hs].
    + rewrite lookup_insert_eq. intros [= <- <-]. split; [done|].
      exists (c + 1), c. rewrite lookup_insert_eq, lookup_insert_ne by done.
      split; [done|]. split; [done|lia].
    + rewrite lookup_insert_ne by done. intros Hcf.
      destruct (H2 s p a' Hcf) as (Hok & cs & cp & Hcs & Hcp & Hlt).
      split; [done|]. rewrite lookup_insert_ne by done.
      destruct (decide (p = next)) as [->|Hp].
      * exists cs, (c + 1). rewrite lookup_insert_eq. split; [done|]. split; [done|].
        rewrite Hcp in Himp. apply bool_decide_eq_true in Himp. lia.
      * exists cs, cp. by rewrite lookup_insert_ne.
  - intros s. destruct (decide (s = next)) as [->|Hs].
    + intros _. right. rewrite lookup_insert_eq. by eexists.
    + rewrite !lookup_insert_ne by done. apply H3.
  - intros e [He | ->]%put_elem.
    + destruct (decide (item e = next)) as [->|Hne].
      * rewrite lookup_insert_eq. by eexists.
      * rewrite lookup_insert_ne by done. by apply H4.
    + simpl. rewrite lookup_insert_eq. by eexists.
Qed.

Lemma cost_update_mono st next (n : nat) s :
  is_Some (cost_so_far st !! s) → is_Some (<[next := n]> (cost_so_far st) !! s).
Proof.
  intros Hs. destruct (decide (s = next)) as [->|Hne].
  - rewrite lookup_insert_eq. by eexists.
  - by rewrite lookup_insert_ne.
Qed.

(** The body of the loop of [astar_search] never raises. *)
Lemma relax_keeps init known variant cur st a :
  known cur → keeps W init known st →
  match relax W variant cur st a with
  | Next st' => keeps W init known st'
  | Stop _ => False
  end.
Proof.
  intros Hk [Hinv Hknown]. unfold relax.
  destruct (get_next_state W cur a) as [next|] eqn:Hstep; [|done].
  destruct (Hknown cur Hk) as [c Hc]. rewrite Hc.
  destruct (improves _ next (c + 1)) eqn:Himp; [|done].
  split; [by eapply inv_update|].
  intros s Hs. simpl. by apply cost_update_mono, Hknown.
Qed.

(** The body of the loop of [hybrid_astar_search] never raises KeyError. *)
Lemma hybrid_relax_keeps init known variant use_fc cur st a :
  known cur → keeps W init known st →
  match hybrid_relax W variant use_fc cur st a with
  | Next st' => keeps W init known st'
  | Stop o => o ≠ Crashed KeyError
  end.
Proof.
  intros Hk [Hinv Hknown]. unfold hybrid_relax.
  destruct (get_next_state W cur a) as [next|] eqn:Hstep; [|done].
  destruct (Hknown cur Hk) as [c Hc]. rewrite Hc.
  destruct (improves _ next (c + 1)) eqn:Himp; [|done].
  unfold hybrid_h_value.
  destruct use_fc.
  - destruct (check_forward W next) as [[success sizes]|]; [|done].
    destruct (adjust_heuristic _ success sizes) as [h|e] eqn:Hadj.
    + split; [by eapply inv_update|].
      intros s Hs. simpl. by apply cost_update_mono, Hknown.
    + unfold adjust_heuristic in Hadj.
      destruct (min_size sizes) as [m|]; [|done].
      destruct (decide (m = 0)); [|by destruct (decide (0 < m))].
      by injection Hadj as <-.
  - split; [by eapply inv_update|].
    intros s Hs. simpl. by apply cost_update_mono, Hknown.
Qed.

(** *** reconstruct_plan *)

Lemma replay_app s plan1 plan2 :
  replay W s (plan1 ++ plan2) =
    match replay W s plan1 with
    | Some s' => replay W s' plan2
    | None => None
    end.
Proof.
  revert s. induction plan1 as [|a plan1 IH]; intros s; simpl; [done|].
  by destruct (get_next_state W s a).
Qed.

(** The walk from a state with a cost ends at the start, within as many
    steps as [came_from] has keys, and lists a valid path backwards. *)
Lemma walk_back_ends init st :
  inv W init st →
  ∀ fuel (m : gmap State (State * Action)) cur acc c,
    cost_so_far st !! cur = Some c →
    (∀ s c', is_Some (came_from st !! s) → cost_so_far st !! s = Some c' → c' ≤ c →
             is_Some (m !! s)) →
    size m < fuel →
    ∃ l, walk_back fuel (came_from st) cur acc = Some (acc ++ l) ∧
         replay W init (reverse l) = Some cur.
Proof.
  intros (H0 & H1 & H2 & H3 & _).
  induction fuel as [|fuel IH]; intros m cur acc c Hc Hm Hsize; [lia|].
  simpl. destruct (came_from st !! cur) as [[p a]|] eqn:Hcf.
  - destruct (H2 cur p a Hcf) as (Hstep & cs & cp & Hcs & Hcp & Hlt).
    rewrite Hc in Hcs. injection Hcs as <-.
    assert (is_Some (m !! cur)) as [v Hv].
    { apply (Hm cur c); [by eexists|done|lia]. }
    destruct (IH (delete cur m) p (acc ++ [a]) cp Hcp) as (l & Hwalk & Hreplay).
    + intros s c' Hs Hc' Hle. rewrite lookup_delete_ne.
      * apply (Hm s c'); [done|done|lia].
      * intros <-. rewrite Hc in Hc'. injection Hc' as <-. lia.
    + pose proof (map_size_delete_Some cur m (mk_is_Some _ _ Hv)) as Hdel.
      assert (size m ≠ 0) by (intros Hz%map_size_empty_inv; by rewrite Hz, lookup_empty in Hv).
      lia.
    + exists (a :: l). split; [by rewrite Hwalk, <- app_assoc|].
      rewrite reverse_cons, replay_app, Hreplay. simpl. by rewrite Hstep.
  - exists []. split; [by rewrite app_nil_r|]. simpl.
    destruct (H3 cur) as [->|[v Hv]]; [by eexists|done|congruence].
Qed.

Lemma reconstruct_plan_valid init st cur :
  inv W init st → is_Some (cost_so_far st !! cur) →
  ∃ plan, reconstruct_plan (came_from st) cur = Some plan ∧
          replay W init plan = Some cur.
Proof.
  intros Hinv [c Hc].
  destruct (walk_back_ends init st Hinv (S (size (came_from st))) (came_from st) cur [] c Hc)
    as (l & Hwalk & Hreplay); [done|lia|].
  exists (reverse l). unfold reconstruct_plan. by rewrite Hwalk.
Qed.

Lemma plan_outcome_sound init st cur :
  inv W init st → is_Some (cost_so_far st !! cur) → is_goal_state W cur = true →
  sound W init (plan_outcome (came_from st) cur).
Proof.
  intros Hinv Hcur Hgoal.
  destruct (reconstruct_plan_valid init st cur Hinv Hcur) as (plan & Hplan & Hreplay).
  right. exists plan, cur. unfold plan_outcome. by rewrite Hplan.
Qed.

(** *** astar_search *)

Lemma get_known init st cur open' :
  inv W init st → get (state_lt W) (open_set st) = Ok (cur, open') →
  is_Some (cost_so_far st !! cur) ∧ inv W init (popped st open').
Proof.
  intros Hinv Hget.
  destruct (get_elem _ _ _ _ Hget) as (_ & (e & He & <-) & Hsub).
  pose proof Hinv as (_ & _ & _ & _ & H4).
  split; [by apply H4|]. apply inv_popped; [done|]. intros e' He'. by apply H4, Hsub.
Qed.

Lemma astar_loop_sound init variant prioritize time_limit fuel iterations st :
  inv W init st →
  sound W init (astar_loop W O variant prioritize time_limit fuel iterations st).
Proof.
  revert iterations st. induction fuel as [|fuel IH]; intros iterations st Hinv; simpl.
  { by left. }
  destruct (is_empty (open_set st)) eqn:Hempty; [by left|].
  destruct (timed_out O time_limit (S iterations)); [by left|].
  destruct (get_nonempty (state_lt W) _ Hempty) as (cur & open' & Hget). rewrite Hget.
  destruct (get_known init st cur open' Hinv Hget) as [Hcur Hinv'].
  destruct (is_goal_state W cur) eqn:Hgoal; [by apply plan_outcome_sound|].
  pose proof (for_each_invariant (relax W variant cur)
    (keeps W init (λ s, s = cur)) (λ _, False)
    (get_all_possible_actions W prioritize cur) (popped st open')) as Hfor.
  destruct (for_each _ _ _) as [st'|o].
  - apply IH. apply Hfor.
    + intros x y Hx. by apply relax_keeps.
    + split; [done|]. by intros s ->.
  - exfalso. apply Hfor.
    + intros x y Hx. by apply relax_keeps.
    + split; [done|]. by intros s ->.
Qed.

Lemma astar_search_sound init max_iterations time_limit variant prioritize :
  sound W init (astar_search W O init max_iterations time_limit variant prioritize).
Proof. apply astar_loop_sound, inv_initial. Qed.

(** *** hybrid_astar_search: the maps *)

Lemma random_choice_elem iterations (l : list State) s :
  random_choice O iterations l = Some s → s ∈ l.
Proof. unfold random_choice. apply list_elem_of_lookup_2. Qed.

Lemma random_choice_some iterations (l : list State) :
  l ≠ [] → is_Some (random_choice O iterations l).
Proof.
  intros Hne. unfold random_choice. apply lookup_lt_is_Some_2.
  apply Nat.mod_upper_bound. by destruct l.
Qed.

Lemma note_progress_states use_rr cur (t : tracking) s :
  s ∈ restart_states (note_progress W use_rr cur t) → s ∈ restart_states t ∨ s = cur.
Proof.
  unfold note_progress. destruct (_ || _); simpl; [|by left].
  destruct (_ && _); [|by left].
  rewrite elem_of_app, list_elem_of_singleton. done.
Qed.

Lemma restart_seed_elem use_rr threshold iterations (t : tracking) s :
  restart_seed O use_rr threshold iterations t = Some s → s ∈ restart_states t.
Proof.
  unfold restart_seed. destruct (_ && _); [|done].
  destruct (restart_states t) eqn:E; [done|]. apply random_choice_elem.
Qed.

(** The block keeps every restart candidate and every frontier state among
    the states with a recorded cost. *)
Lemma stagnation_block_known (known : State → Prop) use_rr threshold iterations cur
    (t t' : tracking) (open' frontier : @PriorityQueue State) (flag : bool) :
  known cur →
  (∀ s, s ∈ restart_states t → known s) →
  (∀ e, e ∈ elements open' → known (item e)) →
  stagnation_block W O use_rr threshold iterations cur t open' = (t', frontier, flag) →
  (∀ s, s ∈ restart_states t' → known s) ∧
  (∀ e, e ∈ elements frontier → known (item e)).
Proof.
  intros Hcur Ht Hopen. unfold stagnation_block.
  destruct (decide _) as [Hmod|Hmod]; [|by intros [= <- <- <-]].
  assert (∀ s, s ∈ restart_states (note_progress W use_rr cur t) → known s) as Ht1.
  { intros s [Hs| ->]%note_progress_states; [by apply Ht|done]. }
  destruct (restart_seed _ _ _ _ _) as [seed|] eqn:Hseed; intros [= <- <- <-]; [|done].
  split; [done|].
  intros e ->%list_elem_of_singleton. simpl.
  by apply Ht1, (restart_seed_elem use_rr threshold iterations).
Qed.

Lemma plan_outcome_not_crashed (cf : gmap State (State * Action)) cur e :
  plan_outcome cf cur ≠ Crashed e.
Proof. unfold plan_outcome. by destruct (reconstruct_plan cf cur). Qed.

Lemma hybrid_loop_no_key_error init variant prioritize use_fc use_rr threshold
    time_limit fuel iterations st (t : tracking) :
  inv W init st →
  (∀ s, s ∈ restart_states t → is_Some (cost_so_far st !! s)) →
  no_key_error (hybrid_loop W O variant prioritize use_fc use_rr threshold
                  time_limit fuel iterations st t).
Proof.
  revert iterations st t. induction fuel as [|fuel IH]; intros iterations st t Hinv Ht; simpl.
  { done. }
  destruct (is_empty (open_set st)) eqn:Hempty; [done|].
  destruct (timed_out O time_limit (S iterations)); [done|].
  destruct (get_nonempty (state_lt W) _ Hempty) as (cur & open' & Hget). rewrite Hget.
  destruct (get_elem _ _ _ _ Hget) as (_ & (e & He & <-) & Hsub).
  pose proof Hinv as (_ & _ & _ & _ & H4).
  destruct (is_goal_state W (item e)); [apply plan_outcome_not_crashed|].
  destruct (stagnation_block W O use_rr threshold (S iterations) (item e) t open')
    as [[t' frontier] flag] eqn:Hblock.
  destruct (stagnation_block_known (λ s, is_Some (cost_so_far st !! s))
              _ _ _ _ _ _ _ _ _ (H4 e He) Ht (λ e' He', H4 e' (Hsub e' He')) Hblock)
    as [Ht' Hfrontier].
  destruct flag.
  - apply IH; [by apply inv_popped|done].
  - pose proof (for_each_invariant (hybrid_relax W variant use_fc (item e))
      (keeps W init (λ s, s = item e ∨ s ∈ restart_states t'))
      (λ o, o ≠ Crashed KeyError)
      (hybrid_possible_actions W prioritize use_fc (item e)) (popped st frontier)) as Hfor.
    destruct (for_each _ _ _) as [st'|o].
    + destruct Hfor as [Hinv' Hknown'].
      * intros x y Hx. apply hybrid_relax_keeps; [by left|done].
      * split; [by apply inv_popped|]. intros s [->|Hs]; [by apply H4|by apply Ht'].
      * apply IH; [done|]. intros s Hs. apply Hknown'. by right.
    + apply Hfor.
      * intros x y Hx. apply hybrid_relax_keeps; [by left|done].
      * split; [by apply inv_popped|]. intros s [->|Hs]; [by apply H4|by apply Ht'].
Qed.

(** *** hybrid_astar_search: the time limit *)

Lemma Qltb_lt (a b : Q) : Qltb a b = true ↔ (a < b)%Q.
Proof.
  unfold Qltb. rewrite Qlt_alt. destruct (a ?= b)%Q; split; congruence.
Qed.

Lemma fallback_budget_max (time_limit : Q) :
  (5 <= fallback_budget time_limit)%Q ∧
  (time_limit / 10 <= fallback_budget time_limit)%Q ∧
  ((fallback_budget time_limit == 5)%Q ∨ (fallback_budget time_limit == time_limit / 10)%Q).
Proof.
  unfold fallback_budget. destruct (Qltb 5 (time_limit / 10)) eqn:E.
  - apply Qltb_lt in E. split; [lra|]. split; [lra|]. right. reflexivity.
  - assert (¬ (5 < time_limit / 10)%Q) as Hn by (rewrite <- Qltb_lt; congruence).
    split; [lra|]. split; [lra|]. left. reflexivity.
Qed.

Lemma hybrid_loop_timeout_at_once variant prioritize use_fc use_rr threshold time_limit
    fuel iterations st (t : tracking) :
  is_empty (open_set st) = false → timed_out O time_limit (S iterations) = true →
  hybrid_loop W O variant prioritize use_fc use_rr threshold time_limit
    (S fuel) iterations st t = ReturnedInLoop NotFound true.
Proof. intros Hne Hto. simpl. by rewrite Hne, Hto. Qed.

Lemma hybrid_loop_timeout variant prioritize use_fc use_rr threshold time_limit
    fuel iterations st (t : tracking) o :
  hybrid_loop W O variant prioritize use_fc use_rr threshold time_limit
    fuel iterations st t = ReturnedInLoop o true →
  o = NotFound ∧ ∃ n, timed_out O time_limit n = true.
Proof.
  revert iterations st t. induction fuel as [|fuel IH]; intros iterations st t; simpl; [done|].
  destruct (is_empty (open_set st)); [done|].
  destruct (timed_out O time_limit (S iterations)) eqn:Hto.
  { intros [= <-]. split; [done|]. by exists (S iterations). }
  destruct (get (state_lt W) (open_set st)) as [[cur open']|e]; [|done].
  destruct (is_goal_state W cur); [done|].
  destruct (stagnation_block _ _ _ _ _ _ _ _) as [[t' frontier] []]; [apply IH|].
  destruct (for_each _ _ _) as [st'|o']; [apply IH|done].
Qed.

(** A restart ends the iteration: the next one starts from the new
    frontier, with the maps as they were. *)
Lemma hybrid_loop_restart variant prioritize use_fc use_rr threshold time_limit
    fuel iterations st (t t' : tracking) cur open' frontier :
  is_empty (open_set st) = false →
  timed_out O time_limit (S iterations) = false →
  get (state_lt W) (open_set st) = Ok (cur, open') →
  is_goal_state W cur = false →
  stagnation_block W O use_rr threshold (S iterations) cur t open' = (t', frontier, true) →
  hybrid_loop W O variant prioritize use_fc use_rr threshold time_limit
    (S fuel) iterations st t =
  hybrid_loop W O variant prioritize use_fc use_rr threshold time_limit
    fuel (S iterations) (popped st frontier) t'.
Proof. intros Hne Hto Hget Hgoal Hblock. simpl. by rewrite Hne, Hto, Hget, Hgoal, Hblock. Qed.

(** *** The heuristic under forward checking *)

Lemma adjust_heuristic_positive (h : Q) (success : bool) (sizes : gmap string nat) (m : nat) :
  min_size sizes = Some m → 0 < m →
  adjust_heuristic h success sizes =
    Ok ((if success then h else h + 10) + bonus m + bonus m)%Q.
Proof.
  intros Hmin Hm. unfold adjust_heuristic. rewrite Hmin.
  rewrite decide_False by lia. by rewrite decide_True by done.
Qed.

(** *** Local Search on a goal state *)

Lemma solve_on_goal initial_state (time_limit : Q) (max_iterations : Z) :
  is_goal_state W initial_state = true →
  (0 < max_iterations)%Z →
  ls_timed_out O time_limit 1 = false →
  solve W O initial_state time_limit max_iterations =
    {| ls_plan := Some []; ls_generated := 0; ls_applied := 0 |}.
Proof.
  intros Hgoal Hmax Hto. unfold solve.
  destruct (Z.to_nat max_iterations) as [|fuel] eqn:E; [lia|].
  simpl. rewrite Hto. rewrite decide_False by set_solver. by rewrite Hgoal.
Qed.

Lemma solve_cut_short initial_state (time_limit : Q) (max_iterations : Z) :
  (max_iterations ≤ 0)%Z ∨ ls_timed_out O time_limit 1 = true →
  solve W O initial_state time_limit max_iterations =
    {| ls_plan := None; ls_generated := 0; ls_applied := 0 |}.
Proof.
  intros Hcut. unfold solve.
  destruct (Z.to_nat max_iterations) as [|fuel] eqn:E; [done|].
  destruct Hcut as [Hmax|Hto]; [lia|]. simpl. by rewrite Hto.
Qed.

(** *** Stagnation *)

Lemma note_progress_better use_rr cur (t : tracking) :
  (best_flights t < flights_progress (check_goal_progress W cur) ∨
   best_parts t < parts_progress (check_goal_progress W cur))%Z →
  note_progress W use_rr cur t =
    {| best_flights := Z.max (best_flights t) (flights_progress (check_goal_progress W cur));
       best_parts := Z.max (best_parts t) (parts_progress (check_goal_progress W cur));
       stagnation_counter := 0;
       restart_states :=
         if (use_rr && bool_decide (cur ∉ restart_states t))%bool
         then restart_states t ++ [cur] else restart_states t |}.
Proof.
  intros Hb. unfold note_progress.
  destruct (_ || _) eqn:E; [done|].
  apply orb_false_iff in E as [E1 E2].
  apply Z.ltb_ge in E1, E2. lia.
Qed.

Lemma note_progress_not_better use_rr cur (t : tracking) :
  ¬ (best_flights t < flights_progress (check_goal_progress W cur) ∨
     best_parts t < parts_progress (check_goal_progress W cur))%Z →
  note_progress W use_rr cur t =
    {| best_flights := best_flights t;
       best_parts := best_parts t;
       stagnation_counter := (stagnation_counter t + 1)%Z;
       restart_states := restart_states t |}.
Proof.
  intros Hb. unfold note_progress.
  destruct (_ || _) eqn:E; [|done].
  exfalso. apply Hb. apply orb_true_iff in E as [E|E]; apply Z.ltb_lt in E; tauto.
Qed.

End Searches.

(** *** The claims about the two A* searches *)

(** C1. Every plan that [astar_search] returns, replayed action by action
    from the initial state with the transition function, meets no invalid
    action and ends in a state that satisfies [is_goal_state]; the walk
    along [came_from] always ends (it ends at the initial state). *)
Theorem astar_plan_replays_to_goal {State Action : Type} `{Countable State}
    (W : @world State Action) (O : @oracle State Action)
    (initial_state : State) (max_iterations : Z) (time_limit : Q)
    (variant : string) (prioritize : bool) :
  astar_search W O initial_state max_iterations time_limit variant prioritize ≠ Diverges ∧
  ∀ plan,
    astar_search W O initial_state max_iterations time_limit variant prioritize = Found plan →
    ∃ goal, replay W initial_state plan = Some goal ∧ is_goal_state W goal = true.
Proof.
  pose proof (astar_search_sound W O initial_state max_iterations time_limit variant prioritize)
    as [Hnone|(plan & g & Hfound & Hreplay & Hgoal)].
  - rewrite Hnone. split; [done|]. intros plan; discriminate.
  - rewrite Hfound. split; [done|]. intros plan' [= <-]. by exists g.
Qed.

(** C10. Neither search ever raises KeyError: whenever
    [cost_so_far[current_state]] is evaluated, the popped state is a key of
    [cost_so_far]. *)
Theorem cost_lookup_never_fails {State Action : Type} `{Countable State}
    (W : @world State Action) (O : @oracle State Action)
    (initial_state : State) (max_iterations : Z) (time_limit : Q)
    (variant : string) (prioritize use_forward_checking use_random_restarts : bool)
    (random_restart_threshold : Z) :
  astar_search W O initial_state max_iterations time_limit variant prioritize
    ≠ Crashed KeyError ∧
  hy_outcome (hybrid_astar_search W O initial_state max_iterations time_limit variant
                prioritize use_forward_checking use_random_restarts
                random_restart_threshold)
    ≠ Crashed KeyError.
Proof.
  split.
  - pose proof (astar_search_sound W O initial_state max_iterations time_limit variant prioritize)
      as [Hnone|(plan & g & Hfound & _)]; congruence.
  - unfold hybrid_astar_search.
    pose proof (hybrid_loop_no_key_error W O initial_state variant prioritize
      use_forward_checking use_random_restarts random_restart_threshold time_limit
      (Z.to_nat max_iterations) 0 (initial_store initial_state) initial_tracking
      (inv_initial W initial_state)) as Hloop.
    destruct (hybrid_loop _ _ _ _ _ _ _ _ _ _ _ _) as [o timeout|].
    + simpl. apply Hloop. intros s Hs. by inversion Hs.
    + destruct use_random_restarts; simpl; [|done].
      by destruct (ls_plan _) as [[|a plan]|].
Qed.

Lemma astar_plan_replays_to_goal_witness :
  astar_search demo_world (demo_oracle 1) 0 100 60 "standard" false = Found [true; true] ∧
  ∃ goal, replay demo_world 0 [true; true] = Some goal ∧
          is_goal_state demo_world goal = true.
Proof.
  assert (astar_search demo_world (demo_oracle 1) 0 100 60 "standard" false
          = Found [true; true]) as Hrun by (vm_compute; reflexivity).
  split; [exact Hrun|].
  exact (proj2 (astar_plan_replays_to_goal demo_world (demo_oracle 1) 0 100 60
                  "standard" false) [true; true] Hrun).
Defined.

(** *** The claim about the adjusted heuristic *)

(** C4 (the code departs from it). With forward checking, the code adds
    the bonus 0.1 / smallest domain size twice, not once: the block "Adjust
    heuristic based on domain sizes" stands twice in the loop body. For a
    successor with heuristic value 3 whose check succeeds with smallest
    domain size 2 the adjusted value is 3 + 0.05 + 0.05 = 3.1, where the
    claim gives 3.05. The first copy of the block divides without a guard,
    so a smallest size of 0 raises ZeroDivisionError before the penalty of
    the second copy is reached. *)
Lemma adjust_heuristic_adds_bonus_twice :
  adjust_heuristic 3 true {[ "jig_a" := 2 ]} = Ok (3 + bonus 2 + bonus 2)%Q ∧
  (3 + bonus 2 + bonus 2 == 3 + (1 # 10))%Q ∧
  ¬ (3 + bonus 2 + bonus 2 == 3 + bonus 2)%Q ∧
  adjust_heuristic 3 true {[ "jig_a" := 0 ]} = Raise ZeroDivisionError.
Proof.
  split; [|split; [|split]].
  - by apply adjust_heuristic_positive; [vm_compute|lia].
  - vm_compute. reflexivity.
  - vm_compute. discriminate.
  - vm_compute. reflexivity.
Qed.

(** *** The claim about Local Search *)

(** C9 (as stated, it fails). On an initial state that satisfies
    [is_goal_state], [solve] returns None when the time limit has passed at
    the first check of its loop (here: limit 0, one second elapsed) and when
    the iteration cap is 0: both guards come before the goal test. *)
Lemma solve_on_goal_can_return_none :
  is_goal_state demo_world 2 = true ∧
  ls_plan (solve demo_world (demo_oracle 1) 2 0 5000) = None ∧
  ls_plan (solve demo_world (demo_oracle 1) 2 5 0) = None.
Proof. repeat split; vm_compute; reflexivity. Qed.

(** C9 (amended). If the initial state satisfies [is_goal_state], the
    iteration cap is at least 1 and the time limit has not passed at the
    first check of the loop, [solve] returns the empty plan in its first
    iteration, before any call of [_get_random_actions] or
    [get_next_state]. *)
Theorem solve_on_goal_returns_empty_plan {State Action : Type} `{Countable State}
    (W : @world State Action) (O : @oracle State Action)
    (initial_state : State) (time_limit : Q) (max_iterations : Z) :
  is_goal_state W initial_state = true →
  (0 < max_iterations)%Z →
  ls_timed_out O time_limit 1 = false →
  solve W O initial_state time_limit max_iterations =
    {| ls_plan := Some []; ls_generated := 0; ls_applied := 0 |}.
Proof. apply solve_on_goal. Qed.

Lemma solve_on_goal_returns_empty_plan_witness :
  is_goal_state demo_world 2 = true ∧ (0 < 5000)%Z ∧
  ls_timed_out (demo_oracle 1) 5 1 = false ∧
  solve demo_world (demo_oracle 1) 2 5 5000 =
    {| ls_plan := Some []; ls_generated := 0; ls_applied := 0 |}.
Proof.
  assert (is_goal_state demo_world 2 = true) as Hgoal by reflexivity.
  assert (0 < 5000)%Z as Hmax by lia.
  assert (ls_timed_out (demo_oracle 1) 5 1 = false) as Hto by reflexivity.
  split; [exact Hgoal|]. split; [exact Hmax|]. split; [exact Hto|].
  exact (solve_on_goal_returns_empty_plan demo_world (demo_oracle 1) 2 5 5000
           Hgoal Hmax Hto).
Defined.

End Search_Theory.

(** ** The standard heuristic (beluga_heuristic.py) *)

Module Heuristic_Theory.
Import Beluga Heuristic.

Lemma parts_to_produce_length (st : BelugaState) (schedule acc : list string) :
  length (foldl (λ parts jig_id,
                   if pending st jig_id then parts ++ [(status_of st jig_id).2] else parts)
            acc schedule)
  = length acc + length (filter (λ j, pending st j = true) schedule).
Proof.
  revert acc. induction schedule as [|j schedule IH]; intros acc; simpl; [lia|].
  rewrite IH, filter_cons. destruct (pending st j) eqn:E.
  - rewrite decide_True by done. rewrite length_app. simpl. lia.
  - rewrite decide_False by congruence. lia.
Qed.

Lemma outgoing_loop (fl : list flight) (n k : nat) (total : Z) :
  k + n = length fl →
  foldl (λ total i,
           match fl !! i with
           | Some f => (total + len (outgoing f))%Z
           | None => total
           end) total (seq k n)
  = (total + Z.of_nat (sum_list_with (λ f, length (outgoing f)) (drop k fl)))%Z.
Proof.
  revert k total. induction n as [|n IH]; intros k total Hk; simpl.
  - rewrite drop_ge by lia. simpl. lia.
  - destruct (fl !! k) as [f|] eqn:Hf.
    + rewrite (drop_S fl f k Hf). rewrite IH by lia. simpl. unfold len. lia.
    + apply lookup_ge_None in Hf. lia.
Qed.

Lemma total_outgoing_jigs_sum (st : BelugaState) (fl : list flight) :
  total_outgoing_jigs st fl
  = Z.of_nat (sum_list_with (λ f, length (outgoing f)) (drop (current_flight_idx st) fl)).
Proof.
  unfold total_outgoing_jigs.
  destruct (decide (current_flight_idx st ≤ length fl)) as [Hle|Hgt].
  - rewrite outgoing_loop by lia. lia.
  - replace (length fl - current_flight_idx st) with 0 by lia.
    rewrite drop_ge by lia. done.
Qed.

(** Counting along [enumerate]: of the positions [k], [k + 1], ... of a
    list that ends at position [n - 1], those below [n - 1] are the
    positions of the list without its last element. *)
Lemma blocked_loop (schedule : list string) (n : Z) (m : list string) (k : nat) (acc : Z) :
  0 < k → n = Z.of_nat (k + length m) →
  foldl (λ acc '(i, jig_id),
           if ((0 <? Z.of_nat i)%Z && (Z.of_nat i <? n - 1)%Z
               && bool_decide (jig_id ∈ schedule))%bool
           then (acc + 2)%Z else acc)
    acc (zip (seq k (length m)) m)
  = (acc + 2 * Z.of_nat (length (filter (λ j, j ∈ schedule) (removelast m))))%Z.
Proof.
  revert k acc. induction m as [|y m IH]; intros k acc Hk Hn; [simpl; lia|].
  destruct m as [|z m'].
  - simpl. replace (Z.of_nat k <? n - 1)%Z with false
      by (symmetry; apply Z.ltb_ge; simpl in Hn; lia).
    rewrite andb_false_r. simpl. lia.
  - change (removelast (y :: z :: m')) with (y :: removelast (z :: m')).
    change (zip (seq k (length (y :: z :: m'))) (y :: z :: m'))
      with ((k, y) :: zip (seq (S k) (length (z :: m'))) (z :: m')).
    rewrite filter_cons. cbn [foldl].
    rewrite IH by (simpl in *; lia).
    replace (0 <? Z.of_nat k)%Z with true by (symmetry; apply Z.ltb_lt; lia).
    replace (Z.of_nat k <? n - 1)%Z with true
      by (symmetry; apply Z.ltb_lt; simpl in Hn; lia).
    simpl andb. destruct (decide (y ∈ schedule)) as [Hy|Hy].
    + rewrite bool_decide_eq_true_2 by done. simpl length. lia.
    + rewrite bool_decide_eq_false_2 by done. lia.
Qed.

Lemma blocked_in_rack_count (schedule jigs : list string) (estimate : Z) :
  blocked_in_rack schedule estimate jigs
  = (estimate + 2 * Z.of_nat (length (filter (λ j, j ∈ schedule) (interior jigs))))%Z.
Proof.
  unfold blocked_in_rack, enumerate. destruct jigs as [|x m]; [simpl; lia|].
  change (zip (seq 0 (length (x :: m))) (x :: m))
    with ((0, x) :: zip (seq 1 (length m)) m).
  cbn [foldl]. replace (0 <? Z.of_nat 0)%Z with false by done. cbn [andb].
  rewrite (blocked_loop schedule (len (x :: m)) m 1 estimate); [done|lia|].
  unfold len. simpl. lia.
Qed.

Lemma blocked_jigs_estimate_count (schedule : list string) (racks : list (string * list string))
    (acc : Z) :
  foldl (λ acc rack, blocked_in_rack schedule acc rack.2) acc racks
  = (acc + 2 * Z.of_nat (sum_list_with
             (λ rack, length (filter (λ j, j ∈ schedule) (interior rack.2))) racks))%Z.
Proof.
  revert acc. induction racks as [|rack racks IH]; intros acc; simpl; [lia|].
  rewrite IH, blocked_in_rack_count. lia.
Qed.

(** C5 (as stated, it fails). In a state whose current flight lists three
    incoming jigs, none of them in the aircraft any more, the code still
    counts the three: it returns 8, where the five counts of the claim sum
    to 5 (and to 6 if the current flight is counted among the remaining
    ones). *)
Lemma standard_heuristic_counts_unloaded_jigs :
  incoming_not_unloaded unloaded_state two_flights = 0 ∧
  standard_heuristic unloaded_state two_flights = 8%Z ∧
  standard_as_specified unloaded_state two_flights = 5%Z ∧
  (standard_as_specified unloaded_state two_flights + 1 = 6)%Z.
Proof. repeat split; vm_compute; reflexivity. Qed.

(** C5 (amended). For every state and instance the standard heuristic is
    the sum of (a) the number of incoming jigs listed for the current
    flight, whether or not they are still in the aircraft (0 past the last
    flight), (b) the number of entries of the production schedule whose jig
    is loaded with a part that is not produced yet, (c) the number of
    outgoing jigs of the current flight and of all later flights, (d) the
    number of flights after the current one, and (e) 2 for every position
    of a rack, neither its first nor its last, that holds a jig of the
    production schedule. *)
Theorem standard_heuristic_is_sum_of_counts (st : BelugaState) (inst : instance_data) :
  standard_heuristic st inst
  = Z.of_nat (incoming_listed st inst + parts_pending st inst
              + outgoing_required st inst + flights_after_current st inst
              + 2 * interior_schedule_jigs st inst).
Proof.
  unfold standard_heuristic. cbv zeta.
  unfold parts_to_produce, blocked_jigs_estimate, len.
  rewrite parts_to_produce_length, total_outgoing_jigs_sum.
  rewrite blocked_jigs_estimate_count.
  unfold incoming_listed, parts_pending, outgoing_required, flights_after_current,
    interior_schedule_jigs.
  rewrite length_drop.
  destruct (flights inst !! current_flight_idx st) as [f|] eqn:Hf; simpl length; lia.
Qed.

End Heuristic_Theory.

(** ** More on domain reduction *)

Module CSP_Run_Theory.
Import CSP CSP_Run CSP_Theory.

Section Runs.
Context {V : Type} `{EqDecision V}.
Implicit Types (doms : gmap string (list V)) (c : V → V → bool).
Implicit Types (cs : list (@constraint V)) (arcs : list (string * string)).

Lemma shrinks_refl doms : shrinks doms doms.
Proof. split; [done|]. intros v d' Hv. by exists d'. Qed.

Lemma shrinks_trans doms1 doms2 doms3 :
  shrinks doms1 doms2 → shrinks doms2 doms3 → shrinks doms1 doms3.
Proof.
  intros [Hd12 H12] [Hd23 H23]. split; [congruence|].
  intros v d3 Hv. destruct (H23 v d3 Hv) as (d2 & Hv2 & Hs23).
  destruct (H12 v d2 Hv2) as (d1 & Hv1 & Hs12).
  exists d1. split; [done|]. by etrans.
Qed.

Lemma revised_domain_sublist c (d2 d1 : list V) : revised_domain c d2 d1 `sublist_of` d1.
Proof.
  unfold revised_domain. destruct (decide _); [|done].
  unfold supported_values. apply sublist_filter.
Qed.

Lemma shrinks_insert doms v (d d' : list V) :
  doms !! v = Some d → d' `sublist_of` d → shrinks doms (<[v := d']> doms).
Proof.
  intros Hv Hsub. split.
  - apply dom_insert_lookup_L. by eexists.
  - intros w dw. destruct (decide (w = v)) as [->|Hne].
    + rewrite lookup_insert_eq. intros [= <-]. by exists d.
    + rewrite lookup_insert_ne by done. intros Hw. by exists dw.
Qed.

Lemma find_constraint_mentions cs var1 var2 c :
  find_constraint cs var1 var2 = Some c →
  ∃ k, k ∈ cs ∧ (cvar1 k = var1 ∨ cvar2 k = var1).
Proof.
  unfold find_constraint. destruct (find (relevant var1 var2) cs) as [k|] eqn:Hfind; [|done].
  intros _. apply find_some in Hfind as [Hin Hrel].
  exists k. split; [by apply list_elem_of_In|].
  unfold relevant in Hrel. apply bool_decide_eq_true in Hrel. tauto.
Qed.

(** A turn of the loop only shrinks, and leaves alone the variables that
    no constraint mentions. *)
Lemma reduce_step_shrinks cs arcs doms arcs' doms' :
  reduce_step cs arcs doms = Continue arcs' doms' →
  shrinks doms doms' ∧ ∀ v, unconstrained cs v → doms' !! v = doms !! v.
Proof.
  intros Hstep.
  destruct (reduce_step_cases cs arcs doms)
    as [[_ E]|(v1 & v2 & a & -> & [E|(c & d1 & d2 & H1 & _ & Hc & E)])].
  - congruence.
  - rewrite E in Hstep. injection Hstep as <- <-. split; [apply shrinks_refl|done].
  - assert (doms' = <[v1 := revised_domain c d2 d1]> doms) as ->.
    { destruct E as [E|E]; rewrite E in Hstep; by injection Hstep as <- <-. }
    split; [apply (shrinks_insert doms v1 d1); [done|apply revised_domain_sublist]|].
    intros v Hv. apply lookup_insert_ne. intros <-.
    destruct (find_constraint_mentions cs v1 v2 c Hc) as (k & Hk & Hm).
    unfold unconstrained in Hv. rewrite Forall_forall in Hv.
    destruct (Hv k Hk). tauto.
Qed.

Lemma reduce_loop_shrinks cs fuel arcs doms pops r :
  reduce_loop fuel cs arcs doms pops = Some r →
  ∃ d n, r = Ok (Report true d n) ∧ shrinks doms d ∧
         ∀ v, unconstrained cs v → d !! v = doms !! v.
Proof.
  revert arcs doms pops. induction fuel as [|fuel IH]; intros arcs doms pops; [done|].
  rewrite reduce_loop_S.
  destruct (reduce_step cs arcs doms) as [arcs' doms'|b doms'|e] eqn:Hstep.
  - intros Hrun. destruct (IH _ _ _ Hrun) as (d & n & -> & Hs & Hu).
    destruct (reduce_step_shrinks cs arcs doms arcs' doms' Hstep) as [Hs' Hu'].
    exists d, n. split; [done|]. split; [by eapply shrinks_trans|].
    intros v Hv. by rewrite Hu, Hu'.
  - apply reduce_step_return in Hstep as (-> & -> & ->).
    intros [= <-]. exists doms, pops. split; [done|]. split; [apply shrinks_refl|done].
  - by apply reduce_step_no_fault in Hstep.
Qed.

Lemma supported_values_all c (d2 d1 : list V) :
  unsupported c d2 d1 = [] → supported_values c d2 d1 = d1.
Proof.
  unfold unsupported, supported_values.
  induction d1 as [|y d1 IH]; [done|].
  rewrite !filter_cons. destruct (decide (satisfies c d2 y = false)); [done|].
  intros Hnil. rewrite decide_True by done. by rewrite IH.
Qed.

Lemma reduce_step_supported cs var1 var2 arcs doms :
  arc_supported cs doms (var1, var2) →
  reduce_step cs ((var1, var2) :: arcs) doms = Continue arcs doms.
Proof.
  unfold arc_supported. simpl. intros Hsup.
  destruct (decide _) as [Hout|Hin]; [done|].
  destruct (find_constraint cs var1 var2) as [c|] eqn:Hc; [|done].
  assert (is_Some (doms !! var1)) as [d1 H1].
  { apply elem_of_dom. destruct (decide (var1 ∈ dom doms)); [done|]. exfalso; apply Hin; by left. }
  assert (is_Some (doms !! var2)) as [d2 H2].
  { apply elem_of_dom. destruct (decide (var2 ∈ dom doms)); [done|]. exfalso; apply Hin; by right. }
  rewrite H1, H2 in Hsup.
  rewrite (revise_domain_eq doms var1 var2 c d1 d2 H1 H2), Hsup.
  rewrite bool_decide_eq_false_2 by (intros Hne; by apply Hne).
  destruct (decide _); [|done].
  by rewrite (supported_values_all c d2 d1 Hsup), insert_id.
Qed.

Lemma reduce_loop_supported cs fuel arcs doms pops :
  Forall (arc_supported cs doms) arcs → length arcs < fuel →
  reduce_loop fuel cs arcs doms pops = Some (Ok (Report true doms (pops + length arcs))).
Proof.
  revert arcs pops. induction fuel as [|fuel IH]; intros arcs pops Hall Hfuel; [lia|].
  rewrite reduce_loop_S. destruct arcs as [|[var1 var2] arcs].
  - simpl. by rewrite Nat.add_0_r.
  - apply Forall_cons in Hall as [Hsup Hall].
    rewrite (reduce_step_supported cs var1 var2 arcs doms Hsup).
    rewrite IH by (simpl in Hfuel; done || lia). simpl. do 3 f_equal. lia.
Qed.

End Runs.

(** X1. [reduce_domains] never returns False: a run that ends returns
    True, whatever the domains and constraints (also from an empty domain).
    It keeps the variables, leaves every variable a sub-sequence of the
    values it had, and does not touch a variable that no constraint
    mentions. *)
Theorem reduce_domains_only_shrinks {V : Type} `{EqDecision V}
    (cs : list (@constraint V)) (doms : gmap string (list V)) (fuel : nat)
    (r : result (@report V)) :
  reduce_domains fuel cs doms = Some r →
  ∃ d n, r = Ok (Report true d n) ∧
         dom d = dom doms ∧
         (∀ v d', d !! v = Some d' → ∃ d0, doms !! v = Some d0 ∧ d' `sublist_of` d0) ∧
         (∀ v, unconstrained cs v → d !! v = doms !! v).
Proof.
  intros Hrun. destruct (reduce_loop_shrinks cs fuel _ doms 0 r Hrun)
    as (d & n & -> & [Hdom Hsub] & Hu).
  by exists d, n.
Qed.

Lemma reduce_domains_only_shrinks_witness :
  reduce_domains 6 chain_cs chain_doms
    = Some (Ok (Report true settled_doms 5)) ∧
  ∃ d n, Ok (Report true settled_doms 5) = Ok (Report true d n) ∧
         dom d = dom chain_doms ∧
         (∀ v d', d !! v = Some d' → ∃ d0, chain_doms !! v = Some d0 ∧ d' `sublist_of` d0) ∧
         (∀ v, unconstrained chain_cs v → d !! v = chain_doms !! v).
Proof.
  assert (reduce_domains 6 chain_cs chain_doms = Some (Ok (Report true settled_doms 5)))
    as Hrun by (vm_compute; reflexivity).
  split; [exact Hrun|].
  exact (reduce_domains_only_shrinks chain_cs chain_doms 6 _ Hrun).
Defined.

(** X2. When every value of the first variable of every initial arc has a
    support in the domain of the second, [reduce_domains] pops each of the
    two arcs per constraint once, re-enqueues nothing, changes no domain
    and returns True. *)
Theorem reduce_domains_on_supported_arcs {V : Type} `{EqDecision V}
    (cs : list (@constraint V)) (doms : gmap string (list V)) (fuel : nat) :
  Forall (arc_supported cs doms) (initial_arcs cs) →
  2 * length cs < fuel →
  reduce_domains fuel cs doms = Some (Ok (Report true doms (2 * length cs))).
Proof.
  intros Hall Hfuel. unfold reduce_domains.
  rewrite reduce_loop_supported; [|done|by rewrite length_initial_arcs].
  by rewrite length_initial_arcs.
Qed.

Lemma reduce_domains_on_supported_arcs_witness :
  Forall (arc_supported chain_cs settled_doms) (initial_arcs chain_cs) ∧
  2 * length chain_cs < 5 ∧
  reduce_domains 5 chain_cs settled_doms
    = Some (Ok (Report true settled_doms (2 * length chain_cs))).
Proof.
  assert (Forall (arc_supported chain_cs settled_doms) (initial_arcs chain_cs)) as Hall.
  { repeat constructor; vm_compute; reflexivity. }
  assert (2 * length chain_cs < 5) as Hfuel by (simpl; lia).
  split; [exact Hall|]. split; [exact Hfuel|].
  exact (reduce_domains_on_supported_arcs chain_cs settled_doms 5 Hall Hfuel).
Defined.

End CSP_Run_Theory.

(** ** More on the frontier *)

Module PQ_Run_Theory.
Import PQ PQ_Theory.

Section Queue.
Context {A : Type}.
Implicit Types (lt : A → A → bool) (e m : @entry A) (l rest : list (@entry A)).
Implicit Types (q : @PriorityQueue A).

Lemma by_count_NoDup l : StronglySorted by_count l → NoDup l.
Proof.
  induction 1 as [|e l Hs IH Hall]; constructor; [|done].
  intros Hin. rewrite Forall_forall in Hall. specialize (Hall e Hin).
  unfold by_count in Hall. lia.
Qed.

Lemma pop_min_length lt l e rest :
  pop_min lt l = Some (e, rest) → length l = S (length rest).
Proof.
  intros Hpop. destruct (pop_min_elem lt l e rest Hpop) as (_ & Hperm & _).
  by rewrite Hperm.
Qed.

Lemma pop_twice_ordered lt l e1 r1 e2 r2 :
  StronglySorted by_count l →
  pop_min lt l = Some (e1, r1) → pop_min lt r1 = Some (e2, r2) →
  e2 ∈ l ∧ (priority e1 <= priority e2)%Q ∧
  ((priority e1 == priority e2)%Q → count e1 < count e2).
Proof.
  intros Hs Hp1 Hp2.
  destruct (pop_min_elem lt l e1 r1 Hp1) as (_ & Hperm & Hsub).
  destruct (pop_min_elem lt r1 e2 r2 Hp2) as (He2 & _ & _).
  destruct (pop_min_least lt l e1 r1 Hs Hp1) as (_ & Hleast & Hdiff).
  pose proof (by_count_NoDup l Hs) as Hnd. rewrite Hperm in Hnd.
  apply NoDup_cons in Hnd as [Hnotin _].
  assert (e2 ≠ e1) as Hne by (intros ->; done).
  split; [by apply Hsub|].
  destruct (Hleast e2 (Hsub e2 He2)) as [Hlt|[Heq Hle]].
  - split; [lra|]. intros Heq. lra.
  - split; [lra|]. intros _. specialize (Hdiff e2 (Hsub e2 He2) Hne). lia.
Qed.

End Queue.


(** X4. [get] raises IndexError exactly on a queue for which [is_empty]
    holds; otherwise it takes one entry out and leaves the counter. [put]
    adds one entry and advances the counter, so a queue is never empty
    after a [put], and an item put on a new queue is the one [get] returns,
    leaving the queue empty with its counter at 1. *)
Theorem get_fails_only_on_empty_queue {A : Type} (lt : A → A → bool)
    (q : @PriorityQueue A) (x : A) (p : Q) :
  (is_empty q = true ↔ get lt q = Raise IndexError) ∧
  (∀ y q', get lt q = Ok (y, q') →
     length (elements q) = S (length (elements q')) ∧ entry_count q' = entry_count q) ∧
  is_empty (put x p q) = false ∧
  length (elements (put x p q)) = S (length (elements q)) ∧
  entry_count (put x p q) = S (entry_count q) ∧
  get lt (put x p new_queue) = Ok (x, {| elements := []; entry_count := 1 |}).
Proof.
  split; [|split; [|split; [|split; [|split]]]].
  - unfold is_empty, get. rewrite bool_decide_eq_true, length_zero_iff_nil.
    rewrite <- (pop_min_nil lt).
    destruct (pop_min lt (elements q)) as [[e rest]|]; split; done.
  - intros y q'. unfold get.
    destruct (pop_min lt (elements q)) as [[e rest]|] eqn:Hpop; [|done].
    intros [= <- <-]. simpl. split; [by eapply pop_min_length|done].
  - unfold is_empty, put. simpl. apply bool_decide_eq_false.
    rewrite length_app. simpl. lia.
  - unfold put. simpl. rewrite length_app. simpl. lia.
  - done.
  - done.
Qed.

Lemma get_fails_only_on_empty_queue_witness :
  get Nat.ltb demo_queue = Ok (7, {| elements := [(2%Q, 0, 9); (1%Q, 2, 8)]; entry_count := 3 |}) ∧
  length (elements demo_queue) = S (length [(2%Q, 0, 9); (1%Q, 2, 8)]) ∧
  3 = entry_count demo_queue.
Proof.
  assert (get Nat.ltb demo_queue
          = Ok (7, {| elements := [(2%Q, 0, 9); (1%Q, 2, 8)]; entry_count := 3 |}))
    as Hg by reflexivity.
  split; [exact Hg|].
  exact (proj1 (proj2 (get_fails_only_on_empty_queue Nat.ltb demo_queue 0 0%Q)) _ _ Hg).
Defined.

End PQ_Run_Theory.

(** ** More on the searches *)

Module Search_Run_Theory.
Import PQ Search Search_Run PQ_Theory Search_Theory.

Section Searches.
Context {State Action : Type} `{Countable State}.
Variable W : @world State Action.
Variable O : @oracle State Action.
Implicit Types (st : @store State Action _ _) (s p g cur : State) (a : Action).
Implicit Types (o : @outcome Action) (t : @tracking State).

(** *** The length of a plan *)

Lemma walk_back_length init st :
  inv W init st →
  ∀ fuel cur (acc r : list Action) c,
    cost_so_far st !! cur = Some c →
    walk_back fuel (came_from st) cur acc = Some r →
    length r ≤ length acc + c.
Proof.
  intros (_ & _ & H2 & _ & _).
  induction fuel as [|fuel IH]; intros cur acc r c Hc; simpl; [done|].
  destruct (came_from st !! cur) as [[p a]|] eqn:Hcf.
  - destruct (H2 cur p a Hcf) as (_ & cs & cp & Hcs & Hcp & Hlt).
    rewrite Hc in Hcs. injection Hcs as <-.
    intros Hwalk. specialize (IH p (acc ++ [a]) r cp Hcp Hwalk).
    rewrite length_app in IH. simpl in IH. lia.
  - intros [= <-]. lia.
Qed.

Lemma plan_outcome_length init st cur c plan :
  inv W init st → cost_so_far st !! cur = Some c →
  plan_outcome (came_from st) cur = Found plan → length plan ≤ c.
Proof.
  intros Hinv Hc. unfold plan_outcome, reconstruct_plan.
  destruct (walk_back _ _ _ _) as [r|] eqn:Hwalk; [|done].
  simpl. intros [= <-]. rewrite length_reverse.
  pose proof (walk_back_length init st Hinv _ _ _ _ _ Hc Hwalk). simpl in *. lia.
Qed.

(** One action further costs one more. *)
Lemma relax_costs init n variant cur st a :
  (keeps W init (λ s, s = cur) st ∧ costs_within (S n) st ∧
   ∃ c, cost_so_far st !! cur = Some c ∧ c ≤ n) →
  match relax W variant cur st a with
  | Next st' =>
      keeps W init (λ s, s = cur) st' ∧ costs_within (S n) st' ∧
      ∃ c, cost_so_far st' !! cur = Some c ∧ c ≤ n
  | Stop _ => False
  end.
Proof.
  intros (Hkeeps & Hwithin & c & Hc & Hle).
  pose proof (relax_keeps W init (λ s, s = cur) variant cur st a eq_refl Hkeeps) as Hr.
  unfold relax in *.
  destruct (get_next_state W cur a) as [next|] eqn:Hstep; [|by eauto].
  rewrite Hc in *.
  destruct (improves _ next (c + 1)) eqn:Himp; [|by eauto].
  split; [done|]. split.
  - unfold costs_within. simpl. intros s c'. destruct (decide (s = next)) as [->|Hne].
    + rewrite lookup_insert_eq. intros [= <-]. lia.
    + rewrite lookup_insert_ne by done. apply Hwithin.
  - simpl. exists c. split; [|done]. rewrite lookup_insert_ne; [done|].
    intros ->. unfold improves in Himp. rewrite Hc in Himp.
    apply bool_decide_eq_true in Himp. lia.
Qed.

Lemma astar_loop_plan_length init variant prioritize time_limit fuel iterations st plan :
  inv W init st → costs_within iterations st →
  astar_loop W O variant prioritize time_limit fuel iterations st = Found plan →
  length plan < iterations + fuel.
Proof.
  revert iterations st. induction fuel as [|fuel IH]; intros iterations st Hinv Hwithin; simpl.
  { done. }
  destruct (is_empty (open_set st)) eqn:Hempty; [done|].
  destruct (timed_out O time_limit (S iterations)); [done|].
  destruct (get_nonempty (state_lt W) _ Hempty) as (cur & open' & Hget). rewrite Hget.
  destruct (get_known W init st cur open' Hinv Hget) as [[c Hc] Hinv'].
  destruct (is_goal_state W cur) eqn:Hgoal.
  { intros Hplan. pose proof (plan_outcome_length init st cur c plan Hinv Hc Hplan).
    specialize (Hwithin cur c Hc). lia. }
  pose proof (for_each_invariant (relax W variant cur)
    (λ x, keeps W init (λ s, s = cur) x ∧ costs_within (S iterations) x ∧
          ∃ c, cost_so_far x !! cur = Some c ∧ c ≤ iterations) (λ _, False)
    (get_all_possible_actions W prioritize cur) (popped st open')) as Hfor.
  destruct (for_each _ _ _) as [st'|o].
  - destruct Hfor as ([Hinv'' _] & Hwithin' & _).
    + intros x y Hx. by apply relax_costs.
    + split; [split; [done|by intros s ->; eexists]|]. split.
      * intros s c' Hs. specialize (Hwithin s c' Hs). lia.
      * exists c. split; [done|]. by apply (Hwithin cur).
    + intros Hplan. specialize (IH (S iterations) st' Hinv'' Hwithin' Hplan). lia.
  - exfalso. apply Hfor.
    + intros x y Hx. by apply relax_costs.
    + split; [split; [done|by intros s ->; eexists]|]. split.
      * intros s c' Hs. specialize (Hwithin s c' Hs). lia.
      * exists c. split; [done|]. by apply (Hwithin cur).
Qed.

(** *** The searches on a goal state *)

Lemma get_single (x : State) (lt : State → State → bool) :
  get lt (put x 0%Q new_queue) = Ok (x, {| elements := []; entry_count := 1 |}).
Proof. reflexivity. Qed.

Lemma plan_outcome_empty cur :
  plan_outcome (∅ : gmap State (State * Action)) cur = Found [].
Proof.
  unfold plan_outcome, reconstruct_plan. rewrite map_size_empty. simpl.
  by rewrite lookup_empty.
Qed.

Lemma astar_on_goal initial_state max_iterations time_limit variant prioritize :
  is_goal_state W initial_state = true → (0 < max_iterations)%Z →
  timed_out O time_limit 1 = false →
  astar_search W O initial_state max_iterations time_limit variant prioritize = Found [].
Proof.
  intros Hgoal Hmax Hto. unfold astar_search.
  destruct (Z.to_nat max_iterations) as [|fuel] eqn:E; [lia|].
  unfold initial_store. simpl. rewrite Hto, Hgoal. apply plan_outcome_empty.
Qed.

Lemma hybrid_on_goal initial_state max_iterations time_limit variant prioritize
    use_fc use_rr threshold :
  is_goal_state W initial_state = true → (0 < max_iterations)%Z →
  timed_out O time_limit 1 = false →
  hybrid_astar_search W O initial_state max_iterations time_limit variant prioritize
    use_fc use_rr threshold = {| hy_outcome := Found []; hy_local_calls := [] |}.
Proof.
  intros Hgoal Hmax Hto. unfold hybrid_astar_search.
  destruct (Z.to_nat max_iterations) as [|fuel] eqn:E; [lia|].
  unfold initial_store. simpl. rewrite Hto, Hgoal. by rewrite plan_outcome_empty.
Qed.

(** *** Plans of the hybrid search *)

Lemma hybrid_relax_stop init known variant use_fc cur st a :
  known cur → keeps W init known st →
  match hybrid_relax W variant use_fc cur st a with
  | Next st' => keeps W init known st'
  | Stop o => o = Crashed ZeroDivisionError ∨ o = Diverges
  end.
Proof.
  intros Hk Hkeeps.
  pose proof (hybrid_relax_keeps W init known variant use_fc cur st a Hk Hkeeps) as Hr.
  unfold hybrid_relax in *.
  destruct (get_next_state W cur a) as [next|]; [|done].
  destruct (cost_so_far st !! cur) as [c|]; [|done].
  destruct (improves _ next (c + 1)); [|done].
  unfold hybrid_h_value in *. destruct use_fc; [|done].
  destruct (check_forward W next) as [[success sizes]|]; [|by right].
  destruct (adjust_heuristic _ success sizes) as [h|e] eqn:Hadj; [done|].
  left. unfold adjust_heuristic in Hadj.
  destruct (min_size sizes) as [m|]; [|done].
  destruct (decide (m = 0)); [|by destruct (decide (0 < m))].
  by injection Hadj as <-.
Qed.

Lemma hybrid_loop_sound init variant prioritize use_fc use_rr threshold
    time_limit fuel iterations st t :
  inv W init st →
  (∀ s, s ∈ restart_states t → is_Some (cost_so_far st !! s)) →
  hybrid_sound W init (hybrid_loop W O variant prioritize use_fc use_rr threshold
                         time_limit fuel iterations st t).
Proof.
  revert iterations st t. induction fuel as [|fuel IH]; intros iterations st t Hinv Ht; simpl.
  { done. }
  destruct (is_empty (open_set st)) eqn:Hempty; [done|].
  destruct (timed_out O time_limit (S iterations)); [by left; left|].
  destruct (get_nonempty (state_lt W) _ Hempty) as (cur & open' & Hget). rewrite Hget.
  destruct (get_elem _ _ _ _ Hget) as (_ & (e & He & <-) & Hsub).
  pose proof Hinv as (_ & _ & _ & _ & H4).
  destruct (is_goal_state W (item e)) eqn:Hgoal.
  { left. apply plan_outcome_sound; [done|by apply H4|done]. }
  destruct (stagnation_block W O use_rr threshold (S iterations) (item e) t open')
    as [[t' frontier] flag] eqn:Hblock.
  destruct (stagnation_block_known W O (λ s, is_Some (cost_so_far st !! s))
              _ _ _ _ _ _ _ _ _ (H4 e He) Ht (λ e' He', H4 e' (Hsub e' He')) Hblock)
    as [Ht' Hfrontier].
  destruct flag.
  - apply IH; [by apply inv_popped|done].
  - pose proof (for_each_invariant (hybrid_relax W variant use_fc (item e))
      (keeps W init (λ s, s = item e ∨ s ∈ restart_states t'))
      (λ o, o = Crashed ZeroDivisionError ∨ o = Diverges)
      (hybrid_possible_actions W prioritize use_fc (item e)) (popped st frontier)) as Hfor.
    destruct (for_each _ _ _) as [st'|o].
    + destruct Hfor as [Hinv' Hknown'].
      * intros x y Hx. apply hybrid_relax_stop; [by left|done].
      * split; [by apply inv_popped|]. intros s [->|Hs]; [by apply H4|by apply Ht'].
      * apply IH; [done|]. intros s Hs. apply Hknown'. by right.
    + right. apply Hfor.
      * intros x y Hx. apply hybrid_relax_stop; [by left|done].
      * split; [by apply inv_popped|]. intros s [->|Hs]; [by apply H4|by apply Ht'].
Qed.

(** *** Paths of Local Search *)

Lemma ls_enqueue_paths init cur path visited (queue : list (State * list Action)) a :
  replay W init path = Some cur →
  (∀ s pth, (s, pth) ∈ queue → replay W init pth = Some s) →
  ∀ s pth, (s, pth) ∈ ls_enqueue W cur path visited queue a → replay W init pth = Some s.
Proof.
  intros Hcur Hq s pth. unfold ls_enqueue.
  destruct (get_next_state W cur a) as [next|] eqn:Hstep; [|apply Hq].
  destruct (decide (next ∉ visited)); [|apply Hq].
  intros [Hin|Hin]%elem_of_app; [by apply Hq|].
  apply list_elem_of_singleton in Hin. injection Hin as -> ->.
  rewrite replay_app, Hcur. simpl. by rewrite Hstep.
Qed.

Lemma ls_enqueue_all_paths init cur path visited (actions : list Action)
    (queue : list (State * list Action)) :
  replay W init path = Some cur →
  (∀ s pth, (s, pth) ∈ queue → replay W init pth = Some s) →
  ∀ s pth, (s, pth) ∈ foldl (ls_enqueue W cur path visited) queue actions →
          replay W init pth = Some s.
Proof.
  intros Hcur. revert queue. induction actions as [|a actions IH]; intros queue Hq; simpl.
  - done.
  - apply IH. by apply ls_enqueue_paths.
Qed.

Lemma ls_finish_reaches init (lst : @ls_state State Action _ _) plan :
  ls_inv W init lst → ls_plan (ls_finish lst) = Some plan → ls_reaches W init plan.
Proof.
  intros (_ & Hbest & Hscore & Hbetter). unfold ls_finish. simpl.
  destruct (best_path lst) as [|a path] eqn:E; [done|].
  intros [= <-]. exists (best_state lst). split; [done|]. right.
  split; [done|]. rewrite <- Hscore. by apply Hbetter.
Qed.

Lemma ls_loop_reaches init time_limit fuel iterations (lst : @ls_state State Action _ _) plan :
  ls_inv W init lst →
  ls_plan (ls_loop W O time_limit fuel iterations lst) = Some plan →
  ls_reaches W init plan.
Proof.
  revert iterations lst. induction fuel as [|fuel IH]; intros iterations lst Hinv; simpl.
  { by apply ls_finish_reaches. }
  destruct (states_to_explore lst) as [|[cur path] rest] eqn:Hq.
  { by apply ls_finish_reaches. }
  destruct (ls_timed_out O time_limit (S iterations)).
  { by apply ls_finish_reaches. }
  pose proof Hinv as (Hpaths & Hbest & Hscore & Hbetter).
  assert (replay W init path = Some cur) as Hcur.
  { apply Hpaths. rewrite Hq. by left. }
  assert (∀ s pth, (s, pth) ∈ rest → replay W init pth = Some s) as Hrest.
  { intros s pth Hin. apply Hpaths. rewrite Hq. by right. }
  destruct (decide (cur ∈ visited_states lst)).
  { apply IH. by repeat split. }
  destruct (is_goal_state W cur) eqn:Hgoal.
  { simpl. intros [= <-]. exists cur. split; [done|by left]. }
  apply IH. unfold ls_inv. simpl. split; [|split; [|split]].
  - by apply ls_enqueue_all_paths.
  - by destruct (Qltb _ _).
  - by destruct (Qltb _ _).
  - destruct (Qltb (best_score lst) (evaluate_state W cur)) eqn:Hlt; [|done].
    intros _. apply Qltb_lt in Hlt.
    assert (evaluate_state W init <= best_score lst)%Q as Hle; [|lra].
    destruct (best_path lst) as [|b bp] eqn:Hbp.
    + simpl in Hbest. injection Hbest as Hb. rewrite Hscore, <- Hb. apply Qle_refl.
    + apply Qlt_le_weak, Hbetter. done.
Qed.

Lemma ls_inv_initial init : ls_inv W init (ls_initial W init).
Proof.
  unfold ls_inv, ls_initial. simpl. split; [|done].
  by intros s path [= -> ->]%list_elem_of_singleton.
Qed.

End Searches.

(** X5. A plan returned by [astar_search] is shorter than the iteration
    cap: the state popped in iteration k has a recorded cost of at most
    k - 1, and the plan is no longer than that cost. *)
Theorem astar_plan_shorter_than_cap {State Action : Type} `{Countable State}
    (W : @world State Action) (O : @oracle State Action)
    (initial_state : State) (max_iterations : Z) (time_limit : Q)
    (variant : string) (prioritize : bool) (plan : list Action) :
  astar_search W O initial_state max_iterations time_limit variant prioritize = Found plan →
  (Z.of_nat (length plan) < max_iterations)%Z.
Proof.
  intros Hplan. unfold astar_search in Hplan.
  apply (astar_loop_plan_length W O initial_state) in Hplan.
  - lia.
  - apply inv_initial.
  - intros s c. unfold initial_store. simpl.
    intros [_ <-]%lookup_singleton_Some. lia.
Qed.

Lemma astar_plan_shorter_than_cap_witness :
  astar_search demo_world (demo_oracle 1) 0 3 60 "standard" false = Found [true; true] ∧
  (Z.of_nat (length [true; true]) < 3)%Z.
Proof.
  assert (astar_search demo_world (demo_oracle 1) 0 3 60 "standard" false
          = Found [true; true]) as Hrun by (vm_compute; reflexivity).
  split; [exact Hrun|].
  exact (astar_plan_shorter_than_cap demo_world (demo_oracle 1) 0 3 60 "standard" false
           [true; true] Hrun).
Defined.

(** X6. On an initial state that satisfies [is_goal_state], with an
    iteration cap of at least 1 and the time limit not exceeded at the first
    check, both A* searches return the empty plan at the first pop; the
    hybrid search does so without calling Local Search. *)
Theorem searches_return_empty_plan_on_goal {State Action : Type} `{Countable State}
    (W : @world State Action) (O : @oracle State Action)
    (initial_state : State) (max_iterations : Z) (time_limit : Q)
    (variant : string) (prioritize use_forward_checking use_random_restarts : bool)
    (random_restart_threshold : Z) :
  is_goal_state W initial_state = true → (0 < max_iterations)%Z →
  timed_out O time_limit 1 = false →
  astar_search W O initial_state max_iterations time_limit variant prioritize = Found [] ∧
  hybrid_astar_search W O initial_state max_iterations time_limit variant prioritize
    use_forward_checking use_random_restarts random_restart_threshold
  = {| hy_outcome := Found []; hy_local_calls := [] |}.
Proof.
  intros Hgoal Hmax Hto. split; [by apply astar_on_goal|by apply hybrid_on_goal].
Qed.

Lemma searches_return_empty_plan_on_goal_witness :
  is_goal_state demo_world 2 = true ∧ (0 < 10)%Z ∧
  timed_out (demo_oracle 1) 60 1 = false ∧
  astar_search demo_world (demo_oracle 1) 2 10 60 "standard" false = Found [] ∧
  hybrid_astar_search demo_world (demo_oracle 1) 2 10 60 "standard" false true true 3000
  = {| hy_outcome := Found []; hy_local_calls := [] |}.
Proof.
  assert (is_goal_state demo_world 2 = true) as Hgoal by reflexivity.
  assert (0 < 10)%Z as Hmax by lia.
  assert (timed_out (demo_oracle 1) 60 1 = false) as Hto by reflexivity.
  split; [exact Hgoal|]. split; [exact Hmax|]. split; [exact Hto|].
  exact (searches_return_empty_plan_on_goal demo_world (demo_oracle 1) 2 10 60
           "standard" false true true 3000 Hgoal Hmax Hto).
Defined.

(** X7. Every path that [BelugaLocalSearch.solve] returns replays from the
    initial state without an invalid action, and ends either in a state
    that satisfies [is_goal_state] or, the path being non-empty, in a state
    that [_evaluate_state] scores strictly higher than the initial state. *)
Theorem local_search_path_replays {State Action : Type} `{Countable State}
    (W : @world State Action) (O : @oracle State Action)
    (initial_state : State) (time_limit : Q) (max_iterations : Z) (plan : list Action) :
  ls_plan (solve W O initial_state time_limit max_iterations) = Some plan →
  ∃ s, replay W initial_state plan = Some s ∧
       (is_goal_state W s = true ∨
        (plan ≠ [] ∧ (evaluate_state W initial_state < evaluate_state W s)%Q)).
Proof.
  intros Hplan. unfold solve in Hplan.
  apply (ls_loop_reaches W O initial_state) in Hplan; [done|apply ls_inv_initial].
Qed.

Lemma local_search_path_replays_witness :
  ls_plan (solve climb_world (demo_oracle 1) 0 5 3) = Some [true; true] ∧
  ∃ s, replay climb_world 0 [true; true] = Some s ∧
       (is_goal_state climb_world s = true ∨
        ([true; true] ≠ [] ∧ (evaluate_state climb_world 0%nat < evaluate_state climb_world s)%Q)).
Proof.
  assert (ls_plan (solve climb_world (demo_oracle 1) 0 5 3) = Some [true; true])
    as Hrun by (vm_compute; reflexivity).
  split; [exact Hrun|].
  exact (local_search_path_replays climb_world (demo_oracle 1) 0 5 3 [true; true] Hrun).
Defined.

(** X8. Every plan that [hybrid_astar_search] returns replays from the
    initial state without an invalid action. A plan returned from the main
    loop (no call of Local Search), also after random restarts, ends in a
    state that satisfies [is_goal_state]; a plan taken over from Local
    Search ends in a goal state or in a state that scores strictly higher
    than the initial one. *)
Theorem hybrid_plan_replays {State Action : Type} `{Countable State}
    (W : @world State Action) (O : @oracle State Action)
    (initial_state : State) (max_iterations : Z) (time_limit : Q)
    (variant : string) (prioritize use_forward_checking use_random_restarts : bool)
    (random_restart_threshold : Z) (plan : list Action) :
  let r := hybrid_astar_search W O initial_state max_iterations time_limit variant
             prioritize use_forward_checking use_random_restarts
             random_restart_threshold in
  hy_outcome r = Found plan →
  ∃ s, replay W initial_state plan = Some s ∧
       (hy_local_calls r = [] → is_goal_state W s = true) ∧
       (is_goal_state W s = true ∨
        (plan ≠ [] ∧ (evaluate_state W initial_state < evaluate_state W s)%Q)).
Proof.
  intros r. subst r. unfold hybrid_astar_search.
  pose proof (hybrid_loop_sound W O initial_state variant prioritize
    use_forward_checking use_random_restarts random_restart_threshold time_limit
    (Z.to_nat max_iterations) 0 (initial_store initial_state) initial_tracking
    (inv_initial W initial_state)) as Hloop.
  destruct (hybrid_loop _ _ _ _ _ _ _ _ _ _ _ _) as [o timeout|].
  - simpl. intros ->.
    destruct Hloop as [[Hnone|(plan' & g & Hfound & Hreplay & Hgoal)]|[Hz|Hd]];
      try discriminate; [by intros s Hs; inversion Hs|].
    injection Hfound as <-. exists g. split; [done|]. split; [done|by left].
  - destruct use_random_restarts; simpl; [|done].
    generalize 5000%Z. intros cap.
    destruct (ls_plan (solve W O initial_state (fallback_budget time_limit) cap))
      as [[|a plan']|] eqn:Hls; try done.
    intros [= <-].
    unfold solve in Hls.
    destruct (ls_loop_reaches W O initial_state (fallback_budget time_limit)
                (Z.to_nat cap) 0 (ls_initial W initial_state) (a :: plan')
                (ls_inv_initial W initial_state) Hls)
      as (s & Hreplay & Hend).
    exists s. split; [done|]. split; [done|done].
Qed.

Lemma hybrid_plan_replays_witness :
  hy_outcome (hybrid_astar_search demo_world (demo_oracle 1) 0 1 60 "standard"
                false true true 3000) = Found [true; true] ∧
  ∃ s, replay demo_world 0 [true; true] = Some s ∧
       (hy_local_calls (hybrid_astar_search demo_world (demo_oracle 1) 0 1 60 "standard"
                          false true true 3000) = [] →
        is_goal_state demo_world s = true) ∧
       (is_goal_state demo_world s = true ∨
        ([true; true] ≠ [] ∧ (evaluate_state demo_world 0%nat < evaluate_state demo_world s)%Q)).
Proof.
  assert (hy_outcome (hybrid_astar_search demo_world (demo_oracle 1) 0 1 60 "standard"
                        false true true 3000) = Found [true; true])
    as Hrun by (vm_compute; reflexivity).
  split; [exact Hrun|].
  exact (hybrid_plan_replays demo_world (demo_oracle 1) 0 1 60 "standard"
           false true true 3000 [true; true] Hrun).
Defined.

End Search_Run_Theory.

(** ** The heuristic variants *)

Module Heuristic_Variants_Theory.
Import Beluga Heuristic Heuristic_Variants Heuristic_Theory.

Lemma foldl_nonneg {A : Type} (f : Z → A → Z) (l : list A) (z : Z) :
  (∀ acc x, 0 ≤ acc → 0 ≤ f acc x)%Z → (0 ≤ z)%Z → (0 ≤ foldl f z l)%Z.
Proof.
  intros Hf. revert z. induction l as [|x l IH]; intros z Hz; simpl; [done|].
  apply IH. by apply Hf.
Qed.

Lemma foldl_ge {A : Type} (f : Z → A → Z) (l : list A) (z : Z) :
  (∀ acc x, acc ≤ f acc x)%Z → (z ≤ foldl f z l)%Z.
Proof.
  intros Hf. revert z. induction l as [|x l IH]; intros z; simpl; [done|].
  etrans; [apply (Hf z x)|apply IH].
Qed.

(** Counting one per interior position of the schedule. *)
Lemma blocked_count_loop (schedule : list string) (n : Z) (m : list string) (k : nat) (acc : Z) :
  0 < k → n = Z.of_nat (k + length m) →
  foldl (λ acc '(i, jig_id),
           if ((0 <? Z.of_nat i)%Z && (Z.of_nat i <? n - 1)%Z
               && bool_decide (jig_id ∈ schedule))%bool
           then (acc + 1)%Z else acc)
    acc (zip (seq k (length m)) m)
  = (acc + Z.of_nat (length (filter (λ j, j ∈ schedule) (removelast m))))%Z.
Proof.
  revert k acc. induction m as [|y m IH]; intros k acc Hk Hn; [simpl; lia|].
  destruct m as [|z m'].
  - simpl. replace (Z.of_nat k <? n - 1)%Z with false
      by (symmetry; apply Z.ltb_ge; simpl in Hn; lia).
    rewrite andb_false_r. simpl. lia.
  - change (removelast (y :: z :: m')) with (y :: removelast (z :: m')).
    change (zip (seq k (length (y :: z :: m'))) (y :: z :: m'))
      with ((k, y) :: zip (seq (S k) (length (z :: m'))) (z :: m')).
    rewrite filter_cons. cbn [foldl].
    rewrite IH by (simpl in *; lia).
    replace (0 <? Z.of_nat k)%Z with true by (symmetry; apply Z.ltb_lt; lia).
    replace (Z.of_nat k <? n - 1)%Z with true
      by (symmetry; apply Z.ltb_lt; simpl in Hn; lia).
    simpl andb. destruct (decide (y ∈ schedule)) as [Hy|Hy].
    + rewrite bool_decide_eq_true_2 by done. simpl length. lia.
    + rewrite bool_decide_eq_false_2 by done. lia.
Qed.

Lemma blocked_count_in_rack_count (schedule jigs : list string) (count : Z) :
  blocked_count_in_rack schedule count jigs
  = (count + Z.of_nat (length (filter (λ j, j ∈ schedule) (interior jigs))))%Z.
Proof.
  unfold blocked_count_in_rack, enumerate. destruct jigs as [|x m]; [simpl; lia|].
  change (zip (seq 0 (length (x :: m))) (x :: m))
    with ((0, x) :: zip (seq 1 (length m)) m).
  cbn [foldl]. replace (0 <? Z.of_nat 0)%Z with false by done. cbn [andb].
  rewrite (blocked_count_loop schedule (len (x :: m)) m 1 count); [done|lia|].
  unfold len. simpl. lia.
Qed.

Lemma blocked_jigs_count (schedule : list string) (racks : list (string * list string))
    (acc : Z) :
  foldl (λ acc rack, blocked_count_in_rack schedule acc rack.2) acc racks
  = (acc + Z.of_nat (sum_list_with
             (λ rack, length (filter (λ j, j ∈ schedule) (interior rack.2))) racks))%Z.
Proof.
  revert acc. induction racks as [|rack racks IH]; intros acc; simpl; [lia|].
  rewrite IH, blocked_count_in_rack_count. lia.
Qed.

Lemma index_of_lt (x : string) (l : list string) (i : nat) :
  index_of x l = Some i → i < length l.
Proof.
  unfold index_of. destruct (list_find _ l) as [[j y]|] eqn:Hfind; [|done].
  simpl. intros [= <-]. apply list_find_Some in Hfind as (Hj & _ & _).
  by apply lookup_lt_Some in Hj.
Qed.

Section ProductionFocus.
Variable get_jig_location : BelugaState → string → option string.

(** An unproduced part costs at least 1. *)
Lemma part_cost_positive (st : BelugaState) (schedule : list string) (idx : nat) (jig_id : string) :
  (1 ≤ part_cost get_jig_location st schedule idx jig_id)%Z.
Proof.
  unfold part_cost. cbv zeta.
  set (pc := foldl _ 1%Z (take idx schedule)).
  assert (1 ≤ pc)%Z as Hpc.
  { subst pc. apply foldl_ge. intros acc x. destruct (pending st x); lia. }
  destruct (get_jig_location st jig_id) as [loc|]; [|done].
  destruct (decide _); [done|].
  destruct (index_of jig_id (rack_get st loc)) as [i|] eqn:Hi; [|done].
  apply index_of_lt in Hi. unfold len. lia.
Qed.

Lemma line_cost_ge (st : BelugaState) (cost : Z) (schedule : list string) :
  (cost ≤ line_cost get_jig_location st cost schedule)%Z.
Proof.
  unfold line_cost. apply foldl_ge. intros acc [idx jig_id].
  destruct (pending st jig_id); [|done].
  pose proof (part_cost_positive st schedule idx jig_id). lia.
Qed.

Lemma total_outgoing_jigs_nonneg (st : BelugaState) (fl : list flight) :
  (0 ≤ total_outgoing_jigs st fl)%Z.
Proof. rewrite total_outgoing_jigs_sum. lia. Qed.

Lemma production_focus_nonneg (st : BelugaState) (inst : instance_data) :
  (0 ≤ production_focus_heuristic get_jig_location st inst)%Z.
Proof.
  unfold production_focus_heuristic. cbv zeta.
  assert (0 ≤ foldl (line_cost get_jig_location st) 0 (production_lines inst))%Z as Hlines.
  { apply foldl_nonneg; [|done]. intros acc x Hacc.
    pose proof (line_cost_ge st acc x). lia. }
  pose proof (total_outgoing_jigs_nonneg st (flights inst)).
  destruct (flights inst !! current_flight_idx st); unfold len; lia.
Qed.

End ProductionFocus.

Lemma weighted_heuristic_counts (st : BelugaState) (inst : instance_data) :
  (weighted_heuristic st inst ==
   2 * inject_Z (Z.of_nat (parts_pending st inst))
   + inject_Z (Z.of_nat (outgoing_required st inst))
   + (1 # 2) * inject_Z (Z.of_nat (flights_after_current st inst))
   + 2 * inject_Z (Z.of_nat (interior_schedule_jigs st inst)))%Q.
Proof.
  unfold weighted_heuristic. cbv zeta.
  unfold parts_to_produce, blocked_jigs, len.
  rewrite parts_to_produce_length, total_outgoing_jigs_sum, blocked_jigs_count.
  unfold parts_pending, outgoing_required, flights_after_current, interior_schedule_jigs.
  rewrite length_drop. simpl length. rewrite Z.add_0_l.
  replace (Z.max 0 (Z.of_nat (length (flights inst)) - Z.of_nat (current_flight_idx st) - 1))
    with (Z.of_nat (length (flights inst) - S (current_flight_idx st))) by lia.
  rewrite Nat.add_0_l. lra.
Qed.

Lemma inject_nat_nonneg (n : nat) : (0 <= inject_Z (Z.of_nat n))%Q.
Proof. change 0%Q with (inject_Z 0). rewrite <- Zle_Qle. lia. Qed.

Lemma standard_heuristic_nonneg (st : BelugaState) (inst : instance_data) :
  (0 ≤ standard_heuristic st inst)%Z.
Proof.
  unfold standard_heuristic. cbv zeta.
  pose proof (total_outgoing_jigs_nonneg st (flights inst)).
  unfold blocked_jigs_estimate. rewrite blocked_jigs_estimate_count.
  destruct (flights inst !! current_flight_idx st); unfold len; lia.
Qed.

(** X9. The weighted heuristic is twice the number of schedule entries
    with an unproduced part, plus the outgoing jigs of the current and later
    flights, plus half the number of flights after the current one, plus
    twice the number of interior rack positions that hold a schedule jig:
    an interior jig weighs 2, exactly as in the standard heuristic, and the
    incoming jigs of the current flight are not counted at all. *)
Theorem weighted_heuristic_is_weighted_sum (st : BelugaState) (inst : instance_data) :
  (weighted_heuristic st inst ==
   2 * inject_Z (Z.of_nat (parts_pending st inst))
   + inject_Z (Z.of_nat (outgoing_required st inst))
   + (1 # 2) * inject_Z (Z.of_nat (flights_after_current st inst))
   + 2 * inject_Z (Z.of_nat (interior_schedule_jigs st inst)))%Q ∧
  (inject_Z (standard_heuristic st inst) - weighted_heuristic st inst ==
   inject_Z (Z.of_nat (incoming_listed st inst))
   - inject_Z (Z.of_nat (parts_pending st inst))
   + (1 # 2) * inject_Z (Z.of_nat (flights_after_current st inst)))%Q.
Proof.
  split; [apply weighted_heuristic_counts|].
  rewrite weighted_heuristic_counts.
  unfold standard_heuristic. cbv zeta.
  unfold parts_to_produce, blocked_jigs_estimate, len.
  rewrite parts_to_produce_length, total_outgoing_jigs_sum, blocked_jigs_estimate_count.
  unfold incoming_listed, parts_pending, outgoing_required, flights_after_current,
    interior_schedule_jigs.
  rewrite length_drop. simpl length.
  replace (Z.max 0 (Z.of_nat (length (flights inst)) - Z.of_nat (current_flight_idx st) - 1))
    with (Z.of_nat (length (flights inst) - S (current_flight_idx st))) by lia.
  destruct (flights inst !! current_flight_idx st) as [f|].
  - rewrite ?Z.add_0_l, ?inject_Z_plus, ?inject_Z_mult. simpl.
    change (inject_Z 2) with 2%Q. lra.
  - rewrite ?Z.add_0_l, ?inject_Z_plus, ?inject_Z_mult. simpl.
    change (inject_Z 2) with 2%Q. change (inject_Z (Z.of_nat 0)) with 0%Q. lra.
Qed.

(** X10. Whatever the variant string, the state, the instance and the
    location oracle, [heuristic] returns a value that is not negative; any
    string other than "weighted" and "production_focus" selects the
    standard heuristic. *)
Theorem heuristic_is_never_negative
    (get_jig_location : BelugaState → string → option string)
    (st : BelugaState) (inst : instance_data) (variant : string) :
  (0 <= heuristic get_jig_location st inst variant)%Q ∧
  (variant ≠ "weighted" → variant ≠ "production_focus" →
   heuristic get_jig_location st inst variant = inject_Z (standard_heuristic st inst)).
Proof.
  split.
  - unfold heuristic. destruct (decide _); [|destruct (decide _)].
    + rewrite weighted_heuristic_counts.
      pose proof (inject_nat_nonneg (parts_pending st inst)).
      pose proof (inject_nat_nonneg (outgoing_required st inst)).
      pose proof (inject_nat_nonneg (flights_after_current st inst)).
      pose proof (inject_nat_nonneg (interior_schedule_jigs st inst)).
      lra.
    + change 0%Q with (inject_Z 0). rewrite <- Zle_Qle. apply production_focus_nonneg.
    + change 0%Q with (inject_Z 0). rewrite <- Zle_Qle. apply standard_heuristic_nonneg.
  - intros H1 H2. unfold heuristic. by rewrite !decide_False.
Qed.

Lemma heuristic_is_never_negative_witness :
  "greedy" ≠ "weighted" ∧ "greedy" ≠ "production_focus" ∧
  heuristic rack0_location unloaded_state two_flights "greedy"
  = inject_Z (standard_heuristic unloaded_state two_flights).
Proof.
  assert ("greedy" ≠ "weighted") as H1 by discriminate.
  assert ("greedy" ≠ "production_focus") as H2 by discriminate.
  split; [exact H1|]. split; [exact H2|].
  exact (proj2 (heuristic_is_never_negative rack0_location unloaded_state two_flights
                  "greedy") H1 H2).
Defined.

End Heuristic_Variants_Theory.

(** ** The queries on a CSP *)

Module CSP_Queries_Theory.
Import CSP CSP_Queries CSP_Theory.

Section Queries.
Context {V : Type} `{EqDecision V}.
Implicit Types (doms : gmap string (list V)) (c : V → V → bool).
Implicit Types (cs : list (@constraint V)).

Lemma consistent_pair_true c (d1 d2 : list V) :
  consistent_pair c d1 d2 = true ↔ ∃ a b, a ∈ d1 ∧ b ∈ d2 ∧ c a b = true.
Proof.
  unfold consistent_pair. rewrite existsb_exists. split.
  - intros (a & Ha & Hex). apply existsb_exists in Hex as (b & Hb & Hc).
    exists a, b. by rewrite <- !list_elem_of_In in *.
  - intros (a & b & Ha & Hb & Hc). exists a. split; [by apply list_elem_of_In|].
    apply existsb_exists. exists b. split; [by apply list_elem_of_In|done].
Qed.

Lemma arc_consistent_true cs doms :
  arc_consistent cs doms = true ↔
  ∀ var1 var2 d1 d2 k,
    doms !! var1 = Some d1 → doms !! var2 = Some d2 → var1 ≠ var2 → k ∈ cs →
    relevant var1 var2 k = true → consistent_pair (cfunc k) d1 d2 = true.
Proof.
  unfold arc_consistent. rewrite forallb_forall. split.
  - intros Hall var1 var2 d1 d2 k H1 H2 Hne Hk Hrel.
    specialize (Hall (var1, d1)). simpl in Hall.
    rewrite forallb_forall in Hall.
    specialize (Hall ltac:(by apply list_elem_of_In, elem_of_map_to_list) (var2, d2)).
    simpl in Hall. rewrite decide_False in Hall by done.
    rewrite forallb_forall in Hall.
    specialize (Hall ltac:(by apply list_elem_of_In, elem_of_map_to_list) k).
    rewrite Hrel in Hall. apply Hall. by apply list_elem_of_In.
  - intros Hall [var1 d1] Hin1. apply list_elem_of_In, elem_of_map_to_list in Hin1.
    apply forallb_forall. intros [var2 d2] Hin2.
    apply list_elem_of_In, elem_of_map_to_list in Hin2.
    destruct (decide (var1 = var2)); [done|].
    apply forallb_forall. intros k Hk. apply list_elem_of_In in Hk.
    destruct (relevant var1 var2 k) eqn:Hrel; [|done].
    by apply (Hall var1 var2).
Qed.

Lemma list_min_foldl (l : list nat) (x : nat) :
  foldl Nat.min x l = x ∨ foldl Nat.min x l ∈ l.
Proof.
  revert x. induction l as [|y l IH]; intros x; simpl; [by left|].
  destruct (IH (x `min` y)) as [Heq|Hin].
  - rewrite Heq. destruct (Nat.min_spec x y) as [[_ ->]|[_ ->]]; [by left|right; by left].
  - right. by right.
Qed.

Lemma list_min_elem (l : list nat) (m : nat) : Search.list_min l = Some m → m ∈ l.
Proof.
  destruct l as [|x l]; [done|]. simpl. intros [= <-].
  destruct (list_min_foldl l x) as [->|Hin]; [by left|by right].
Qed.

Lemma min_size_positive doms (m : nat) :
  all_nonempty doms → Search.min_size (domain_sizes doms) = Some m → 0 < m.
Proof.
  intros Hne Hmin. unfold Search.min_size in Hmin.
  apply list_min_elem in Hmin.
  apply list_elem_of_fmap in Hmin as ([v n] & -> & Hin).
  apply elem_of_map_to_list in Hin. unfold domain_sizes in Hin.
  apply lookup_fmap_Some in Hin as (d & <- & Hd). simpl.
  specialize (Hne v d Hd). simpl in Hne. destruct d; [done|simpl; lia].
Qed.

Lemma min_size_none (sizes : gmap string nat) :
  Search.min_size sizes = None → sizes = ∅.
Proof.
  unfold Search.min_size, Search.list_min.
  destruct ((map_to_list sizes).*2) eqn:E; [|done]. intros _.
  apply fmap_nil_inv in E. by apply map_to_list_empty_iff.
Qed.

End Queries.

(** X11. [arc_consistent] returns True exactly when, for every constraint
    on two different variables that both have a domain, some pair of values
    satisfies the constraint function with the value of the first variable
    passed first, and some pair satisfies it with the value of the second
    variable passed first: both orders of the pair of variables are visited
    and the same function is applied without swapping its arguments. *)
Theorem arc_consistent_checks_both_orders {V : Type} `{EqDecision V}
    (cs : list (@constraint V)) (doms : gmap string (list V)) :
  arc_consistent cs doms = true ↔
  ∀ k d1 d2,
    k ∈ cs → cvar1 k ≠ cvar2 k →
    doms !! cvar1 k = Some d1 → doms !! cvar2 k = Some d2 →
    (∃ a b, a ∈ d1 ∧ b ∈ d2 ∧ cfunc k a b = true) ∧
    (∃ a b, a ∈ d1 ∧ b ∈ d2 ∧ cfunc k b a = true).
Proof.
  rewrite arc_consistent_true. split.
  - intros Hall k d1 d2 Hk Hne H1 H2. split.
    + apply consistent_pair_true. apply (Hall (cvar1 k) (cvar2 k) d1 d2 k); try done.
      apply bool_decide_eq_true. by left.
    + assert (consistent_pair (cfunc k) d2 d1 = true) as Hc.
      { apply (Hall (cvar2 k) (cvar1 k) d2 d1 k); try done.
        apply bool_decide_eq_true. by right. }
      apply consistent_pair_true in Hc as (b & a & Hb & Ha & Hc). by exists a, b.
  - intros Hall var1 var2 d1 d2 k H1 H2 Hne Hk Hrel.
    apply bool_decide_eq_true in Hrel as [[<- <-]|[<- <-]].
    + apply consistent_pair_true. by apply (Hall k d1 d2).
    + destruct (Hall k d2 d1 Hk ltac:(done) H2 H1) as [_ (a & b & Ha & Hb & Hc)].
      apply consistent_pair_true. by exists b, a.
Qed.

Lemma arc_consistent_checks_both_orders_witness :
  arc_consistent order_cs order_doms = true ∧
  ("a", "b", Nat.ltb) ∈ order_cs ∧
  cvar1 ("a", "b", Nat.ltb) ≠ cvar2 ("a", "b", Nat.ltb) ∧
  order_doms !! "a" = Some [0; 1] ∧ order_doms !! "b" = Some [0; 1] ∧
  (∃ a b, a ∈ [0; 1] ∧ b ∈ [0; 1] ∧ Nat.ltb a b = true) ∧
  (∃ a b, a ∈ [0; 1] ∧ b ∈ [0; 1] ∧ Nat.ltb b a = true).
Proof.
  assert (arc_consistent order_cs order_doms = true) as Hac by (vm_compute; reflexivity).
  assert (("a", "b", Nat.ltb) ∈ order_cs) as Hk by (by left).
  assert (cvar1 ("a", "b", Nat.ltb) ≠ cvar2 ("a", "b", Nat.ltb)) as Hne by discriminate.
  assert (order_doms !! "a" = Some [0; 1]) as H1 by reflexivity.
  assert (order_doms !! "b" = Some [0; 1]) as H2 by reflexivity.
  split; [exact Hac|]. split; [exact Hk|]. split; [exact Hne|].
  split; [exact H1|]. split; [exact H2|].
  exact (proj1 (arc_consistent_checks_both_orders order_cs order_doms) Hac
           ("a", "b", Nat.ltb) [0; 1] [0; 1] Hk Hne H1 H2).
Defined.

(** X12. Forward checking of a CSP whose domains are all non-empty (as
    those that [BelugaCSP] builds are) never reports an inconsistency and
    never leaves a domain of size 0, however many arcs it revises. Hence
    the adjustment of the heuristic in the hybrid search never raises
    ZeroDivisionError and never adds one of its penalties of 10: it adds
    twice 0.1 / smallest domain size, or nothing when there is no
    variable. When the constraints have no cycle the check ends, within
    the bound on the arcs popped, with this result. *)
Theorem forward_check_never_penalises {V : Type} `{EqDecision V}
    (cs : list (@constraint V)) (doms : gmap string (list V)) (fuel : nat) (h : Q) :
  all_nonempty doms →
  (∀ r, check_forward fuel cs doms = Some r →
     ∃ sizes,
       r = Ok (true, sizes) ∧
       ((∃ m, Search.min_size sizes = Some m ∧ 0 < m ∧
              Search.adjust_heuristic h true sizes
              = Ok (h + Search.bonus m + Search.bonus m)%Q) ∨
        (sizes = ∅ ∧ Search.adjust_heuristic h true sizes = Ok h))) ∧
  (∀ rk, ranked rk cs → work_bound rk cs < fuel →
     ∃ d n sizes,
       reduce_domains fuel cs doms = Some (Ok (Report true d n)) ∧
       n ≤ work_bound rk cs ∧
       sizes = domain_sizes d ∧
       check_forward fuel cs doms = Some (Ok (true, sizes)) ∧
       ((∃ m, Search.min_size sizes = Some m ∧ 0 < m ∧
              Search.adjust_heuristic h true sizes
              = Ok (h + Search.bonus m + Search.bonus m)%Q) ∨
        (sizes = ∅ ∧ Search.adjust_heuristic h true sizes = Ok h))).
Proof.
  intros Hne.
  assert (∀ d : gmap string (list V), all_nonempty d →
            (∃ m, Search.min_size (domain_sizes d) = Some m ∧ 0 < m ∧
                  Search.adjust_heuristic h true (domain_sizes d)
                  = Ok (h + Search.bonus m + Search.bonus m)%Q) ∨
            (domain_sizes d = ∅ ∧ Search.adjust_heuristic h true (domain_sizes d) = Ok h))
    as Hadjust.
  { intros d Hd. destruct (Search.min_size (domain_sizes d)) as [m|] eqn:Hmin.
    - left. exists m. pose proof (min_size_positive d m Hd Hmin) as Hm.
      split; [done|]. split; [done|].
      by apply Search_Theory.adjust_heuristic_positive.
    - right. split; [by apply min_size_none|].
      unfold Search.adjust_heuristic. by rewrite Hmin. }
  split.
  - intros r. unfold check_forward.
    destruct (reduce_domains fuel cs doms) as [r'|] eqn:Hrun; [|done].
    destruct (reduce_loop_result cs fuel _ doms 0 r' Hne Hrun) as (d & n & -> & Hd).
    intros [= <-]. simpl. exists (domain_sizes d). split; [done|]. by apply Hadjust.
  - intros rk Hrk Hfuel.
    destruct (reduce_loop_terminates rk cs fuel (initial_arcs cs) doms 0 Hrk Hfuel)
      as (d & n & Hrun & Hn).
    destruct (reduce_loop_result cs fuel _ doms 0 _ Hne Hrun) as (d' & n' & [= <- <-] & Hd).
    exists d, n, (domain_sizes d). split; [done|].
    split; [unfold work_bound; lia|]. split; [done|].
    split; [unfold check_forward, reduce_domains; by rewrite Hrun|]. by apply Hadjust.
Qed.

Lemma forward_check_never_penalises_witness :
  all_nonempty chain_doms ∧ ranked chain_rank chain_cs ∧
  work_bound chain_rank chain_cs < 17 ∧
  reduce_domains 17 chain_cs chain_doms
    = Some (Ok (Report true (<["x" := [0]]> chain_doms) 5)) ∧
  check_forward 17 chain_cs chain_doms
    = Some (Ok (true, {[ "x" := 1; "y" := 1; "u" := 1 ]})) ∧
  Search.adjust_heuristic 3 true {[ "x" := 1; "y" := 1; "u" := 1 ]}
    = Ok (3 + (1 # 10) + (1 # 10))%Q ∧
  ∃ d n sizes,
    reduce_domains 17 chain_cs chain_doms = Some (Ok (Report true d n)) ∧
    n ≤ work_bound chain_rank chain_cs ∧
    sizes = domain_sizes d ∧
    check_forward 17 chain_cs chain_doms = Some (Ok (true, sizes)) ∧
    ((∃ m, Search.min_size sizes = Some m ∧ 0 < m ∧
           Search.adjust_heuristic 3 true sizes
           = Ok (3 + Search.bonus m + Search.bonus m)%Q) ∨
     (sizes = ∅ ∧ Search.adjust_heuristic 3 true sizes = Ok 3%Q)).
Proof.
  assert (all_nonempty chain_doms) as Hne by solve_nonempty.
  assert (ranked chain_rank chain_cs) as Hrk by (repeat constructor; vm_compute; lia).
  assert (work_bound chain_rank chain_cs < 17) as Hfuel by (vm_compute; lia).
  split; [exact Hne|]. split; [exact Hrk|]. split; [exact Hfuel|].
  split; [vm_compute; reflexivity|]. split; [vm_compute; reflexivity|].
  split; [vm_compute; reflexivity|].
  exact (proj2 (forward_check_never_penalises chain_cs chain_doms 17 3%Q Hne)
           chain_rank Hrk Hfuel).
Defined.

End CSP_Queries_Theory.

(** ** The action generators *)

Module Actions_Theory.
Import Beluga Actions.

(** *** The stable sort *)

Section Sort.
Context {A : Type}.
Implicit Types (key : A → nat) (l : list A) (x : A).

Lemma insert_by_perm key x l : insert_by key x l ≡ₚ x :: l.
Proof.
  induction l as [|y l IH]; simpl; [done|].
  destruct (decide _); [done|]. rewrite IH. apply Permutation_swap.
Qed.

Lemma sort_by_perm key l : sort_by key l ≡ₚ l.
Proof.
  unfold sort_by. induction l as [|x l IH]; simpl; [done|].
  by rewrite insert_by_perm, IH.
Qed.

Lemma insert_by_sorted key x l :
  StronglySorted (λ a b, key a ≤ key b) l →
  StronglySorted (λ a b, key a ≤ key b) (insert_by key x l).
Proof.
  induction 1 as [|y l Hs IH Hall]; simpl; [repeat constructor|].
  destruct (decide (key x ≤ key y)) as [Hle|Hgt].
  - constructor; [by constructor|].
    constructor; [done|]. eapply Forall_impl; [exact Hall|]. simpl. intros; lia.
  - constructor; [done|].
    rewrite insert_by_perm. constructor; [lia|done].
Qed.

Lemma sort_by_sorted key l : StronglySorted (λ a b, key a ≤ key b) (sort_by key l).
Proof.
  unfold sort_by. induction l as [|x l IH]; simpl; [constructor|].
  by apply insert_by_sorted.
Qed.

(** Entries of the same key keep their order. *)
Lemma insert_by_stable key (k : nat) x l :
  filter (λ y, key y = k) (insert_by key x l) = filter (λ y, key y = k) (x :: l).
Proof.
  induction l as [|y l IH]; simpl; [done|].
  destruct (decide (key x ≤ key y)) as [Hle|Hgt]; [done|].
  rewrite filter_cons, IH, !filter_cons.
  destruct (decide (key y = k)), (decide (key x = k)); try done. lia.
Qed.

Lemma sort_by_stable key (k : nat) l :
  filter (λ y, key y = k) (sort_by key l) = filter (λ y, key y = k) l.
Proof.
  unfold sort_by. induction l as [|x l IH]; simpl; [done|].
  by rewrite insert_by_stable, !filter_cons, IH.
Qed.

Lemma insert_by_fmap {B : Type} (f : A → B) key (key' : B → nat) x l :
  key x = key' (f x) → (∀ y, y ∈ l → key y = key' (f y)) →
  f <$> insert_by key x l = insert_by key' (f x) (f <$> l).
Proof.
  intros Hx. induction l as [|y l IH]; intros Hl; simpl; [done|].
  rewrite <- Hx, <- (Hl y) by (by left).
  destruct (decide _); [done|]. simpl. f_equal. apply IH.
  intros z Hz. apply Hl. by right.
Qed.

Lemma sort_by_fmap {B : Type} (f : A → B) key (key' : B → nat) l :
  (∀ y, y ∈ l → key y = key' (f y)) →
  f <$> sort_by key l = sort_by key' (f <$> l).
Proof.
  unfold sort_by. induction l as [|x l IH]; intros Hl; simpl; [done|].
  rewrite (insert_by_fmap f key key').
  - f_equal. apply IH. intros y Hy. apply Hl. by right.
  - apply Hl. by left.
  - intros y Hy. apply Hl. right.
    fold (sort_by key l) in Hy. by rewrite sort_by_perm in Hy.
Qed.

End Sort.

(** *** What is generated *)

Lemma fmap_bind_list {A B C : Type} (f : B → C) (g : A → list B) (l : list A) :
  f <$> (l ≫= g) = l ≫= (λ x, f <$> g x).
Proof.
  induction l as [|x l IH]; [done|].
  rewrite !bind_cons, fmap_app. by rewrite IH.
Qed.

Lemma edge_jigs_elem (jigs : list string) (jig_id : string) :
  jig_id ∈ edge_jigs jigs ↔ head jigs = Some jig_id ∨ last jigs = Some jig_id.
Proof.
  unfold edge_jigs. destruct jigs as [|j jigs]; simpl.
  - rewrite elem_of_nil. split; [done|]. by intros [|].
  - destruct (last (j :: jigs)) as [l|] eqn:Hlast.
    + rewrite !elem_of_cons, elem_of_nil. split.
      * intros [->|[->|[]]]; [by left|by right].
      * intros [[= ->]|[= ->]]; [by left|right; by left].
    + by apply last_None in Hlast.
Qed.

Lemma edge_jigs_in (jigs : list string) (jig_id : string) :
  jig_id ∈ edge_jigs jigs → jig_id ∈ jigs.
Proof.
  rewrite edge_jigs_elem. intros [Hh|Hl].
  - destruct jigs; [done|]. injection Hh as ->. by left.
  - apply last_Some in Hl as (l' & ->). apply elem_of_app. right. by left.
Qed.

Section Generation.
Variable is_valid_action : BelugaState → action → bool.
Variable inst : instance_data.
Implicit Types (st : BelugaState) (a : action) (tag : string).

Lemma keep_valid_elem st a a' tag tag' :
  (a', tag') ∈ keep_valid is_valid_action st a tag ↔
  a' = a ∧ tag' = tag ∧ is_valid_action st a = true.
Proof.
  unfold keep_valid. destruct (is_valid_action st a).
  - rewrite list_elem_of_singleton. split; [by intros [= -> ->]|by intros (-> & -> & _)].
  - rewrite elem_of_nil. split; [done|]. by intros (_ & _ & ?).
Qed.

Lemma move_candidates_elem tm st a tag :
  (a, tag) ∈ move_candidates is_valid_action tm st ↔
  ∃ jig_id from_rack to_rack,
    a = MoveJigBetweenRacks jig_id from_rack to_rack ∧ tag = tm jig_id to_rack ∧
    offered inst st a ∧ is_valid_action st a = true.
Proof.
  unfold move_candidates. rewrite list_elem_of_bind. split.
  - intros ([from_rack jigs] & Hin & Hrack). simpl in Hin.
    apply list_elem_of_bind in Hin as (jig_id & Hin & Hedge).
    destruct (decide (jig_id ∈ jigs)); [|by apply elem_of_nil in Hin].
    apply list_elem_of_bind in Hin as (to_rack & Hin & Hto).
    destruct (decide (from_rack ≠ to_rack)); [|by apply elem_of_nil in Hin].
    apply keep_valid_elem in Hin as (-> & -> & Hvalid).
    exists jig_id, from_rack, to_rack. do 2 (split; [done|]). split; [|done].
    simpl. split; [done|]. split; [done|]. exists jigs. split; [done|].
    by apply edge_jigs_elem.
  - intros (jig_id & from_rack & to_rack & -> & -> & Hoff & Hvalid).
    destruct Hoff as (Hne & Hto & jigs & Hrack & Hedge).
    exists (from_rack, jigs). split; [|done]. simpl.
    apply list_elem_of_bind. exists jig_id. apply edge_jigs_elem in Hedge.
    split; [|done]. rewrite decide_True by (by apply edge_jigs_in).
    apply list_elem_of_bind. exists to_rack. split; [|done].
    rewrite decide_True by done. by apply keep_valid_elem.
Qed.

Lemma produce_candidates_elem st a tag :
  (a, tag) ∈ produce_candidates is_valid_action inst st ↔
  ∃ jig_id rack_id,
    a = SendJigToProduction jig_id rack_id ∧ tag = "produce" ∧
    offered inst st a ∧ is_valid_action st a = true.
Proof.
  unfold produce_candidates. rewrite list_elem_of_bind. split.
  - intros ([rack_id jigs] & Hin & Hrack). simpl in Hin.
    destruct jigs as [|jig_id jigs]; [by apply elem_of_nil in Hin|].
    destruct (_ && _) eqn:Hcond; [|by apply elem_of_nil in Hin].
    apply andb_true_iff in Hcond as [Hsched%bool_decide_eq_true Hloaded].
    apply keep_valid_elem in Hin as (-> & -> & Hvalid).
    exists jig_id, rack_id. do 2 (split; [done|]). split; [|done].
    simpl. split; [done|]. split; [done|]. by exists (jig_id :: jigs).
  - intros (jig_id & rack_id & -> & -> & (Hsched & Hloaded & jigs & Hrack & Hhead) & Hvalid).
    exists (rack_id, jigs). split; [|done]. simpl.
    destruct jigs as [|j jigs]; [done|]. injection Hhead as ->.
    rewrite bool_decide_eq_true_2, Hloaded by done. simpl. by apply keep_valid_elem.
Qed.

Lemma return_candidates_elem tr st a tag :
  (a, tag) ∈ return_candidates is_valid_action tr st ↔
  ∃ jig_id rack_id,
    a = ReturnEmptyJigFromFactory jig_id rack_id ∧ tag = tr rack_id ∧
    offered inst st a ∧ is_valid_action st a = true.
Proof.
  unfold return_candidates. rewrite list_elem_of_bind. split.
  - intros (jig_id & Hin & Hfac%elem_of_elements).
    destruct ((status_of st jig_id).1) eqn:Hloaded; [by apply elem_of_nil in Hin|].
    apply list_elem_of_bind in Hin as (rack_id & Hin & Hrack).
    apply keep_valid_elem in Hin as (-> & -> & Hvalid).
    exists jig_id, rack_id. do 2 (split; [done|]). by split.
  - intros (jig_id & rack_id & -> & -> & (Hfac & Hloaded & Hrack) & Hvalid).
    exists jig_id. split; [|by apply elem_of_elements]. rewrite Hloaded.
    apply list_elem_of_bind. exists rack_id. split; [|done]. by apply keep_valid_elem.
Qed.

Lemma flight_candidates_elem st a tag :
  (a, tag) ∈ flight_candidates is_valid_action inst st ↔
  a = ProcessNextFlight ∧ tag = "flight" ∧
  offered inst st a ∧ is_valid_action st a = true.
Proof.
  unfold flight_candidates.
  destruct (_ <? _)%Z eqn:Hlt.
  - apply Z.ltb_lt in Hlt. rewrite keep_valid_elem. split.
    + intros (-> & -> & Hvalid). repeat split; [simpl; lia|done].
    + by intros (-> & -> & _ & Hvalid).
  - apply Z.ltb_ge in Hlt. rewrite elem_of_nil. split; [done|].
    intros (-> & _ & Hoff & _). simpl in Hoff. lia.
Qed.

(** An action is among the candidates exactly when it has the shape the
    generator offers and is valid; its tag is a function of the action. *)
Lemma all_actions_elem tm tr st a tag :
  (a, tag) ∈ all_actions is_valid_action inst tm tr st ↔
  offered inst st a ∧ is_valid_action st a = true ∧
  tag = match a with
        | MoveJigBetweenRacks jig_id _ to_rack => tm jig_id to_rack
        | SendJigToProduction _ _ => "produce"
        | ReturnEmptyJigFromFactory _ rack_id => tr rack_id
        | ProcessNextFlight => "flight"
        end.
Proof.
  unfold all_actions. rewrite !elem_of_app.
  rewrite move_candidates_elem, produce_candidates_elem, return_candidates_elem,
    flight_candidates_elem.
  split.
  - intros [(j & f & t & -> & -> & Hoff & Hv)|[(j & r & -> & -> & Hoff & Hv)|
            [(j & r & -> & -> & Hoff & Hv)|(-> & -> & Hoff & Hv)]]]; done.
  - intros (Hoff & Hv & ->). destruct a as [j f t|j r|j r|].
    + left. by exists j, f, t.
    + right; left. by exists j, r.
    + right; right; left. by exists j, r.
    + right; right; right. done.
Qed.

Lemma all_actions_fst tm tr st a :
  a ∈ (all_actions is_valid_action inst tm tr st).*1 ↔
  offered inst st a ∧ is_valid_action st a = true.
Proof.
  rewrite list_elem_of_fmap. split.
  - intros ([a' tag] & -> & Hin). apply all_actions_elem in Hin. tauto.
  - intros [Hoff Hv]. eexists (a, _). split; [done|]. apply all_actions_elem. done.
Qed.

(** The tags do not change which actions are listed, nor their order. *)
Lemma all_actions_tags tm tr tm' tr' st :
  (all_actions is_valid_action inst tm tr st).*1
  = (all_actions is_valid_action inst tm' tr' st).*1.
Proof.
  unfold all_actions. rewrite !fmap_app.
  assert ((move_candidates is_valid_action tm st).*1
          = (move_candidates is_valid_action tm' st).*1) as ->.
  2: assert ((return_candidates is_valid_action tr st).*1
             = (return_candidates is_valid_action tr' st).*1) as ->; [|done].
  - unfold move_candidates. rewrite !fmap_bind_list. apply list_bind_ext; [|done].
    intros [from_rack jigs]. simpl. rewrite !fmap_bind_list. apply list_bind_ext; [|done].
    intros jig_id. destruct (decide _); [|done].
    rewrite !fmap_bind_list. apply list_bind_ext; [|done].
    intros to_rack. destruct (decide _); [|done].
    unfold keep_valid. by destruct (is_valid_action _ _).
  - unfold return_candidates. rewrite !fmap_bind_list. apply list_bind_ext; [|done].
    intros jig_id. destruct ((status_of st jig_id).1); [done|].
    rewrite !fmap_bind_list. apply list_bind_ext; [|done].
    intros rack_id. unfold keep_valid. by destruct (is_valid_action _ _).
Qed.

Lemma astar_priority_rank st a tag :
  (a, tag) ∈ all_actions is_valid_action inst (λ _ _, "move") (λ _, "return") st →
  action_priority tag = astar_rank a.
Proof.
  intros (_ & _ & ->)%all_actions_elem. by destruct a.
Qed.

Lemma hybrid_priority_rank bottleneck_jigs constrained_rack st a tag :
  (a, tag) ∈ all_actions is_valid_action inst
               (hybrid_move_tag bottleneck_jigs constrained_rack)
               (hybrid_return_tag constrained_rack) st →
  hybrid_action_priority tag = hybrid_rank bottleneck_jigs constrained_rack a.
Proof.
  intros (_ & _ & ->)%all_actions_elem.
  destruct a as [j f t|j r|j r|]; simpl; try done.
  - unfold hybrid_move_tag. destruct (decide (Some t = _)); [done|].
    by destruct (decide (j ∈ _)).
  - unfold hybrid_return_tag. by destruct (decide (Some r = _)).
Qed.

(** X13. Both generators return exactly the actions of the four shapes they
    construct (a move of a jig at either end of a rack to another rack, the
    first jig of a rack sent to production when scheduled and loaded, an
    empty factory jig returned to a rack, the next flight when one is left)
    that pass is_valid_action: nothing else, and none of them left out,
    with or without prioritisation and whatever the forward checker found. *)
Theorem generators_return_the_valid_offers st prioritize_goals bottleneck_jigs
    constrained_rack a :
  (a ∈ get_all_possible_actions is_valid_action inst st prioritize_goals ↔
     offered inst st a ∧ is_valid_action st a = true) ∧
  (a ∈ hybrid_get_all_possible_actions is_valid_action inst bottleneck_jigs
         constrained_rack st prioritize_goals ↔
     offered inst st a ∧ is_valid_action st a = true).
Proof.
  unfold get_all_possible_actions, hybrid_get_all_possible_actions.
  destruct prioritize_goals; rewrite ?sort_by_perm; by rewrite !all_actions_fst.
Qed.

(** X14. With prioritize_goals the A* generator returns a rearrangement of
    the list it returns without: production first, then returns, then the
    flight, then moves, and the actions of one kind in the order in which
    they were generated. *)
Theorem prioritized_actions_are_stably_sorted st :
  get_all_possible_actions is_valid_action inst st true
    ≡ₚ get_all_possible_actions is_valid_action inst st false ∧
  StronglySorted (λ a b, astar_rank a ≤ astar_rank b)
    (get_all_possible_actions is_valid_action inst st true) ∧
  ∀ k : nat,
    filter (λ a, astar_rank a = k) (get_all_possible_actions is_valid_action inst st true)
    = filter (λ a, astar_rank a = k) (get_all_possible_actions is_valid_action inst st false).
Proof.
  unfold get_all_possible_actions.
  rewrite (sort_by_fmap fst (λ x, action_priority x.2) astar_rank).
  - split; [apply sort_by_perm|]. split; [apply sort_by_sorted|].
    intros k. apply sort_by_stable.
  - intros [a tag] Hin. by apply astar_priority_rank in Hin.
Qed.

(** X15. Without prioritize_goals the hybrid generator returns the list of
    the A* generator, whatever the forward checker found. With it, the list
    is rearranged by the six priorities: production, moves of bottleneck
    jigs, the flight, returns, other moves, and last the moves and returns
    into the most constrained rack; equal priorities keep their order. *)
Theorem hybrid_actions_are_stably_sorted st bottleneck_jigs constrained_rack :
  hybrid_get_all_possible_actions is_valid_action inst bottleneck_jigs constrained_rack st false
    = get_all_possible_actions is_valid_action inst st false ∧
  hybrid_get_all_possible_actions is_valid_action inst bottleneck_jigs constrained_rack st true
    ≡ₚ get_all_possible_actions is_valid_action inst st false ∧
  StronglySorted (λ a b, hybrid_rank bottleneck_jigs constrained_rack a
                         ≤ hybrid_rank bottleneck_jigs constrained_rack b)
    (hybrid_get_all_possible_actions is_valid_action inst bottleneck_jigs
       constrained_rack st true) ∧
  ∀ k : nat,
    filter (λ a, hybrid_rank bottleneck_jigs constrained_rack a = k)
      (hybrid_get_all_possible_actions is_valid_action inst bottleneck_jigs
         constrained_rack st true)
    = filter (λ a, hybrid_rank bottleneck_jigs constrained_rack a = k)
        (get_all_possible_actions is_valid_action inst st false).
Proof.
  unfold get_all_possible_actions, hybrid_get_all_possible_actions.
  rewrite (sort_by_fmap fst (λ x, hybrid_action_priority x.2)
             (hybrid_rank bottleneck_jigs constrained_rack)).
  - rewrite (all_actions_tags (hybrid_move_tag bottleneck_jigs constrained_rack)
               (hybrid_return_tag constrained_rack) (λ _ _, "move") (λ _, "return")).
    split; [done|]. split; [apply sort_by_perm|]. split; [apply sort_by_sorted|].
    intros k. apply sort_by_stable.
  - intros [a tag] Hin. by apply hybrid_priority_rank in Hin.
Qed.

Lemma filter_eq_length (a : action) (l : list action) :
  a ∈ l → 1 ≤ length (filter (λ b, b = a) l).
Proof.
  intros Hin. assert (a ∈ filter (λ b, b = a) l) as Hf by (by apply list_elem_of_filter).
  destruct (filter _ l); [by apply elem_of_nil in Hf|simpl; lia].
Qed.

(** X19. A rack that holds a single jig has this jig at both of its ends:
    every valid move of the jig to another rack is generated for the first
    end and again for the last, and stands twice in the list that the
    generator returns. *)
Theorem single_jig_moves_are_listed_twice st from_rack jig_id to_rack prioritize_goals :
  (from_rack, [jig_id]) ∈ rack_jigs st →
  to_rack ∈ (rack_jigs st).*1 →
  from_rack ≠ to_rack →
  is_valid_action st (MoveJigBetweenRacks jig_id from_rack to_rack) = true →
  2 ≤ length (filter (λ b, b = MoveJigBetweenRacks jig_id from_rack to_rack)
                (get_all_possible_actions is_valid_action inst st prioritize_goals)).
Proof.
  intros Hrack Hto Hne Hvalid.
  set (a := MoveJigBetweenRacks jig_id from_rack to_rack).
  assert (2 ≤ length (filter (λ b, b = a)
                        (all_actions is_valid_action inst (λ _ _, "move")
                           (λ _, "return") st).*1)) as Hcount.
  { unfold all_actions. rewrite fmap_app, filter_app, length_app.
    apply list_elem_of_split in Hrack as (l1 & l2 & Hsplit).
    unfold move_candidates. remember ((rack_jigs st).*1) as keys eqn:Hkeys.
    rewrite Hsplit, bind_app, bind_cons.
    rewrite !fmap_app, !filter_app, !length_app. simpl.
    rewrite decide_True by (by left). rewrite app_nil_r.
    rewrite fmap_app, filter_app, length_app.
    assert (a ∈ (keys ≫= λ to_rack_id,
                   if decide (from_rack ≠ to_rack_id)
                   then keep_valid is_valid_action st
                          (MoveJigBetweenRacks jig_id from_rack to_rack_id) "move"
                   else []).*1) as Hin.
    { apply list_elem_of_fmap. exists (a, "move"). split; [done|].
      apply list_elem_of_bind. exists to_rack. split; [|done].
      rewrite decide_True by done. by apply keep_valid_elem. }
    apply filter_eq_length in Hin. lia. }
  unfold get_all_possible_actions. destruct prioritize_goals; [|done].
  by rewrite sort_by_perm.
Qed.

End Generation.

Lemma single_jig_moves_are_listed_twice_witness :
  ("r2", ["j4"]) ∈ rack_jigs Forward_Checker.depot ∧
  "r1" ∈ (rack_jigs Forward_Checker.depot).*1 ∧
  "r2" ≠ "r1" ∧
  always_valid Forward_Checker.depot (MoveJigBetweenRacks "j4" "r2" "r1") = true ∧
  2 ≤ length (filter (λ b, b = MoveJigBetweenRacks "j4" "r2" "r1")
                (get_all_possible_actions always_valid Forward_Checker.depot_instance
                   Forward_Checker.depot true)).
Proof.
  assert (("r2", ["j4"]) ∈ rack_jigs Forward_Checker.depot) as Hrack
    by (right; by left).
  assert ("r1" ∈ (rack_jigs Forward_Checker.depot).*1) as Hto by (by left).
  assert ("r2" ≠ "r1") as Hne by done.
  split; [exact Hrack|]. split; [exact Hto|]. split; [exact Hne|]. split; [done|].
  exact (single_jig_moves_are_listed_twice always_valid Forward_Checker.depot_instance
           Forward_Checker.depot "r2" "j4" "r1" true Hrack Hto Hne eq_refl).
Defined.

End Actions_Theory.

(** ** The forward checker (beluga_forward_checking.py) *)

Module Forward_Checker_Theory.
Import Beluga CSP_Build Heuristic_Variants Forward_Checker Actions.

Lemma min_by_snd_loop (pre l : list (string * Z)) (best : string * Z) (i : nat) :
  pre !! i = Some best →
  (∀ j y, pre !! j = Some y → (best.2 ≤ y.2)%Z ∧ (j < i → (best.2 < y.2)%Z)) →
  let res := foldl (λ best y, if (y.2 <? best.2)%Z then y else best) best l in
  ∃ i', (pre ++ l) !! i' = Some res ∧
        ∀ j y, (pre ++ l) !! j = Some y → (res.2 ≤ y.2)%Z ∧ (j < i' → (res.2 < y.2)%Z).
Proof.
  revert pre best i. induction l as [|x l IH]; intros pre best i Hi Hmin; simpl.
  - exists i. by rewrite app_nil_r.
  - assert (i < length pre) as Hlen by (by eapply lookup_lt_Some).
    rewrite (cons_middle x pre l), app_assoc.
    destruct (x.2 <? best.2)%Z eqn:Hlt.
    + apply Z.ltb_lt in Hlt. apply (IH (pre ++ [x]) x (length pre)).
      * by rewrite lookup_app_r, Nat.sub_diag.
      * intros j y Hj. destruct (decide (j < length pre)) as [Hjl|Hjl].
        -- rewrite lookup_app_l in Hj by done. destruct (Hmin j y Hj). lia.
        -- rewrite lookup_app_r in Hj by lia.
           destruct (j - length pre) as [|k] eqn:Hk; [|by destruct k].
           injection Hj as <-. lia.
    + apply Z.ltb_ge in Hlt. apply (IH (pre ++ [x]) best i).
      * by rewrite lookup_app_l.
      * intros j y Hj. destruct (decide (j < length pre)) as [Hjl|Hjl].
        -- rewrite lookup_app_l in Hj by done. by apply Hmin.
        -- rewrite lookup_app_r in Hj by lia.
           destruct (j - length pre) as [|k] eqn:Hk; [|by destruct k].
           injection Hj as <-. lia.
Qed.

Lemma min_by_snd_least (l : list (string * Z)) (x : string * Z) :
  min_by_snd l = Some x →
  ∃ i, l !! i = Some x ∧
       ∀ j y, l !! j = Some y → (x.2 ≤ y.2)%Z ∧ (j < i → (x.2 < y.2)%Z).
Proof.
  destruct l as [|b l]; [done|]. simpl. intros [= <-].
  apply (min_by_snd_loop [b] l b 0); [done|].
  intros [|[|j]] y; [|done..]. intros [= <-]. lia.
Qed.

Section Checker.
Variable get_jig_location : BelugaState → string → option string.
Variable jig_types : gmap string (Z * Z).
Variable st : BelugaState.
Variable inst : instance_data.

Lemma jig_size_raise jig_id e :
  jig_size jig_types st inst jig_id = Raise e → e = KeyError.
Proof.
  unfold jig_size. destruct (list_find _ _) as [[? j]|]; [|congruence].
  destruct (jig_types !! _) as [[? ?]|]; congruence.
Qed.

Lemma occupancy_raise js c e :
  occupancy jig_types st inst js c = Raise e →
  e = KeyError ∧ ∃ jig_id, jig_id ∈ js ∧ jig_size jig_types st inst jig_id = Raise KeyError.
Proof.
  revert c. induction js as [|j js IH]; intros c; simpl; [done|].
  destruct (jig_size jig_types st inst j) as [s|e'] eqn:Hs.
  - intros (-> & j' & Hin & Hj')%IH. split; [done|]. exists j'. split; [by right|done].
  - intros [= ->]. pose proof (jig_size_raise _ _ Hs) as ->.
    split; [done|]. exists j. split; [by left|done].
Qed.

Lemma occupancy_ok js c :
  (∀ jig_id, jig_id ∈ js → ∃ s, jig_size jig_types st inst jig_id = Ok s) →
  ∃ occ, occupancy jig_types st inst js c = Ok occ.
Proof.
  revert c. induction js as [|j js IH]; intros c Hall; simpl; [by eexists|].
  destruct (Hall j) as [s ->]; [by left|].
  apply IH. intros j' Hj'. apply Hall. by right.
Qed.

(** The available space of a rack. *)
Lemma rack_constraints_ok rs l :
  rack_constraints jig_types st inst rs = Ok l →
  Forall2 (λ rack e, e.1 = rack.1 ∧
             ∃ occ, occupancy jig_types st inst rack.2 0 = Ok occ ∧
                    e.2 = (rack_size_of inst rack.1 - occ)%Z) rs l.
Proof.
  revert l. induction rs as [|rack rs IH]; intros l; simpl.
  - intros [= <-]. constructor.
  - destruct (occupancy _ _ _ _ _) as [occ|] eqn:Hocc; [|done].
    destruct (rack_constraints _ _ _ rs) as [l'|]; [|done].
    intros [= <-]. constructor; [|by apply IH].
    split; [done|]. by exists occ.
Qed.

Lemma rack_constraints_raise rs e :
  rack_constraints jig_types st inst rs = Raise e →
  e = KeyError ∧ ∃ rack jig_id, rack ∈ rs ∧ jig_id ∈ rack.2 ∧
                   jig_size jig_types st inst jig_id = Raise KeyError.
Proof.
  induction rs as [|rack rs IH]; simpl; [done|].
  destruct (occupancy _ _ _ _ _) as [occ|e'] eqn:Hocc.
  - destruct (rack_constraints _ _ _ rs) as [l'|e'']; [done|].
    intros [= ->]. destruct IH as (-> & r & j & Hr & Hj & Hs); [done|].
    split; [done|]. exists r, j. split; [by right|done].
  - intros [= ->]. apply occupancy_raise in Hocc as (-> & j & Hj & Hs).
    split; [done|]. exists rack, j. split; [by left|done].
Qed.

Lemma rack_constraints_known rs :
  (∀ rack jig_id, rack ∈ rs → jig_id ∈ rack.2 →
     ∃ s, jig_size jig_types st inst jig_id = Ok s) →
  ∃ l, rack_constraints jig_types st inst rs = Ok l.
Proof.
  induction rs as [|rack rs IH]; intros Hall; simpl; [by eexists|].
  destruct (occupancy_ok rack.2 0) as [occ ->].
  { intros j Hj. apply (Hall rack); [by left|done]. }
  destruct IH as [l ->]; [|by eexists].
  intros r j Hr. apply Hall. by right.
Qed.

(** X16. get_most_constrained_rack returns None exactly when the state has
    no rack. A rack it returns has the least available space (its size
    less the sizes of the jigs in it), and strictly less than every rack
    that comes before it in state.rack_jigs. It raises KeyError exactly
    when some jig standing in a rack has no size in the instance. *)
Theorem most_constrained_rack_has_least_space :
  (get_most_constrained_rack jig_types st inst = Ok None ↔ rack_jigs st = []) ∧
  (∀ r, get_most_constrained_rack jig_types st inst = Ok (Some r) →
     ∃ i js occ,
       rack_jigs st !! i = Some (r, js) ∧
       occupancy jig_types st inst js 0 = Ok occ ∧
       ∀ j r' js' occ',
         rack_jigs st !! j = Some (r', js') →
         occupancy jig_types st inst js' 0 = Ok occ' →
         (rack_size_of inst r - occ ≤ rack_size_of inst r' - occ')%Z ∧
         (j < i → (rack_size_of inst r - occ < rack_size_of inst r' - occ')%Z)) ∧
  (∀ e, get_most_constrained_rack jig_types st inst = Raise e → e = KeyError) ∧
  ((∃ o, get_most_constrained_rack jig_types st inst = Ok o) ↔
   sizes_known jig_types st inst).
Proof.
  unfold get_most_constrained_rack. split; [|split; [|split]].
  - destruct (rack_jigs st) as [|rack rs] eqn:Hracks; [done|].
    split; [|done]. destruct (rack_constraints _ _ _ _) as [l|] eqn:Hl; [|done].
    apply rack_constraints_ok in Hl. inversion Hl; subst. done.
  - intros r. destruct (rack_jigs st) as [|rack rs] eqn:Hracks; [done|].
    destruct (rack_constraints _ _ _ _) as [l|] eqn:Hl; [|done].
    apply rack_constraints_ok in Hl.
    destruct (min_by_snd l) as [x|] eqn:Hmin; [|done]. intros [= <-].
    apply min_by_snd_least in Hmin as (i & Hi & Hleast).
    destruct (Forall2_lookup_r _ _ _ _ _ Hl Hi) as ([r js] & Hri & Hr1 & occ & Hocc & Hx).
    simpl in *. exists i, js, occ. rewrite Hr1. split; [done|]. split; [done|].
    intros j r' js' occ' Hj Hocc'.
    destruct (Forall2_lookup_l _ _ _ _ _ Hl Hj) as (y & Hy & Hy1 & occ'' & Hocc'' & Hy2).
    simpl in *. assert (occ'' = occ') as -> by congruence.
    destruct (Hleast j y Hy) as [Hle Hlt]. rewrite Hx, Hy2 in Hle, Hlt. done.
  - intros e. destruct (rack_jigs st) as [|rack rs]; [done|].
    destruct (rack_constraints _ _ _ _) as [l|e'] eqn:Hl; [done|].
    intros [= ->]. by apply rack_constraints_raise in Hl as [-> _].
  - unfold sizes_known. destruct (rack_jigs st) as [|rack rs] eqn:Hracks.
    + split; [|by eexists]. intros _ r j Hr. by apply elem_of_nil in Hr.
    + split.
      * intros [o Ho] r j Hr Hj.
        destruct (rack_constraints _ _ _ _) as [l|] eqn:Hl; [|done].
        apply rack_constraints_ok in Hl.
        apply list_elem_of_lookup in Hr as [i Hi].
        destruct (Forall2_lookup_l _ _ _ _ _ Hl Hi) as (y & _ & _ & occ & Hocc & _).
        destruct (jig_size jig_types st inst j) as [s|e] eqn:Hs; [by eexists|].
        exfalso. clear -Hocc Hj Hs. revert Hocc. generalize 0%Z.
        induction Hj as [j js|j j' js Hj IH]; intros c; simpl.
        -- by rewrite Hs.
        -- destruct (jig_size jig_types st inst j'); [by apply IH|done].
      * intros Hall. destruct (rack_constraints_known (rack :: rs) Hall) as [l ->].
        by eexists.
Qed.

(** *** Bottleneck jigs *)

Lemma NoDup_concat_elem {A : Type} (ls : list (list A)) (l : list A) :
  NoDup (concat ls) → l ∈ ls → NoDup l.
Proof.
  induction ls as [|l0 ls IH]; simpl; [by intros _ ?%elem_of_nil|].
  intros (Hl0 & _ & Hls)%NoDup_app [->|Hin]%elem_of_cons; [done|by apply IH].
Qed.

Lemma elem_of_concat {A : Type} (ls : list (list A)) (l : list A) (x : A) :
  x ∈ l → l ∈ ls → x ∈ concat ls.
Proof.
  intros Hx. induction 1 as [l ls|l l' ls Hin IH]; simpl; apply elem_of_app; auto.
Qed.

Lemma NoDup_concat_same {A : Type} (ls : list (list A)) (l1 l2 : list A) (x : A) :
  NoDup (concat ls) → l1 ∈ ls → l2 ∈ ls → x ∈ l1 → x ∈ l2 → l1 = l2.
Proof.
  induction ls as [|l0 ls IH]; simpl; [by intros _ ?%elem_of_nil|].
  intros (Hl0 & Hdisj & Hls)%NoDup_app [->|H1]%elem_of_cons [->|H2]%elem_of_cons Hx1 Hx2.
  - done.
  - exfalso. apply (Hdisj x Hx1). by apply (elem_of_concat ls l2).
  - exfalso. apply (Hdisj x Hx2). by apply (elem_of_concat ls l1).
  - by apply IH.
Qed.

Lemma rack_get_elem location :
  location ∈ (rack_jigs st).*1 → (location, rack_get st location) ∈ rack_jigs st.
Proof.
  unfold rack_get. intros Hin.
  destruct (list_find _ _) as [[k r]|] eqn:Hfind.
  - apply list_find_Some in Hfind as (Hk & <- & _). simpl.
    destruct r. by eapply list_elem_of_lookup_2.
  - apply list_elem_of_fmap in Hin as (r & -> & Hr).
    eapply list_find_None, Forall_forall in Hfind; [|exact Hr]. done.
Qed.

(** A bottleneck jig stands strictly inside a rack of the state. *)
Lemma bottleneck_inside jig_id :
  jig_id ∈ get_production_bottlenecks get_jig_location st inst →
  ∃ location rack i,
    (location, rack) ∈ rack_jigs st ∧ rack !! i = Some jig_id ∧
    0 < i ∧ S i < length rack.
Proof.
  unfold get_production_bottlenecks.
  intros (j & Hin & _)%list_elem_of_bind.
  destruct (decide (j ∈ _)); [by apply elem_of_nil in Hin|].
  destruct (get_jig_location st j) as [location|]; [|by apply elem_of_nil in Hin].
  destruct (decide _) as [(_ & _ & Hloc)|]; [|by apply elem_of_nil in Hin].
  cbv zeta in Hin. destruct (index_of j _) as [i|] eqn:Hidx; [|by apply elem_of_nil in Hin].
  destruct (decide _) as [[Hpos Hlast]|]; [|by apply elem_of_nil in Hin].
  apply list_elem_of_singleton in Hin as ->.
  exists location, (rack_get st location), i.
  split; [by apply rack_get_elem|].
  unfold index_of in Hidx.
  destruct (list_find _ _) as [[i' y]|] eqn:Hfind; [|done].
  injection Hidx as ->. apply list_find_Some in Hfind as (Hi & -> & _).
  split; [done|]. split; [done|lia].
Qed.

(** Where every jig stands at one place of one rack, the jig at an end of
    a rack is no bottleneck. *)
Lemma edge_is_no_bottleneck from_rack js jig_id :
  NoDup (concat (rack_jigs st).*2) →
  (from_rack, js) ∈ rack_jigs st →
  jig_id ∈ edge_jigs js →
  jig_id ∉ get_production_bottlenecks get_jig_location st inst.
Proof.
  intros Hnodup Hrack Hedge (location & rack & i & Hloc & Hi & Hpos & Hlast)%bottleneck_inside.
  assert (js ∈ (rack_jigs st).*2) as Hjs.
  { apply list_elem_of_fmap. by exists (from_rack, js). }
  assert (rack ∈ (rack_jigs st).*2) as Hrk.
  { apply list_elem_of_fmap. by exists (location, rack). }
  assert (js = rack) as ->.
  { apply (NoDup_concat_same _ _ _ jig_id Hnodup Hjs Hrk).
    - by apply Actions_Theory.edge_jigs_in.
    - by eapply list_elem_of_lookup_2. }
  pose proof (NoDup_concat_elem _ _ Hnodup Hrk) as Hnd.
  apply Actions_Theory.edge_jigs_elem in Hedge as [Hhead|Hlst].
  - rewrite head_lookup in Hhead.
    pose proof (NoDup_lookup _ _ _ _ Hnd Hi Hhead). lia.
  - rewrite last_lookup in Hlst.
    pose proof (NoDup_lookup _ _ _ _ Hnd Hi Hlst) as Heq.
    destruct rack; simpl in *; lia.
Qed.

End Checker.

(** X17. In a state where every jig stands at one place of one rack, the
    bottleneck jigs that get_production_bottlenecks reports (jigs strictly
    inside a rack) are never the jigs at the ends of a rack that the hybrid
    generator moves: the priority "urgent" is given to no action, and the
    generator returns the list that it returns for no bottleneck at all. *)
Theorem bottlenecks_never_change_the_actions
    (is_valid_action : BelugaState → action → bool)
    (get_jig_location : BelugaState → string → option string)
    (inst : instance_data) (st : BelugaState)
    (constrained_rack : option string) (prioritize_goals : bool) :
  NoDup (concat (rack_jigs st).*2) →
  hybrid_get_all_possible_actions is_valid_action inst
    (get_production_bottlenecks get_jig_location st inst)
    constrained_rack st prioritize_goals
  = hybrid_get_all_possible_actions is_valid_action inst [] constrained_rack st
      prioritize_goals ∧
  ∀ a, a ∈ hybrid_get_all_possible_actions is_valid_action inst
             (get_production_bottlenecks get_jig_location st inst)
             constrained_rack st prioritize_goals →
       hybrid_rank (get_production_bottlenecks get_jig_location st inst)
         constrained_rack a ≠ 1.
Proof.
  intros Hnodup.
  assert (all_actions is_valid_action inst
            (hybrid_move_tag (get_production_bottlenecks get_jig_location st inst)
               constrained_rack)
            (hybrid_return_tag constrained_rack) st
          = all_actions is_valid_action inst (hybrid_move_tag [] constrained_rack)
              (hybrid_return_tag constrained_rack) st) as Hall.
  { unfold all_actions. f_equal. unfold move_candidates.
    apply Forall_bind_ext, Forall_forall. intros [from_rack js] Hrack. simpl.
    apply Forall_bind_ext, Forall_forall. intros jig_id Hedge.
    destruct (decide _); [|done].
    apply Forall_bind_ext, Forall_forall. intros to_rack _.
    destruct (decide _); [|done]. f_equal.
    unfold hybrid_move_tag.
    rewrite (decide_False (P := jig_id ∈ get_production_bottlenecks _ _ _)).
    - by rewrite (decide_False (P := jig_id ∈ [])) by apply not_elem_of_nil.
    - by eapply edge_is_no_bottleneck. }
  split.
  - unfold hybrid_get_all_possible_actions. by rewrite Hall.
  - intros a Hin.
    assert (offered inst st a) as Hoff.
    { unfold hybrid_get_all_possible_actions in Hin.
      destruct prioritize_goals; rewrite ?Actions_Theory.sort_by_perm in Hin;
        by apply Actions_Theory.all_actions_fst in Hin as [? _]. }
    destruct a as [j f t|j r|j r|]; simpl; try done.
    + destruct Hoff as (_ & _ & js & Hrack & Hedge%Actions_Theory.edge_jigs_elem).
      destruct (decide _); [done|].
      rewrite decide_False; [done|]. by eapply edge_is_no_bottleneck.
    + by destruct (decide _).
Qed.

Lemma bottlenecks_never_change_the_actions_witness :
  NoDup (concat (rack_jigs depot).*2) ∧
  get_production_bottlenecks depot_location depot depot_instance = ["j2"] ∧
  (hybrid_get_all_possible_actions always_valid depot_instance
     (get_production_bottlenecks depot_location depot depot_instance)
     (Some "r2") depot true
   = hybrid_get_all_possible_actions always_valid depot_instance [] (Some "r2") depot true ∧
   ∀ a, a ∈ hybrid_get_all_possible_actions always_valid depot_instance
              (get_production_bottlenecks depot_location depot depot_instance)
              (Some "r2") depot true →
        hybrid_rank (get_production_bottlenecks depot_location depot depot_instance)
          (Some "r2") a ≠ 1).
Proof.
  assert (NoDup (concat (rack_jigs depot).*2)) as Hnodup.
  { apply (bool_decide_unpack _). by vm_compute. }
  split; [exact Hnodup|]. split; [by vm_compute|].
  exact (bottlenecks_never_change_the_actions always_valid depot_location
           depot_instance depot (Some "r2") true Hnodup).
Defined.

End Forward_Checker_Theory.

(** ** The constraints of BelugaCSP (beluga_csp.py) *)

Module CSP_Build_Theory.
Import Beluga CSP CSP_Queries CSP_Build Heuristic_Variants.

Lemma position_lookup (l : list string) (i : nat) (x : string) :
  NoDup l → l !! i = Some x → position x l = i.
Proof.
  revert i. induction l as [|y l IH]; intros i Hnd Hi; [done|].
  apply NoDup_cons in Hnd as [Hy Hnd]. simpl.
  destruct i as [|i]; simpl in Hi.
  - injection Hi as ->. by rewrite decide_True.
  - rewrite decide_False; [f_equal; by apply IH|].
    intros ->. apply Hy. by eapply list_elem_of_lookup_2.
Qed.

Lemma position_notin (l : list string) (x : string) :
  x ∉ l → position x l = length l.
Proof.
  induction l as [|y l IH]; intros Hx; simpl; [done|].
  apply not_elem_of_cons in Hx as [Hne Hx]. rewrite decide_False by done.
  f_equal. by apply IH.
Qed.

Lemma pairs_elem {A : Type} (l : list A) (x y : A) :
  (x, y) ∈ pairs l → ∃ i j, i < j ∧ l !! i = Some x ∧ l !! j = Some y.
Proof.
  induction l as [|z l IH]; simpl; [by intros ?%elem_of_nil|].
  intros [Hin|Hin]%elem_of_app.
  - apply list_elem_of_fmap in Hin as (y' & [= -> ->] & Hy).
    apply list_elem_of_lookup in Hy as [j Hj].
    exists 0, (S j). split; [lia|done].
  - destruct (IH Hin) as (i & j & Hij & Hi & Hj).
    exists (S i), (S j). split; [lia|done].
Qed.

Lemma concat_lookup {A : Type} (ls : list (list A)) (l : list A) :
  l ∈ ls → ∃ k, ∀ i x, l !! i = Some x → concat ls !! (k + i) = Some x.
Proof.
  induction 1 as [l ls|l l' ls Hin (k & Hk)]; simpl.
  - exists 0. intros i x Hi. by apply lookup_app_l_Some.
  - exists (length l' + k). intros i x Hi.
    rewrite lookup_app_r by lia.
    replace (length l' + k + i - length l') with (k + i) by lia. by apply Hk.
Qed.

#[local] Instance jig_var_inj : Inj (=) (=) jig_var.
Proof. intros x y Heq. unfold jig_var in Heq. cbv [String.append] in Heq. congruence. Qed.

#[local] Instance prod_var_inj : Inj (=) (=) prod_var.
Proof. intros x y Heq. unfold prod_var in Heq. cbv [String.append] in Heq. congruence. Qed.

#[local] Instance flight_var_inj : Inj (=) (=) flight_var.
Proof.
  intros x y Heq. unfold flight_var in Heq. cbv [String.append] in Heq.
  apply (inj pretty). congruence.
Qed.

Section Build.
Variable jig_types : gmap string (Z * Z).
Variable st : BelugaState.
Variable inst : instance_data.

Lemma jig_var_kind (x : string) :
  (jig_var x ∉ flight_vars st inst) ∧ (jig_var x ∉ prod_var <$> production_schedule inst).
Proof.
  split; intros (y & Heq & _)%list_elem_of_fmap;
    unfold flight_var, jig_var, prod_var in Heq; cbv [String.append] in Heq; congruence.
Qed.

Lemma flight_var_kind (i : nat) :
  (flight_var i ∉ jig_vars inst) ∧ (flight_var i ∉ prod_var <$> production_schedule inst).
Proof.
  split; intros (y & Heq & _)%list_elem_of_fmap;
    unfold flight_var, jig_var, prod_var in Heq; cbv [String.append] in Heq; congruence.
Qed.

Lemma prod_var_kind (x : string) :
  (prod_var x ∉ jig_vars inst) ∧ (prod_var x ∉ flight_vars st inst).
Proof.
  split; intros (y & Heq & _)%list_elem_of_fmap;
    unfold flight_var, jig_var, prod_var in Heq; cbv [String.append] in Heq; congruence.
Qed.

(** Every constraint of BelugaCSP points upwards along [var_rank]. *)
Lemma extract_constraints_ranked :
  NoDup (jigs inst).*1 → NoDup (production_schedule inst) →
  ranked (var_rank st inst) (extract_constraints jig_types st inst).
Proof.
  intros Hjigs Hsched. unfold ranked, extract_constraints.
  rewrite !Forall_app, !Forall_forall. split; [|split].
  - intros c (rack & Hc & _)%list_elem_of_bind.
    apply list_elem_of_fmap in Hc as ([v1 v2] & -> & Hp). unfold cvar1, cvar2. simpl.
    apply pairs_elem in Hp as (i & j & Hij & Hi & Hj).
    assert (NoDup (jig_vars inst)) as Hnd by (by apply (NoDup_fmap_2 _)).
    pose proof Hi as Hi'. pose proof Hj as Hj'.
    apply list_lookup_fmap_Some in Hi' as (x & -> & _).
    apply list_lookup_fmap_Some in Hj' as (y & -> & _).
    unfold var_rank.
    rewrite (position_lookup _ i _ Hnd Hi), (position_lookup _ j _ Hnd Hj).
    destruct (jig_var_kind x) as [Hx1 Hx2]. destruct (jig_var_kind y) as [Hy1 Hy2].
    rewrite !position_notin by done. lia.
  - intros c ([v1 v2] & -> & Hp)%list_elem_of_fmap. unfold cvar1, cvar2. simpl.
    apply pairs_elem in Hp as (i & j & Hij & Hi & Hj).
    assert (NoDup (flight_vars st inst)) as Hnd.
    { apply (NoDup_fmap_2 _). apply NoDup_seq. }
    pose proof Hi as Hi'. pose proof Hj as Hj'.
    apply list_lookup_fmap_Some in Hi' as (x & -> & _).
    apply list_lookup_fmap_Some in Hj' as (y & -> & _).
    unfold var_rank.
    rewrite (position_lookup _ i _ Hnd Hi), (position_lookup _ j _ Hnd Hj).
    destruct (flight_var_kind x) as [Hx1 Hx2]. destruct (flight_var_kind y) as [Hy1 Hy2].
    rewrite !position_notin by done. lia.
  - intros c (line & Hc & Hline)%list_elem_of_bind.
    apply list_elem_of_bind in Hc as ([x y] & Hc & Hp). simpl in Hc.
    destruct (decide _); [|by apply elem_of_nil in Hc].
    apply list_elem_of_singleton in Hc as ->. unfold cvar1, cvar2. simpl.
    apply list_elem_of_lookup in Hp as [i Hi].
    apply lookup_zip_Some in Hi as [Hx Hy]. rewrite lookup_tail in Hy.
    destruct (concat_lookup _ _ Hline) as (k & Hk).
    assert (NoDup (prod_var <$> production_schedule inst)) as Hnd
      by (by apply (NoDup_fmap_2 _)).
    assert ((prod_var <$> production_schedule inst) !! (k + i) = Some (prod_var x)) as Hpx.
    { rewrite list_lookup_fmap. unfold production_schedule. by rewrite (Hk i x Hx). }
    assert ((prod_var <$> production_schedule inst) !! (k + S i) = Some (prod_var y)) as Hpy.
    { rewrite list_lookup_fmap. unfold production_schedule. by rewrite (Hk (S i) y Hy). }
    unfold var_rank.
    rewrite (position_lookup _ _ _ Hnd Hpx), (position_lookup _ _ _ Hnd Hpy).
    destruct (prod_var_kind x) as [Hx1 Hx2]. destruct (prod_var_kind y) as [Hy1 Hy2].
    rewrite !position_notin by done. lia.
Qed.

Lemma check_rack_capacity_ok rack_id rack_size :
  sizes_known jig_types st inst →
  ∃ b, check_rack_capacity jig_types st inst rack_id rack_size = Ok b.
Proof.
  intros Hknown. unfold check_rack_capacity.
  destruct (Forward_Checker_Theory.occupancy_ok jig_types st inst
              (rack_get st rack_id) 0) as [occ ->]; [|by eexists].
  unfold rack_get. destruct (list_find _ _) as [[k r]|] eqn:Hfind.
  - apply list_find_Some in Hfind as (Hk & _ & _).
    intros j Hj. apply (Hknown r); [by eapply list_elem_of_lookup_2|done].
  - by intros j ?%elem_of_nil.
Qed.

(** X18. BelugaCSP builds its capacity constraints on pairs of jig
    variables in the order of the jigs, its flight constraints from an
    earlier to a later flight, and its production constraints along every
    schedule. When no jig is scheduled twice (and the jigs in the racks
    have sizes, so that no capacity check raises) the constraints have no
    cycle: reduce_domains on the domains of the same CSP stops within a
    bound, reports success, leaves no domain empty, and check_forward
    returns success with the sizes of these domains. *)
Theorem beluga_csp_propagation_terminates :
  NoDup (jigs inst).*1 → NoDup (production_schedule inst) →
  sizes_known jig_types st inst →
  (∀ rack_id rack_size,
     ∃ b, check_rack_capacity jig_types st inst rack_id rack_size = Ok b) ∧
  ∃ bound, ∀ fuel, bound < fuel →
    ∃ d n,
      reduce_domains fuel (extract_constraints jig_types st inst)
        (extract_domains st inst) = Some (Ok (Report true d n)) ∧
      n ≤ bound ∧ all_nonempty d ∧
      check_forward fuel (extract_constraints jig_types st inst)
        (extract_domains st inst) = Some (Ok (true, domain_sizes d)).
Proof.
  intros Hjigs Hsched Hknown.
  split; [intros; by apply check_rack_capacity_ok|].
  pose proof (extract_constraints_ranked Hjigs Hsched) as Hrk.
  exists (work_bound (var_rank st inst) (extract_constraints jig_types st inst)).
  intros fuel Hfuel.
  destruct (CSP_Theory.reduce_loop_terminates (var_rank st inst)
              (extract_constraints jig_types st inst) fuel
              (initial_arcs (extract_constraints jig_types st inst))
              (extract_domains st inst) 0 Hrk Hfuel) as (d & n & Hrun & Hn).
  exists d, n. split; [done|]. split; [unfold work_bound; lia|].
  destruct (CSP_Theory.reduce_loop_result (extract_constraints jig_types st inst) fuel
              (initial_arcs (extract_constraints jig_types st inst))
              (extract_domains st inst) 0 _
              (CSP_Theory.extract_domains_nonempty st inst) Hrun)
    as (d' & n' & [= <- <-] & Hne).
  split; [done|]. unfold check_forward, reduce_domains. by rewrite Hrun.
Qed.

End Build.

Lemma beluga_csp_propagation_terminates_witness :
  NoDup (jigs Actions.yard_instance).*1 ∧
  NoDup (production_schedule Actions.yard_instance) ∧
  sizes_known yard_types Actions.yard Actions.yard_instance ∧
  ((∀ rack_id rack_size,
      ∃ b, check_rack_capacity yard_types Actions.yard Actions.yard_instance
             rack_id rack_size = Ok b) ∧
   ∃ bound, ∀ fuel, bound < fuel →
     ∃ d n,
       reduce_domains fuel (extract_constraints yard_types Actions.yard Actions.yard_instance)
         (extract_domains Actions.yard Actions.yard_instance) = Some (Ok (Report true d n)) ∧
       n ≤ bound ∧ all_nonempty d ∧
       check_forward fuel (extract_constraints yard_types Actions.yard Actions.yard_instance)
         (extract_domains Actions.yard Actions.yard_instance)
       = Some (Ok (true, domain_sizes d))).
Proof.
  assert (NoDup (jigs Actions.yard_instance).*1) as Hjigs.
  { apply (bool_decide_unpack _). by vm_compute. }
  assert (NoDup (production_schedule Actions.yard_instance)) as Hsched.
  { apply (bool_decide_unpack _). by vm_compute. }
  assert (sizes_known yard_types Actions.yard Actions.yard_instance) as Hknown.
  { intros rack jig_id Hrack Hjig.
    apply elem_of_cons in Hrack as [->|Hrack].
    - apply elem_of_cons in Hjig as [->|Hjig]; [by eexists|].
      apply list_elem_of_singleton in Hjig as ->. by eexists.
    - apply list_elem_of_singleton in Hrack as ->. by apply elem_of_nil in Hjig. }
  split; [exact Hjigs|]. split; [exact Hsched|]. split; [exact Hknown|].
  exact (beluga_csp_propagation_terminates yard_types Actions.yard Actions.yard_instance
           Hjigs Hsched Hknown).
Defined.

End CSP_Build_Theory.

(** ** The sample of actions of the local search (beluga_local_search.py) *)

Module Random_Actions_Theory.
Import Beluga Actions Random_Actions.

Section Sampling.
Variable is_valid_action : BelugaState → action → bool.
Variable inst : instance_data.
Variable held : list (nat * action) → nat * action → bool.
Variable choice : nat → nat.
Variable shuffle : list (nat * action) → list (nat * action).

Lemma choose_sub t l e : e ∈ choose choice t l → e ∈ l.
Proof.
  unfold choose. destruct l as [|x l]; [done|].
  destruct (_ !! _) eqn:Hl; simpl; [|by intros ?%elem_of_nil].
  intros ->%list_elem_of_singleton. by eapply list_elem_of_lookup_2.
Qed.

Lemma choose_length t l : length (choose choice t l) ≤ 1.
Proof.
  unfold choose. destruct l as [|x l]; simpl; [lia|].
  destruct (_ !! _); simpl; lia.
Qed.

Lemma choose_some t l : l ≠ [] → ∃ e, choose choice t l = [e].
Proof.
  unfold choose. destruct l as [|x l]; [done|]. intros _.
  destruct (lookup_lt_is_Some_2 (x :: l) (choice t `mod` length (x :: l))) as [e He].
  { apply Nat.mod_upper_bound. simpl. lia. }
  exists e. by rewrite He.
Qed.

Lemma imap_pair_elem {A : Type} (l : list A) (e : nat * A) :
  e ∈ imap pair l → e.2 ∈ l.
Proof.
  intros (i & x & -> & Hi)%elem_of_lookup_imap. by eapply list_elem_of_lookup_2.
Qed.

Lemma imap_pair_has {A : Type} (l : list A) (x : A) :
  x ∈ l → ∃ i, (i, x) ∈ imap pair l.
Proof.
  intros [i Hi]%list_elem_of_lookup. exists i. apply elem_of_lookup_imap. by exists i, x.
Qed.

(** X20. The sample that the local search draws from a state holds only
    actions of the list of all valid actions; when that list has an action
    of one of the four types, the sample has one of that type; it has at
    most num_actions entries, or one per type when that is more. *)
Theorem random_actions_are_a_bounded_sample st num_actions :
  (∀ l, shuffle l ≡ₚ l) →
  let sample := get_random_actions is_valid_action inst held choice shuffle st num_actions in
  let all_actions := get_all_possible_actions is_valid_action inst st false in
  (∀ a, a ∈ sample → a ∈ all_actions) ∧
  (∀ is_type a, is_type ∈ action_types → a ∈ all_actions → is_type a = true →
     ∃ b, b ∈ sample ∧ is_type b = true) ∧
  (Z.of_nat (length sample) ≤ Z.max num_actions 4)%Z ∧
  (sample = [] ↔ all_actions = []).
Proof.
  intros Hshuffle sample all_actions. subst sample. unfold get_random_actions.
  fold all_actions.
  set (indexed := imap pair all_actions).
  set (selected := choose choice 0 _ ++ choose choice 1 _
                   ++ choose choice 2 _ ++ choose choice 3 _).
  set (remaining := filter _ indexed).
  set (slots := (num_actions - Z.of_nat (length selected))%Z).
  set (extra := take (Z.to_nat (Z.min slots (Z.of_nat (length remaining))))
                  (shuffle remaining)).
  assert (∀ e, e ∈ selected → e ∈ indexed) as Hsel.
  { intros e. unfold selected. rewrite !elem_of_app.
    intros [H|[H|[H|H]]]; apply choose_sub in H;
      by apply list_elem_of_filter in H as [_ H]. }
  assert (∀ e, e ∈ extra → e ∈ indexed) as Hextra.
  { intros e Hin. unfold extra in Hin. apply elem_of_take in Hin as (i & Hin & _).
    apply list_elem_of_lookup_2 in Hin. rewrite Hshuffle in Hin.
    unfold remaining in Hin. by apply list_elem_of_filter in Hin as [_ Hin]. }
  assert (length selected ≤ 4) as Hlen.
  { unfold selected. rewrite !length_app.
    pose proof (choose_length 0 (filter (λ e, is_move e.2 = true) indexed)).
    pose proof (choose_length 1 (filter (λ e, is_produce e.2 = true) indexed)).
    pose proof (choose_length 2 (filter (λ e, is_return e.2 = true) indexed)).
    pose proof (choose_length 3 (filter (λ e, is_flight e.2 = true) indexed)).
    lia. }
  assert (∀ is_type a, is_type ∈ action_types → a ∈ all_actions → is_type a = true →
            ∃ e, e ∈ selected ∧ is_type e.2 = true) as Htypes.
  { intros is_type a Htype Ha Hta.
    destruct (imap_pair_has all_actions a Ha) as [i Hi]. fold indexed in Hi.
    assert (filter (λ e, is_type e.2 = true) indexed ≠ []) as Hne.
    { intros Hnil. assert ((i, a) ∈ filter (λ e, is_type e.2 = true) indexed) as Hin
        by (by apply list_elem_of_filter).
      rewrite Hnil in Hin. by apply elem_of_nil in Hin. }
    unfold action_types in Htype. unfold selected.
    repeat (apply elem_of_cons in Htype as [->|Htype]);
      [| | | |by apply elem_of_nil in Htype].
    - destruct (choose_some 0 _ Hne) as [e He]. exists e.
      assert (e ∈ choose choice 0 (filter (λ e, is_move e.2 = true) indexed)) as Hin
        by (rewrite He; by left).
      split; [rewrite !elem_of_app; by left|].
      apply choose_sub in Hin. by apply list_elem_of_filter in Hin as [? _].
    - destruct (choose_some 1 _ Hne) as [e He]. exists e.
      assert (e ∈ choose choice 1 (filter (λ e, is_produce e.2 = true) indexed)) as Hin
        by (rewrite He; by left).
      split; [rewrite !elem_of_app; right; by left|].
      apply choose_sub in Hin. by apply list_elem_of_filter in Hin as [? _].
    - destruct (choose_some 2 _ Hne) as [e He]. exists e.
      assert (e ∈ choose choice 2 (filter (λ e, is_return e.2 = true) indexed)) as Hin
        by (rewrite He; by left).
      split; [rewrite !elem_of_app; right; right; by left|].
      apply choose_sub in Hin. by apply list_elem_of_filter in Hin as [? _].
    - destruct (choose_some 3 _ Hne) as [e He]. exists e.
      assert (e ∈ choose choice 3 (filter (λ e, is_flight e.2 = true) indexed)) as Hin
        by (rewrite He; by left).
      split; [rewrite !elem_of_app; by do 3 right|].
      apply choose_sub in Hin. by apply list_elem_of_filter in Hin as [? _]. }
  assert (all_actions = [] → selected = []) as Hnone.
  { intros Hnil. destruct selected as [|e sel] eqn:Hs; [done|].
    assert (e ∈ indexed) as Hin by (apply Hsel; by left).
    apply imap_pair_elem in Hin. rewrite Hnil in Hin. by apply elem_of_nil in Hin. }
  assert (all_actions ≠ [] → selected ≠ []) as Hsome.
  { intros Hne Hnil. destruct all_actions as [|a l] eqn:Hall; [done|].
    assert (∃ is_type, is_type ∈ action_types ∧ is_type a = true) as (is_type & Ht & Hta).
    { unfold action_types. destruct a.
      - exists is_move. split; [by left|done].
      - exists is_produce. split; [right; by left|done].
      - exists is_return. split; [do 2 right; by left|done].
      - exists is_flight. split; [do 3 right; by left|done]. }
    destruct (Htypes is_type a Ht) as (e & He & _); [by left|done|].
    rewrite Hnil in He. by apply elem_of_nil in He. }
  destruct (decide _) as [[Hrem Hslots]|Hno].
  - split; [|split; [|split]].
    + intros a (e & -> & [He|He]%elem_of_app)%list_elem_of_fmap;
        apply imap_pair_elem; auto.
    + intros is_type a Ht Ha Hta. destruct (Htypes is_type a Ht Ha Hta) as (e & He & Hte).
      exists e.2. split; [|done]. apply list_elem_of_fmap. exists e.
      split; [done|]. apply elem_of_app. by left.
    + rewrite length_fmap, length_app. unfold extra. rewrite length_take. lia.
    + split.
      * intros Hnil. apply fmap_nil_inv in Hnil. apply app_eq_nil in Hnil as [Hnil _].
        destruct (decide (all_actions = [])) as [|Hne]; [done|]. by apply Hsome in Hne.
      * intros Hnil. exfalso. apply Hrem. unfold remaining, indexed. by rewrite Hnil.
  - split; [|split; [|split]].
    + intros a (e & -> & He)%list_elem_of_fmap. apply imap_pair_elem. auto.
    + intros is_type a Ht Ha Hta. destruct (Htypes is_type a Ht Ha Hta) as (e & He & Hte).
      exists e.2. split; [|done]. apply list_elem_of_fmap. by exists e.
    + rewrite length_fmap. lia.
    + split.
      * intros Hnil. apply fmap_nil_inv in Hnil.
        destruct (decide (all_actions = [])) as [|Hne]; [done|]. by apply Hsome in Hne.
      * intros Hnil. by rewrite (Hnone Hnil).
Qed.

End Sampling.

Lemma random_actions_are_a_bounded_sample_witness :
  (∀ l, given_order l ≡ₚ l) ∧
  get_random_actions always_valid yard_instance held_by_value first_choice given_order yard 5
  = [MoveJigBetweenRacks "j1" "r1" "r2"; SendJigToProduction "j1" "r1";
     ReturnEmptyJigFromFactory "j9" "r1"; ProcessNextFlight;
     MoveJigBetweenRacks "j2" "r1" "r2"] ∧
  ((∀ a, a ∈ get_random_actions always_valid yard_instance held_by_value first_choice
               given_order yard 5 →
         a ∈ get_all_possible_actions always_valid yard_instance yard false) ∧
   (∀ is_type a, is_type ∈ action_types →
      a ∈ get_all_possible_actions always_valid yard_instance yard false →
      is_type a = true →
      ∃ b, b ∈ get_random_actions always_valid yard_instance held_by_value first_choice
                 given_order yard 5 ∧ is_type b = true) ∧
   (Z.of_nat (length (get_random_actions always_valid yard_instance held_by_value
                        first_choice given_order yard 5)) ≤ Z.max 5 4)%Z ∧
   (get_random_actions always_valid yard_instance held_by_value first_choice
      given_order yard 5 = [] ↔
    get_all_possible_actions always_valid yard_instance yard false = [])).
Proof.
  assert (∀ l, given_order l ≡ₚ l) as Hperm by done.
  split; [exact Hperm|]. split; [by vm_compute|].
  exact (random_actions_are_a_bounded_sample always_valid yard_instance held_by_value
           first_choice given_order yard 5 Hperm).
Defined.

End Random_Actions_Theory.

(** ** The score of the local search (beluga_local_search.py) *)

Module Score_Theory.
Import Search.

Lemma fraction_mono (x x' y : Z) : (x ≤ x')%Z → (fraction x y <= fraction x' y)%Q.
Proof.
  intros Hle. unfold fraction. destruct (0 <? y)%Z eqn:Hy; [|lra].
  apply Z.ltb_lt in Hy. unfold Qdiv. apply Qmult_le_compat_r.
  - by rewrite <- Zle_Qle.
  - apply Qinv_le_0_compat. change 0%Q with (inject_Z 0). rewrite <- Zle_Qle. lia.
Qed.

Lemma fraction_nonneg (x y : Z) : (0 ≤ x)%Z → (0 <= fraction x y)%Q.
Proof.
  intros Hx. unfold fraction. destruct (0 <? y)%Z eqn:Hy; [|lra].
  apply Z.ltb_lt in Hy. unfold Qdiv. apply Qmult_le_0_compat.
  - change 0%Q with (inject_Z 0). by rewrite <- Zle_Qle.
  - apply Qinv_le_0_compat. change 0%Q with (inject_Z 0). rewrite <- Zle_Qle. lia.
Qed.

(** X21. _evaluate_state divides only by a positive total, and the score
    grows with the progress: of two states with the same totals, the one
    with at least as many flights processed and parts produced scores at
    least as high, and strictly higher when it has more of either; a
    state with no negative count scores at least 0. *)
Theorem score_grows_with_progress {State Action : Type} (W : @world State Action)
    (s s' : State) :
  total_flights (check_goal_progress W s) = total_flights (check_goal_progress W s') →
  total_parts (check_goal_progress W s) = total_parts (check_goal_progress W s') →
  (flights_processed (check_goal_progress W s)
   ≤ flights_processed (check_goal_progress W s'))%Z →
  (parts_produced (check_goal_progress W s)
   ≤ parts_produced (check_goal_progress W s'))%Z →
  (evaluate_state W s <= evaluate_state W s')%Q ∧
  ((flights_processed (check_goal_progress W s)
    < flights_processed (check_goal_progress W s'))%Z
   ∨ (parts_produced (check_goal_progress W s)
      < parts_produced (check_goal_progress W s'))%Z →
   (evaluate_state W s < evaluate_state W s')%Q) ∧
  ((0 ≤ flights_processed (check_goal_progress W s))%Z →
   (0 ≤ parts_produced (check_goal_progress W s))%Z →
   (0 <= evaluate_state W s)%Q).
Proof.
  intros Htf Htp Hfp Hpp. unfold evaluate_state. rewrite <- Htf, <- Htp.
  pose proof (fraction_mono _ _ (total_flights (check_goal_progress W s)) Hfp) as Hf.
  pose proof (fraction_mono _ _ (total_parts (check_goal_progress W s)) Hpp) as Hp.
  pose proof Hfp as Hfq. pose proof Hpp as Hpq.
  rewrite Zle_Qle in Hfq, Hpq.
  split; [lra|]. split.
  - intros [Hlt|Hlt]; rewrite Zlt_Qlt in Hlt; lra.
  - intros H0f H0p.
    pose proof (fraction_nonneg _ (total_flights (check_goal_progress W s)) H0f).
    pose proof (fraction_nonneg _ (total_parts (check_goal_progress W s)) H0p).
    rewrite Zle_Qle in H0f, H0p. change (inject_Z 0) with 0%Q in *. lra.
Qed.

Lemma score_grows_with_progress_witness :
  total_flights (check_goal_progress demo_world 0%nat)
  = total_flights (check_goal_progress demo_world 1%nat) ∧
  (evaluate_state demo_world 0%nat == 0)%Q ∧
  (evaluate_state demo_world 1%nat == 100)%Q ∧
  ((evaluate_state demo_world 0%nat <= evaluate_state demo_world 1%nat)%Q ∧
   ((flights_processed (check_goal_progress demo_world 0%nat)
     < flights_processed (check_goal_progress demo_world 1%nat))%Z
    ∨ (parts_produced (check_goal_progress demo_world 0%nat)
       < parts_produced (check_goal_progress demo_world 1%nat))%Z →
    (evaluate_state demo_world 0%nat < evaluate_state demo_world 1%nat)%Q) ∧
   ((0 ≤ flights_processed (check_goal_progress demo_world 0%nat))%Z →
    (0 ≤ parts_produced (check_goal_progress demo_world 0%nat))%Z →
    (0 <= evaluate_state demo_world 0%nat)%Q)).
Proof.
  split; [reflexivity|]. split; [by vm_compute|]. split; [by vm_compute|].
  apply (score_grows_with_progress demo_world 0%nat 1%nat);
    [reflexivity|reflexivity|simpl; lia|simpl; lia].
Defined.

End Score_Theory.

(** ** The order in which a queue serves its items *)

Module PQ_Ops_Theory.
Import PQ PQ_Theory PQ_Ops.

Section Ops.
Context {A : Type}.
Implicit Types (lt : A → A → bool) (e m : @entry A) (l rest : list (@entry A)).
Implicit Types (q : @PriorityQueue A) (ops : list (@op A)) (w : list (Q * A)).

(** [heappop] on entries in the order of their counts: where the popped
    entry stood. *)
Lemma pop_min_split lt l e rest :
  StronglySorted by_count l → pop_min lt l = Some (e, rest) →
  ∃ l1 l2, l = l1 ++ e :: l2 ∧ rest = l1 ++ l2 ∧
           Forall (λ e', (priority e < priority e')%Q) l1 ∧
           Forall (λ e', (priority e <= priority e')%Q) l2.
Proof.
  revert e rest. induction l as [|e0 l IH]; intros e rest Hs; simpl; [done|].
  apply StronglySorted_cons in Hs as [Hall Hs]. rewrite Forall_forall in Hall.
  destruct (pop_min lt l) as [[m rest']|] eqn:Hpop.
  - destruct (IH m rest' Hs eq_refl) as (l1 & l2 & Hl & -> & H1 & H2).
    assert (m ∈ l) as Hm by (rewrite Hl; apply elem_of_app; right; by left).
    pose proof (entry_lt_count lt e0 m (Hall m Hm)) as Hlt.
    destruct (entry_lt lt m e0) eqn:E; intros [= <- <-].
    + exists (e0 :: l1), l2. rewrite Hl. split; [done|]. split; [done|].
      split; [|done]. constructor; [by apply Hlt|done].
    + exists [], l. split; [done|]. split; [done|]. split; [constructor|].
      assert (priority e0 <= priority m)%Q as Hle.
      { destruct (Qlt_le_dec (priority m) (priority e0)) as [Hl'|Hl']; [|done].
        apply Hlt in Hl'. congruence. }
      rewrite Hl. apply Forall_app. split.
      * eapply Forall_impl; [exact H1|]. simpl. intros e' He'. lra.
      * constructor; [done|].
        eapply Forall_impl; [exact H2|]. simpl. intros e' He'. lra.
  - intros [= <- <-]. apply pop_min_nil in Hpop as ->.
    exists [], []. repeat split; constructor.
Qed.

(** A [get] serves the oldest of the least items that wait. *)
Lemma get_oldest_least lt q x q' :
  reachable lt q → get lt q = Ok (x, q') →
  ∃ p, oldest_least (waiting q) p x (waiting q') ∧ entry_count q' = entry_count q.
Proof.
  intros Hreach. destruct (reachable_well_formed lt q Hreach) as [Hs _].
  unfold get. destruct (pop_min lt (elements q)) as [[e rest]|] eqn:Hpop; [|done].
  intros [= <- <-].
  destruct (pop_min_split lt _ e rest Hs Hpop) as (l1 & l2 & Hl & -> & H1 & H2).
  exists (priority e). split; [|done].
  exists ((λ e, (priority e, item e)) <$> l1), ((λ e, (priority e, item e)) <$> l2).
  unfold waiting. simpl. rewrite Hl, !fmap_app, fmap_cons.
  split; [done|]. split; [done|].
  split; apply Forall_fmap; (eapply Forall_impl; [eassumption|done]).
Qed.

Lemma waiting_put (x : A) (p : Q) q : waiting (put x p q) = waiting q ++ [(p, x)].
Proof. unfold waiting, put. simpl. by rewrite fmap_app. Qed.

(** The run of the calls follows the specified order of service. *)
Lemma run_serves lt ops q xs q' :
  reachable lt q → run lt ops q = Ok (xs, q') →
  serves ops (waiting q) xs (waiting q') ∧ reachable lt q'.
Proof.
  revert q xs q'. induction ops as [|[x p|] ops IH]; intros q xs q' Hreach; simpl.
  - intros [= <- <-]. split; [constructor|done].
  - intros Hrun. destruct (IH _ _ _ (reach_put lt q x p Hreach) Hrun) as [Hserves Hq'].
    split; [|done]. constructor. by rewrite <- waiting_put.
  - destruct (get lt q) as [[x q1]|] eqn:Hget; [|done].
    destruct (run lt ops q1) as [[xs1 q2]|] eqn:Hrun; [|done].
    intros [= <- <-].
    destruct (IH _ _ _ (reach_get lt q x q1 Hreach Hget) Hrun) as [Hserves Hq'].
    destruct (get_oldest_least lt q x q1 Hreach Hget) as (p & Hold & _).
    split; [|done]. by econstructor.
Qed.

Lemma run_underflows lt ops q :
  if underflows ops (length (elements q))
  then run lt ops q = Raise IndexError
  else ∃ xs q', run lt ops q = Ok (xs, q').
Proof.
  revert q. induction ops as [|[x p|] ops IH]; intros q; simpl.
  - by eexists _, _.
  - specialize (IH (put x p q)). unfold put in IH at 1. simpl in IH.
    rewrite length_app in IH. simpl in IH.
    by replace (length (elements q) + 1) with (S (length (elements q))) in IH by lia.
  - unfold get. destruct (pop_min lt (elements q)) as [[e rest]|] eqn:Hpop.
    + pose proof (pop_min_elem lt _ e rest Hpop) as (_ & Hperm & _).
      apply Permutation_length in Hperm. rewrite Hperm. simpl.
      specialize (IH {| elements := rest; entry_count := entry_count q |}). simpl in IH.
      destruct (underflows ops (length rest)).
      * by rewrite IH.
      * destruct IH as (xs & q' & ->). by eexists _, _.
    + apply pop_min_nil in Hpop. by rewrite Hpop.
Qed.

Lemma run_ext lt lt' ops q :
  reachable lt q → reachable lt' q → run lt' ops q = run lt ops q.
Proof.
  revert q. induction ops as [|[x p|] ops IH]; intros q Hq Hq'; simpl; [done| |].
  - apply IH; by constructor.
  - assert (get lt' q = get lt q) as Hget.
    { unfold get. destruct (reachable_well_formed lt q Hq) as [Hs _].
      by rewrite (pop_min_ext lt' lt (elements q) Hs). }
    rewrite Hget. destruct (get lt q) as [[x q1]|] eqn:Hg; [|done].
    rewrite IH; [done| |].
    + by eapply reach_get.
    + eapply reach_get; [exact Hq'|]. by rewrite Hget.
Qed.

(** Two ways to cut a list at one of its elements. *)
Lemma app_cons_cases {B : Type} (l1 l2 l1' l2' : list B) (a b : B) :
  l1 ++ a :: l2 = l1' ++ b :: l2' →
  (l1 = l1' ∧ a = b ∧ l2 = l2') ∨ (a ∈ l1' ∧ b ∈ l2) ∨ (a ∈ l2' ∧ b ∈ l1).
Proof.
  revert l1'. induction l1 as [|c l1 IH]; intros [|c' l1']; simpl; intros [= ? Heq].
  - left. by subst.
  - right. left. subst. split; [by left|]. apply elem_of_app. right. by left.
  - right. right. subst. split; [|by left]. apply elem_of_app. right. by left.
  - subst. destruct (IH l1' Heq) as [(-> & -> & ->)|[[Ha Hb]|[Ha Hb]]].
    + by left.
    + right. left. split; [by right|done].
    + right. right. split; [done|by right].
Qed.

(** The item that is served is determined by what waits. *)
Lemma oldest_least_unique w (p p' : Q) (x x' : A) (r r' : list (Q * A)) :
  oldest_least w p x r → oldest_least w p' x' r' →
  p = p' ∧ x = x' ∧ r = r'.
Proof.
  intros (l1 & l2 & -> & -> & H1 & H2) (l1' & l2' & Heq & -> & H1' & H2').
  rewrite Forall_forall in H1, H2, H1', H2'.
  destruct (app_cons_cases _ _ _ _ _ _ Heq) as [(-> & [= -> ->] & ->)|[[Ha Hb]|[Ha Hb]]].
  - done.
  - specialize (H1' _ Ha). specialize (H2 _ Hb). simpl in *. exfalso. lra.
  - specialize (H2' _ Ha). specialize (H1 _ Hb). simpl in *. exfalso. lra.
Qed.

Lemma serves_unique ops w xs1 w1 xs2 w2 :
  serves ops w xs1 w1 → serves ops w xs2 w2 → xs1 = xs2 ∧ w1 = w2.
Proof.
  intros Hs1. revert xs2 w2.
  induction Hs1 as [w|x p ops w xs w' _ IH|ops w p x rest xs w' Hold _ IH];
    intros xs2 w2 Hs2; inversion Hs2; subst.
  - done.
  - by apply IH.
  - match goal with
    | H : oldest_least w _ _ _ |- _ =>
        destruct (oldest_least_unique _ _ _ _ _ _ _ Hold H) as (_ & -> & ->)
    end.
    match goal with
    | H : serves ops _ _ w2 |- _ => destruct (IH _ _ H) as [-> ->]
    end.
    done.
Qed.

End Ops.

(** C8. Whatever calls of [put] and [get] a client makes on a new queue, in
    any number and order, and whatever priorities it passes: every [get]
    returns an item that waits with the least of the priorities passed to
    [put], and of the items waiting with this priority the one put first;
    the items put before it have strictly higher priorities. The items
    returned and the items left waiting are determined by the calls alone:
    the run is the same for every order on the items, which are never
    compared. A [get] raises (IndexError) exactly when nothing waits. *)
Theorem get_returns_least_then_oldest {A : Type} (lt lt' : A → A → bool)
    (ops : list (@op A)) :
  (∀ xs q, run lt ops new_queue = Ok (xs, q) → serves ops [] xs (waiting q)) ∧
  (∀ w xs1 w1 xs2 w2, serves ops w xs1 w1 → serves ops w xs2 w2 → xs1 = xs2 ∧ w1 = w2) ∧
  run lt' ops new_queue = run lt ops new_queue ∧
  (if underflows ops 0
   then run lt ops new_queue = Raise IndexError
   else ∃ xs q, run lt ops new_queue = Ok (xs, q)).
Proof.
  split; [|split; [|split]].
  - intros xs q Hrun.
    by destruct (run_serves lt ops new_queue xs q (reach_new lt) Hrun).
  - apply serves_unique.
  - apply run_ext; constructor.
  - apply (run_underflows lt ops new_queue).
Qed.

Lemma get_returns_least_then_oldest_witness :
  run Nat.ltb tie_calls new_queue = Ok ([7; 8; 9], {| elements := []; entry_count := 3 |}) ∧
  run Nat.ltb (tie_calls ++ [Get]) new_queue = Raise IndexError ∧
  ((∀ xs q, run Nat.ltb tie_calls new_queue = Ok (xs, q) →
      serves tie_calls [] xs (waiting q)) ∧
   (∀ w xs1 w1 xs2 w2,
      serves tie_calls w xs1 w1 → serves tie_calls w xs2 w2 → xs1 = xs2 ∧ w1 = w2) ∧
   run (λ _ _, true) tie_calls new_queue = run Nat.ltb tie_calls new_queue ∧
   (if underflows tie_calls 0
    then run Nat.ltb tie_calls new_queue = Raise IndexError
    else ∃ xs q, run Nat.ltb tie_calls new_queue = Ok (xs, q))).
Proof.
  split; [reflexivity|]. split; [reflexivity|].
  exact (get_returns_least_then_oldest Nat.ltb (λ _ _, true) tie_calls).
Defined.

(** X3. Two calls of [get] in a row, after any calls on a new queue: the
    first serves the oldest of the least items waiting, the second the
    oldest of the least that are left; the second has a priority that is
    not lower, and at equal priority it stood behind the first, that is,
    was put later. The two items are told by where they wait, not by
    their values: an item may wait twice. *)
Theorem successive_gets_are_ordered {A : Type} (lt : A → A → bool)
    (ops : list (@op A)) (xs : list A) (q q1 q2 : @PriorityQueue A) (x1 x2 : A) :
  run lt ops new_queue = Ok (xs, q) →
  get lt q = Ok (x1, q1) → get lt q1 = Ok (x2, q2) →
  run lt (ops ++ [Get; Get]) new_queue = Ok (xs ++ [x1; x2], q2) ∧
  serves ops [] xs (waiting q) ∧
  ∃ l1 l2 l1' l2' p1 p2,
    waiting q = l1 ++ (p1, x1) :: l2 ∧ waiting q1 = l1 ++ l2 ∧
    Forall (λ e, (p1 < e.1)%Q) l1 ∧ Forall (λ e, (p1 <= e.1)%Q) l2 ∧
    waiting q1 = l1' ++ (p2, x2) :: l2' ∧ waiting q2 = l1' ++ l2' ∧
    Forall (λ e, (p2 < e.1)%Q) l1' ∧ Forall (λ e, (p2 <= e.1)%Q) l2' ∧
    (p1 <= p2)%Q ∧ ((p1 == p2)%Q → length l1 ≤ length l1').
Proof.
  intros Hrun Hg1 Hg2.
  destruct (run_serves lt ops new_queue xs q (reach_new lt) Hrun) as [Hserves Hq].
  pose proof (reach_get lt q x1 q1 Hq Hg1) as Hq1.
  split; [|split; [done|]].
  { clear Hserves Hq Hq1. revert Hrun. generalize (@new_queue A). revert xs.
    induction ops as [|[x p|] ops IH]; intros xs q0; simpl.
    - intros [= <- <-]. by rewrite Hg1, Hg2.
    - apply IH.
    - destruct (get lt q0) as [[y q0']|]; [|done].
      destruct (run lt ops q0') as [[ys q0'']|] eqn:Hr; [|done].
      intros [= <- <-]. by rewrite (IH ys q0' Hr). }
  destruct (get_oldest_least lt q x1 q1 Hq Hg1) as (p1 & (l1 & l2 & Hw & Hw1 & H1 & H2) & _).
  destruct (get_oldest_least lt q1 x2 q2 Hq1 Hg2)
    as (p2 & (l1' & l2' & Hw1' & Hw2 & H1' & H2') & _).
  exists l1, l2, l1', l2', p1, p2. do 8 (split; [done|]).
  assert ((p2, x2) ∈ l1 ++ l2) as Hin.
  { rewrite <- Hw1, Hw1'. apply elem_of_app. right. by left. }
  rewrite Forall_forall in H1, H2.
  split.
  - apply elem_of_app in Hin as [Hin|Hin].
    + specialize (H1 _ Hin). simpl in H1. lra.
    + by specialize (H2 _ Hin).
  - intros Heq. destruct (decide (length l1 ≤ length l1')) as [|Hlt]; [done|].
    exfalso. assert ((l1 ++ l2) !! length l1' = Some (p2, x2)) as Hlook.
    { rewrite <- Hw1, Hw1'. by rewrite list_lookup_middle. }
    rewrite lookup_app_l in Hlook by lia.
    apply list_elem_of_lookup_2 in Hlook. specialize (H1 _ Hlook). simpl in H1. lra.
Qed.

Lemma successive_gets_are_ordered_witness :
  run Nat.ltb twice_put new_queue
    = Ok ([], {| elements := [(1%Q, 0, 5); (2%Q, 1, 6); (3%Q, 2, 5)]; entry_count := 3 |}) ∧
  get Nat.ltb {| elements := [(1%Q, 0, 5); (2%Q, 1, 6); (3%Q, 2, 5)]; entry_count := 3 |}
    = Ok (5, {| elements := [(2%Q, 1, 6); (3%Q, 2, 5)]; entry_count := 3 |}) ∧
  get Nat.ltb {| elements := [(2%Q, 1, 6); (3%Q, 2, 5)]; entry_count := 3 |}
    = Ok (6, {| elements := [(3%Q, 2, 5)]; entry_count := 3 |}) ∧
  (run Nat.ltb (twice_put ++ [Get; Get]) new_queue
     = Ok ([] ++ [5; 6], {| elements := [(3%Q, 2, 5)]; entry_count := 3 |}) ∧
   serves twice_put [] []
     (waiting {| elements := [(1%Q, 0, 5); (2%Q, 1, 6); (3%Q, 2, 5)]; entry_count := 3 |}) ∧
   ∃ l1 l2 l1' l2' p1 p2,
     waiting {| elements := [(1%Q, 0, 5); (2%Q, 1, 6); (3%Q, 2, 5)]; entry_count := 3 |}
       = l1 ++ (p1, 5) :: l2 ∧
     waiting {| elements := [(2%Q, 1, 6); (3%Q, 2, 5)]; entry_count := 3 |} = l1 ++ l2 ∧
     Forall (λ e, (p1 < e.1)%Q) l1 ∧ Forall (λ e, (p1 <= e.1)%Q) l2 ∧
     waiting {| elements := [(2%Q, 1, 6); (3%Q, 2, 5)]; entry_count := 3 |}
       = l1' ++ (p2, 6) :: l2' ∧
     waiting {| elements := [(3%Q, 2, 5)]; entry_count := 3 |} = l1' ++ l2' ∧
     Forall (λ e, (p2 < e.1)%Q) l1' ∧ Forall (λ e, (p2 <= e.1)%Q) l2' ∧
     (p1 <= p2)%Q ∧ ((p1 == p2)%Q → length l1 ≤ length l1')).
Proof.
  assert (run Nat.ltb twice_put new_queue
          = Ok ([], {| elements := [(1%Q, 0, 5); (2%Q, 1, 6); (3%Q, 2, 5)];
                       entry_count := 3 |})) as Hrun by reflexivity.
  assert (get Nat.ltb {| elements := [(1%Q, 0, 5); (2%Q, 1, 6); (3%Q, 2, 5)];
                         entry_count := 3 |}
          = Ok (5, {| elements := [(2%Q, 1, 6); (3%Q, 2, 5)]; entry_count := 3 |}))
    as Hg1 by reflexivity.
  assert (get Nat.ltb {| elements := [(2%Q, 1, 6); (3%Q, 2, 5)]; entry_count := 3 |}
          = Ok (6, {| elements := [(3%Q, 2, 5)]; entry_count := 3 |}))
    as Hg2 by reflexivity.
  split; [exact Hrun|]. split; [exact Hg1|]. split; [exact Hg2|].
  exact (successive_gets_are_ordered Nat.ltb twice_put [] _ _ _ 5 6 Hrun Hg1 Hg2).
Defined.

End PQ_Ops_Theory.

(** ** The main loop of the hybrid search, turn by turn *)

Module Hybrid_Run_Theory.
Import PQ Search Search_Theory Hybrid_Run.

(** An index is drawn by exactly one of the numbers below the length. *)
Lemma filter_seq_eq (i start n : nat) :
  filter (λ j, j = i) (seq start n) = if decide (start ≤ i < start + n) then [i] else [].
Proof.
  revert start. induction n as [|n IH]; intros start; simpl.
  - rewrite decide_False by lia. done.
  - rewrite filter_cons, IH. destruct (decide (start = i)) as [->|Hne].
    + rewrite decide_False by lia. by rewrite decide_True by lia.
    + destruct (decide (S start ≤ i < S start + n)).
      * by rewrite decide_True by lia.
      * by rewrite decide_False by lia.
Qed.

Lemma pick_nonempty {B : Type} (l : list B) (i : nat) (x : B) :
  l !! i = Some x →
  match l with
  | [] => None
  | _ :: _ => l !! i
  end = Some x.
Proof. by destruct l. Qed.

Lemma one_draw_each {B : Type} `{EqDecision B} (l : list B) (s : B) :
  NoDup l → s ∈ l →
  length (filter (λ i, l !! i = Some s) (seq 0 (length l))) = 1.
Proof.
  intros Hnd [i Hi]%list_elem_of_lookup.
  rewrite (list_filter_iff _ (λ j, j = i)).
  - rewrite filter_seq_eq. apply lookup_lt_Some in Hi.
    by rewrite decide_True by lia.
  - intros j. split; [|by intros ->].
    intros Hj. by eapply NoDup_lookup.
Qed.

Section Run.
Context {State Action : Type} `{Countable State}.
Variable W : @world State Action.
Variable O : @oracle State Action.
Variable variant : string.
Variables prioritize use_forward_checking use_random_restarts : bool.
Variable random_restart_threshold : Z.
Variable time_limit : Q.

Abbreviation turn_of := (hybrid_turn W O variant prioritize use_forward_checking
                       use_random_restarts random_restart_threshold time_limit).
Abbreviation after := (hybrid_config_after W O variant prioritize use_forward_checking
                     use_random_restarts random_restart_threshold time_limit).
Abbreviation loop := (hybrid_loop W O variant prioritize use_forward_checking
                    use_random_restarts random_restart_threshold time_limit).

(** The loop of [hybrid_astar_search] takes its turns one by one. *)
Lemma hybrid_loop_turn fuel (c : config) :
  loop (S fuel) (cf_iterations c) (cf_store c) (cf_tracking c)
  = match turn_of c with
    | Leaves x => x
    | Goes c' => loop fuel (cf_iterations c') (cf_store c') (cf_tracking c')
    end.
Proof.
  unfold hybrid_turn. simpl.
  destruct (is_empty _); [done|]. destruct (timed_out _ _ _); [done|].
  destruct (get _ _) as [[cur open']|]; [|done].
  destruct (is_goal_state W cur); [done|].
  destruct (stagnation_block _ _ _ _ _ _ _ _) as [[t' frontier] [|]]; [done|].
  by destruct (for_each _ _ _).
Qed.

Lemma hybrid_loop_after n (c0 c : config) fuel :
  after n c0 = Some c →
  loop (n + fuel) (cf_iterations c0) (cf_store c0) (cf_tracking c0)
  = loop fuel (cf_iterations c) (cf_store c) (cf_tracking c).
Proof.
  revert c0. induction n as [|n IH]; intros c0; simpl.
  - by intros [= ->].
  - destruct (turn_of c0) as [x|c1] eqn:Hturn; [done|]. intros Hafter.
    pose proof (hybrid_loop_turn (n + fuel) c0) as Hstep. rewrite Hturn in Hstep.
    rewrite <- (IH c1 Hafter). exact Hstep.
Qed.

Lemma turn_iterations (c c' : config) :
  turn_of c = Goes c' → cf_iterations c' = S (cf_iterations c).
Proof.
  unfold hybrid_turn.
  destruct (is_empty _); [done|]. destruct (timed_out _ _ _); [done|].
  destruct (get _ _) as [[cur open']|]; [|done].
  destruct (is_goal_state W cur); [done|].
  destruct (stagnation_block _ _ _ _ _ _ _ _) as [[t' frontier] [|]].
  - by intros [= <-].
  - destruct (for_each _ _ _); [|done]. by intros [= <-].
Qed.

Lemma after_iterations n (c0 c : config) :
  after n c0 = Some c → cf_iterations c = cf_iterations c0 + n.
Proof.
  revert c0. induction n as [|n IH]; intros c0; simpl.
  - intros [= ->]. lia.
  - destruct (turn_of c0) as [x|c1] eqn:Hturn; [done|]. intros Hafter.
    rewrite (IH c1 Hafter), (turn_iterations c0 c1 Hturn). lia.
Qed.

(** A turn leaves the loop as ended only on an empty frontier. *)
Lemma turn_ended (c : config) :
  turn_of c = Leaves LoopEnded → is_empty (open_set (cf_store c)) = true.
Proof.
  unfold hybrid_turn.
  destruct (is_empty _); [done|]. destruct (timed_out _ _ _); [done|].
  destruct (get _ _) as [[cur open']|]; [|done].
  destruct (is_goal_state W cur); [done|].
  destruct (stagnation_block _ _ _ _ _ _ _ _) as [[t' frontier] [|]]; [done|].
  by destruct (for_each _ _ _).
Qed.

(** The loop ends, rather than returns, only by an empty frontier or by
    the cap. *)
Lemma hybrid_loop_ended fuel (c0 : config) :
  loop fuel (cf_iterations c0) (cf_store c0) (cf_tracking c0) = LoopEnded →
  ∃ m c, m ≤ fuel ∧ after m c0 = Some c ∧
         (is_empty (open_set (cf_store c)) = true ∨ m = fuel).
Proof.
  revert c0. induction fuel as [|fuel IH]; intros c0.
  - intros _. exists 0, c0. split; [done|]. split; [done|]. by right.
  - rewrite hybrid_loop_turn. destruct (turn_of c0) as [x|c1] eqn:Hturn.
    + intros ->. exists 0, c0. split; [lia|]. split; [done|]. left. by apply turn_ended.
    + intros (m & c & Hm & Hafter & Hend)%IH.
      exists (S m), c. split; [lia|]. split; [simpl; by rewrite Hturn|].
      destruct Hend as [? | ->]; [by left|by right].
Qed.

(** The candidates for a restart are never listed twice. *)
Lemma note_progress_nodup cur (t : @tracking State) :
  NoDup (restart_states t) →
  NoDup (restart_states (note_progress W use_random_restarts cur t)).
Proof.
  intros Hnd. unfold note_progress. destruct (_ || _)%bool; [|done]. simpl.
  destruct use_random_restarts; [|done]. simpl.
  destruct (bool_decide_reflect (cur ∉ restart_states t)) as [Hout|_]; [|done].
  apply NoDup_app. split; [done|]. split; [|apply NoDup_singleton].
  by intros x Hx ->%list_elem_of_singleton.
Qed.

Lemma turn_nodup (c c' : config) :
  turn_of c = Goes c' →
  NoDup (restart_states (cf_tracking c)) → NoDup (restart_states (cf_tracking c')).
Proof.
  unfold hybrid_turn.
  destruct (is_empty _); [done|]. destruct (timed_out _ _ _); [done|].
  destruct (get _ _) as [[cur open']|]; [|done].
  destruct (is_goal_state W cur); [done|].
  intros Hturn Hnd.
  assert (NoDup (restart_states
            (stagnation_block W O use_random_restarts random_restart_threshold
               (S (cf_iterations c)) cur (cf_tracking c) open').1.1)) as Hblock.
  { unfold stagnation_block. destruct (decide _); [|done].
    destruct (restart_seed _ _ _ _ _); simpl; by apply note_progress_nodup. }
  destruct (stagnation_block _ _ _ _ _ _ _ _) as [[t' frontier] [|]]; simpl in Hblock.
  - by injection Hturn as <-.
  - destruct (for_each _ _ _); [|done]. by injection Hturn as <-.
Qed.

Lemma after_nodup n (c0 c : config) :
  after n c0 = Some c →
  NoDup (restart_states (cf_tracking c0)) → NoDup (restart_states (cf_tracking c)).
Proof.
  revert c0. induction n as [|n IH]; intros c0; simpl.
  - by intros [= ->].
  - destruct (turn_of c0) as [x|c1] eqn:Hturn; [done|]. intros Hafter Hnd.
    apply (IH c1 Hafter). by apply (turn_nodup c0).
Qed.

End Run.



(** C7 (amended). Take the main loop of hybrid_astar_search after any
    number n of turns, n within the iteration cap. If the frontier is not
    empty, the cap is not reached and the clock passes the time limit at
    the check of the next turn, the search returns None and has made no
    call of Local Search, whatever the restart flag. If the frontier is
    empty or the cap is reached, the loop ends: without random restarts
    the search returns None and calls nothing; with them it calls Local
    Search once, on the initial state with time limit
    max(5, time_limit / 10), and returns its plan when that is not empty:
    for None and for the empty plan the search returns None. Local Search
    is called in no other run: a search that called it had random
    restarts and a loop that ended on an empty frontier or at the cap. *)
Theorem time_limit_fails_without_fallback {State Action : Type} `{Countable State}
    (W : @world State Action) (O : @oracle State Action)
    (initial_state : State) (max_iterations : Z) (time_limit : Q)
    (variant : string) (prioritize use_forward_checking use_random_restarts : bool)
    (random_restart_threshold : Z) (n : nat) (c : @config State Action _ _) :
  hybrid_config_after W O variant prioritize use_forward_checking use_random_restarts
    random_restart_threshold time_limit n (initial_config initial_state) = Some c →
  n ≤ Z.to_nat max_iterations →
  let r := hybrid_astar_search W O initial_state max_iterations time_limit variant
             prioritize use_forward_checking use_random_restarts
             random_restart_threshold in
  let budget := fallback_budget time_limit in
  let local := ls_plan (solve W O initial_state budget 5000) in
  (n < Z.to_nat max_iterations →
   elements (open_set (cf_store c)) ≠ [] →
   (time_limit < elapsed O (S n))%Q →
   r = {| hy_outcome := NotFound; hy_local_calls := [] |}) ∧
  (elements (open_set (cf_store c)) = [] ∨ n = Z.to_nat max_iterations →
   hy_local_calls r = (if use_random_restarts then [(initial_state, budget)] else []) ∧
   hy_outcome r =
     (if use_random_restarts
      then match local with
           | Some (a :: plan) => Found (a :: plan)
           | Some [] => NotFound
           | None => NotFound
           end
      else NotFound)) ∧
  (hy_local_calls r ≠ [] →
   use_random_restarts = true ∧ hy_local_calls r = [(initial_state, budget)] ∧
   ∃ m c',
     m ≤ Z.to_nat max_iterations ∧
     hybrid_config_after W O variant prioritize use_forward_checking use_random_restarts
       random_restart_threshold time_limit m (initial_config initial_state) = Some c' ∧
     (elements (open_set (cf_store c')) = [] ∨ m = Z.to_nat max_iterations)) ∧
  ((5 <= budget)%Q ∧ (time_limit / 10 <= budget)%Q ∧
   ((budget == 5)%Q ∨ (budget == time_limit / 10)%Q)).
Proof.
  intros Hafter Hcap r budget local.
  pose proof (after_iterations W O _ _ _ _ _ _ _ _ _ Hafter) as Hn. simpl in Hn.
  assert (∀ fuel,
            hybrid_loop W O variant prioritize use_forward_checking use_random_restarts
              random_restart_threshold time_limit (n + fuel) 0
              (initial_store initial_state) initial_tracking
            = hybrid_loop W O variant prioritize use_forward_checking
                use_random_restarts random_restart_threshold time_limit fuel n
                (cf_store c) (cf_tracking c)) as Hloop.
  { intros fuel.
    pose proof (hybrid_loop_after W O _ _ _ _ _ _ _ _ _ fuel Hafter) as Hl.
    unfold initial_config in Hl at 1 2 3.
    cbn [cf_iterations cf_store cf_tracking] in Hl. by rewrite Hl, Hn. }
  split; [|split; [|split]].
  - intros Hlt Hne Hto. subst r. unfold hybrid_astar_search.
    replace (Z.to_nat max_iterations) with (n + S (Z.to_nat max_iterations - S n)) by lia.
    rewrite Hloop, hybrid_loop_timeout_at_once; [done| |].
    + unfold is_empty. apply bool_decide_eq_false. by destruct (elements _).
    + by apply Qltb_lt.
  - intros Hend. subst r. unfold hybrid_astar_search.
    replace (Z.to_nat max_iterations) with (n + (Z.to_nat max_iterations - n)) by lia.
    rewrite Hloop.
    assert (hybrid_loop W O variant prioritize use_forward_checking use_random_restarts
              random_restart_threshold time_limit (Z.to_nat max_iterations - n) n
              (cf_store c) (cf_tracking c) = LoopEnded) as ->.
    { destruct Hend as [Hempty | ->]; [|by rewrite Nat.sub_diag].
      destruct (Z.to_nat max_iterations - n); [done|]. simpl.
      unfold is_empty. by rewrite Hempty. }
    destruct use_random_restarts; [|done]. fold budget. fold local.
    split; [done|]. by destruct local as [[|a plan]|].
  - intros Hcalls. subst r. unfold hybrid_astar_search in Hcalls |- *.
    destruct (hybrid_loop _ _ _ _ _ _ _ _ _ _ _ _) eqn:Hexit; [done|].
    destruct use_random_restarts; [|done]. split; [done|]. split; [done|].
    pose proof (hybrid_loop_ended W O variant prioritize use_forward_checking true
                  random_restart_threshold time_limit (Z.to_nat max_iterations)
                  (initial_config initial_state) Hexit) as (m & c' & Hm & Hc' & Hend).
    exists m, c'. split; [done|]. split; [done|].
    destruct Hend as [Hempty|Hm']; [left|by right].
    unfold is_empty in Hempty. apply bool_decide_eq_true in Hempty.
    by apply length_zero_iff_nil.
  - apply fallback_budget_max.
Qed.

Lemma time_limit_fails_without_fallback_witness :
  hybrid_config_after demo_world ticking_oracle "standard" false false true 3000 (3 # 2)
    1 (initial_config 0) = Some demo_first ∧
  1 ≤ Z.to_nat 100 ∧
  elements (open_set (cf_store demo_first)) = [(2%Q, 1, 1)] ∧
  ((3 # 2) < elapsed ticking_oracle 2)%Q ∧
  hybrid_astar_search demo_world ticking_oracle 0 100 (3 # 2) "standard" false false true
    3000 = {| hy_outcome := NotFound; hy_local_calls := [] |} ∧
  (
  (1 < Z.to_nat 100 →
   elements (open_set (cf_store demo_first)) ≠ [] →
   ((3 # 2) < elapsed ticking_oracle (2))%Q →
   (hybrid_astar_search demo_world ticking_oracle 0 100 (3 # 2) "standard" false false true 3000) = {| hy_outcome := NotFound; hy_local_calls := [] |}) ∧
  (elements (open_set (cf_store demo_first)) = [] ∨ 1 = Z.to_nat 100 →
   hy_local_calls (hybrid_astar_search demo_world ticking_oracle 0 100 (3 # 2) "standard" false false true 3000) = (if true then [(0, (fallback_budget (3 # 2)))] else []) ∧
   hy_outcome (hybrid_astar_search demo_world ticking_oracle 0 100 (3 # 2) "standard" false false true 3000) =
     (if true
      then match (ls_plan (solve demo_world ticking_oracle 0 (fallback_budget (3 # 2)) 5000)) with
           | Some (a :: plan) => Found (a :: plan)
           | Some [] => NotFound
           | None => NotFound
           end
      else NotFound)) ∧
  (hy_local_calls (hybrid_astar_search demo_world ticking_oracle 0 100 (3 # 2) "standard" false false true 3000) ≠ [] →
   true = true ∧ hy_local_calls (hybrid_astar_search demo_world ticking_oracle 0 100 (3 # 2) "standard" false false true 3000) = [(0, (fallback_budget (3 # 2)))] ∧
   ∃ m cfg,
     m ≤ Z.to_nat 100 ∧
     hybrid_config_after demo_world ticking_oracle "standard" false false true
       3000 (3 # 2) m (initial_config 0) = Some cfg ∧
     (elements (open_set (cf_store cfg)) = [] ∨ m = Z.to_nat 100)) ∧
  ((5 <= (fallback_budget (3 # 2)))%Q ∧ ((3 # 2) / 10 <= (fallback_budget (3 # 2)))%Q ∧
   (((fallback_budget (3 # 2)) == 5)%Q ∨ ((fallback_budget (3 # 2)) == (3 # 2) / 10)%Q))).
Proof.
  assert (hybrid_config_after demo_world ticking_oracle "standard" false false true 3000
            (3 # 2) 1 (initial_config 0) = Some demo_first) as Hafter
    by (vm_compute; reflexivity).
  assert (1 ≤ Z.to_nat 100) as Hcap by (vm_compute; lia).
  split; [exact Hafter|]. split; [exact Hcap|].
  split; [vm_compute; reflexivity|]. split; [reflexivity|].
  split; [vm_compute; reflexivity|].
  exact (time_limit_fails_without_fallback demo_world ticking_oracle 0 100 (3 # 2)
           "standard" false false true 3000 1 demo_first Hafter Hcap).
Defined.

(** C7, the claim as it was made: on a start that is a goal state, with an
    iteration cap of 0, the loop ends at once, Local Search is called and
    finds the empty plan, and the search returns None. *)
Lemma fallback_drops_the_empty_plan :
  is_goal_state demo_world 2 = true ∧
  hy_local_calls
    (hybrid_astar_search demo_world (demo_oracle 1) 2 0 60 "standard" false false true 3000)
  = [(2, fallback_budget 60)] ∧
  ls_plan (solve demo_world (demo_oracle 1) 2 (fallback_budget 60) 5000) = Some [] ∧
  hy_outcome
    (hybrid_astar_search demo_world (demo_oracle 1) 2 0 60 "standard" false false true 3000)
  = NotFound.
Proof. repeat split; vm_compute; reflexivity. Qed.

End Hybrid_Run_Theory.
